(** * Sudoku engine (soduku.c): shallow embedding and verification

    The C program keeps a board in [struct sudoku]: two [int] arrays of
    [DIM * DIM] cells, [puzzle] (the clues) and [solution] (the working
    grid).  The functions below follow soduku.c one to one.

    - A C [int] is a [Z].  The only arithmetic the program does is on
      indices ([row * DIM + col], with [row], [col] at most 8) and on loop
      counters up to 10, so no operation can leave the 32-bit range and no
      wrap-around has to be written out.  Cell values are only compared.
    - An array is a [list Z], read with [rd] and written with [wr].
    - [assert] is modelled: a failed assertion aborts the program, which is
      the outcome [AssertFail].  Pointers are not modelled, a board is a
      value, so the assertions that a pointer is not null have no counterpart.
    - The recursion of [sudoku_solve] is driven by a fuel counter giving the
      allowed call depth; [OutOfFuel] is the outcome of exceeding it.
    - A local array [int choices[DIM]] starts with indeterminate content: the
      functions that declare one take that content as the argument
      [garbage].
    - Input and output are streams of characters, a character being the [Z]
      value of a C [char]: [sudoku_read] takes the characters waiting on the
      standard input and returns those it leaves, [solution_print] returns
      the characters it writes.  [malloc] is taken to succeed and hands out
      a block of indeterminate content, the argument [fresh].
      [sudoku_destroy] only frees the block and has no counterpart. *)

From Stdlib Require Import ZArith Lia Ascii String.
From stdpp Require Import base decidable option list list_numbers sorting.

Local Open Scope Z_scope.

(** ** Outcomes of a call *)

Inductive result (A : Type) : Type :=
  | Ok (a : A)
  | AssertFail
  | OutOfFuel.
Arguments Ok {A} a.
Arguments AssertFail {A}.
Arguments OutOfFuel {A}.

Global Instance result_ret : MRet result := λ A a, Ok a.
Global Instance result_bind : MBind result := λ A B f m,
  match m with
  | Ok a => f a
  | AssertFail => AssertFail
  | OutOfFuel => OutOfFuel
  end.

(** [assert(b)] *)
Definition assert (b : bool) : result unit :=
  if b then Ok tt else AssertFail.

(** ** Global constants *)

Definition DIM : Z := 9.
Definition DIMBOX : Z := 3.
Definition EMPTY : Z := 0.
Definition SUCCESS : Z := 0.
Definition CONSTRAINT_VIOLATED : Z := -1.

(** ** The board *)

Record sudoku : Type := Sudoku {
  puzzle : list Z;
  solution : list Z
}.

Global Instance sudoku_eq_dec : EqDecision sudoku.
Proof. solve_decision. Defined.

(** [a[k]] and [a[k] = v].  All accesses of the program are in range once the
    assertions have passed; [wf] below records the array sizes. *)
Definition rd (a : list Z) (k : Z) : Z := a !!! Z.to_nat k.
Definition wr (a : list Z) (k v : Z) : list Z := <[Z.to_nat k := v]> a.

(** [su->solution[k] = v] *)
Definition set_solution (su : sudoku) (k v : Z) : sudoku :=
  {| puzzle := puzzle su; solution := wr (solution su) k v |}.

(** The arrays have [DIM * DIM] cells each. *)
Definition wf (su : sudoku) : Prop :=
  length (puzzle su) = 81%nat ∧ length (solution su) = 81%nat.

(** [for (int i = lo; i < hi; ++i)] visits [range lo hi]. *)
Definition range (lo hi : Z) : list Z := seqZ lo (hi - lo).

(** A loop whose body may [return]: the first iteration that returns decides. *)
Fixpoint for_first {I A : Type} (idxs : list I) (body : I → option A) : option A :=
  match idxs with
  | [] => None
  | i :: idxs' =>
      match body i with
      | Some a => Some a
      | None => for_first idxs' body
      end
  end.

(** The nested loops [for i in 0..DIM-1, for j in 0..DIM-1] visit the cells in
    row-major order. *)
Definition cells : list (Z * Z) :=
  i ← range 0 DIM; j ← range 0 DIM; [(i, j)].

(** ** Helper functions *)

Definition violate_row (su : sudoku) (row num : Z) : result Z :=
  _ ← assert ((0 <=? row) && (row <=? 8));
  Ok (default SUCCESS
        (for_first (range 0 DIM) (λ i,
           if rd (solution su) (row * DIM + i) =? num
           then Some CONSTRAINT_VIOLATED else None))).

Definition violate_col (su : sudoku) (col num : Z) : result Z :=
  _ ← assert ((0 <=? col) && (col <=? 8));
  Ok (default SUCCESS
        (for_first (range 0 DIM) (λ i,
           if rd (solution su) (i * DIM + col) =? num
           then Some CONSTRAINT_VIOLATED else None))).

Definition violate_box (su : sudoku) (row col num : Z) : result Z :=
  _ ← assert ((0 <=? row) && (row <=? 8));
  _ ← assert ((0 <=? col) && (col <=? 8));
  let row_box := row ÷ DIMBOX in
  let col_box := col ÷ DIMBOX in
  let row_pos := row_box * DIMBOX in
  let col_pos := col_box * DIMBOX in
  Ok (default SUCCESS
        (for_first (range row_pos ((row_box + 1) * DIMBOX)) (λ i,
           for_first (range col_pos ((col_box + 1) * DIMBOX)) (λ j,
             if rd (solution su) (i * DIM + j) =? num
             then Some CONSTRAINT_VIOLATED else None)))).

(** The condition
    [violate_row(su, row, num) || violate_col(su, col, num) ||
     violate_box(su, row, col, num)]
    of [cell_fill] and [cell_choices]; [||] evaluates left to right and stops at
    the first non-zero operand. *)
Definition violates (su : sudoku) (row col num : Z) : result bool :=
  r ← violate_row su row num;
  if negb (r =? 0) then Ok true else
  c ← violate_col su col num;
  if negb (c =? 0) then Ok true else
  b ← violate_box su row col num;
  Ok (negb (b =? 0)).

(** ** Core functions *)

Definition solution_reset (su : sudoku) : sudoku :=
  fold_left (λ s '(row, col),
               set_solution s (row * DIM + col) (rd (puzzle s) (row * DIM + col)))
            cells su.

Definition cell_erase (su : sudoku) (row col : Z) : result (bool * sudoku) :=
  _ ← assert ((0 <=? row) && (row <=? DIM - 1));
  _ ← assert ((0 <=? col) && (col <=? DIM - 1));
  if negb (rd (puzzle su) (row * DIM + col) =? EMPTY) then Ok (false, su)
  else Ok (true, set_solution su (row * DIM + col) EMPTY).

Definition cell_fill (su : sudoku) (row col num : Z) : result (bool * sudoku) :=
  _ ← assert ((0 <=? row) && (row <=? DIM - 1));
  _ ← assert ((0 <=? col) && (col <=? DIM - 1));
  _ ← assert ((1 <=? num) && (num <=? 9));
  if negb (rd (puzzle su) (row * DIM + col) =? EMPTY) then Ok (false, su)
  else
    v ← violates su row col num;
    if (v : bool) then Ok (false, su)
    else Ok (true, set_solution su (row * DIM + col) num).

Definition puzzle_solved (su : sudoku) : bool :=
  default true
    (for_first cells (λ '(i, j),
       let check_num := rd (solution su) (i * DIM + j) in
       if check_num =? EMPTY then Some false else None)).

(** The loop [for (int i = 1; i <= 9; ++i)] of [cell_choices], with its
    variables [choice] and [choices]. *)
Fixpoint cell_choices_loop (su : sudoku) (row col : Z) (idxs : list Z)
    (choice : Z) (choices : list Z) : result (Z * list Z) :=
  match idxs with
  | [] => Ok (choice, choices)
  | i :: idxs' =>
      v ← violates su row col i;
      if (v : bool) then cell_choices_loop su row col idxs' choice choices
      else cell_choices_loop su row col idxs' (choice + 1) (wr choices choice i)
  end.

(** Returns the return value and the array [choices]. *)
Definition cell_choices (su : sudoku) (row col : Z) (choices : list Z)
    : result (Z * list Z) :=
  _ ← assert ((0 <=? row) && (row <=? DIM - 1));
  _ ← assert ((0 <=? col) && (col <=? DIM - 1));
  if negb (rd (puzzle su) (row * DIM + col) =? EMPTY) then Ok (0, choices)
  else cell_choices_loop su row col (range 1 (9 + 1)) 0 choices.

(** Returns the return value, [*row] and [*col]. *)
Fixpoint cell_hint_loop (su : sudoku) (cs : list (Z * Z)) (row col : Z)
    (garbage : list Z) : result (bool * Z * Z) :=
  match cs with
  | [] => Ok (false, row, col)
  | (i, j) :: cs' =>
      if rd (solution su) (i * DIM + j) =? EMPTY then
        '(num_choices, _) ← cell_choices su i j garbage;
        if num_choices =? 1 then Ok (true, i, j)
        else cell_hint_loop su cs' row col garbage
      else cell_hint_loop su cs' row col garbage
  end.

Definition cell_hint (garbage : list Z) (su : sudoku) (row col : Z)
    : result (bool * Z * Z) :=
  cell_hint_loop su cells row col garbage.

(** First pass of [least_possible_solutions]: the variables [least] and
    [choices] after the loops. *)
Fixpoint least_pass (su : sudoku) (cs : list (Z * Z)) (least : Z)
    (choices : list Z) : result (Z * list Z) :=
  match cs with
  | [] => Ok (least, choices)
  | (i, j) :: cs' =>
      if rd (solution su) (i * DIM + j) =? EMPTY then
        '(num_choices, choices') ← cell_choices su i j choices;
        if (0 <? num_choices) && (num_choices <? least)
        then least_pass su cs' num_choices choices'
        else least_pass su cs' least choices'
      else least_pass su cs' least choices
  end.

(** Second pass: the return value, [*row], [*col] and [choices]. *)
Fixpoint find_pass (su : sudoku) (cs : list (Z * Z)) (least row col : Z)
    (choices : list Z) : result (Z * Z * Z * list Z) :=
  match cs with
  | [] => Ok (0, row, col, choices)
  | (i, j) :: cs' =>
      if rd (solution su) (i * DIM + j) =? EMPTY then
        '(num_choices, choices') ← cell_choices su i j choices;
        if num_choices =? least then Ok (num_choices, i, j, choices')
        else find_pass su cs' least row col choices'
      else find_pass su cs' least row col choices
  end.

Definition least_possible_solutions (su : sudoku) (row col : Z)
    (choices : list Z) : result (Z * Z * Z * list Z) :=
  let least := DIM + 1 in
  '(least, choices) ← least_pass su cells least choices;
  find_pass su cells least row col choices.

(** The loop [for (int i = 0; i < least_num; ++i)] of [sudoku_solve] followed
    by the final [cell_erase]; [solve] is the recursive call. *)
Fixpoint solve_loop (solve : sudoku → result (bool * sudoku))
    (row col : Z) (choices : list Z) (idxs : list Z) (su : sudoku)
    : result (bool * sudoku) :=
  match idxs with
  | [] =>
      '(_, su) ← cell_erase su row col;
      Ok (false, su)
  | i :: idxs' =>
      let curr_sol := rd choices i in
      '(filled, su) ← cell_fill su row col curr_sol;
      if negb filled then solve_loop solve row col choices idxs' su
      else
        '(solved, su) ← solve su;
        if (solved : bool) then Ok (true, su)
        else solve_loop solve row col choices idxs' su
  end.

(** [garbage] is the content of the local array [int choices[DIM]] when the
    function is entered: C leaves it indeterminate. *)
Fixpoint sudoku_solve (garbage : list Z) (fuel : nat) (su : sudoku)
    : result (bool * sudoku) :=
  match fuel with
  | O => OutOfFuel
  | S fuel' =>
      if puzzle_solved su then Ok (true, su)
      else
        let row := 0 in
        let col := 0 in
        let choices := garbage in
        '(least_num, row, col, choices) ←
           least_possible_solutions su row col choices;
        if least_num =? 0 then Ok (false, su)
        else solve_loop (sudoku_solve garbage fuel') row col choices
                        (range 0 least_num) su
  end.

(** ** Reading and printing *)

(** The value of a character constant. *)
Definition chr (c : ascii) : Z := Z.of_N (N_of_ascii c).

Definition PRINT : list Z :=
  chr <$> ["_"; "1"; "2"; "3"; "4"; "5"; "6"; "7"; "8"; "9"]%char.

(** [isspace] in the C locale: space, and tab to carriage return. *)
Definition isspace (c : Z) : bool := (c =? 32) || ((9 <=? c) && (c <=? 13)).

(** [scanf(" %c", &c)]: skips white space and reads one character.  [Some]
    holds [c] and the input left when the call returns 1; at the end of the
    input the call returns [EOF], which is [None]. *)
Fixpoint scanf_char (stdin : list Z) : option (Z * list Z) :=
  match stdin with
  | [] => None
  | c :: stdin' => if isspace c then scanf_char stdin' else Some (c, stdin')
  end.

(** The loop of [sudoku_read]; [pPuz] and [pSol] point at cell [cnt]. *)
Fixpoint sudoku_read_loop (cnts : list Z) (su : sudoku) (stdin : list Z)
    : result (sudoku * list Z) :=
  match cnts with
  | [] => Ok (su, stdin)
  | cnt :: cnts' =>
      match scanf_char stdin with
      | None => AssertFail
      | Some (c, stdin') =>
          let v := if c =? rd PRINT EMPTY then 0 else c - chr "0" in
          sudoku_read_loop cnts'
            {| puzzle := wr (puzzle su) cnt v; solution := wr (solution su) cnt v |}
            stdin'
      end
  end.

(** Returns the board and the input that is left. *)
Definition sudoku_read (fresh : sudoku) (stdin : list Z) : result (sudoku * list Z) :=
  sudoku_read_loop (range 0 (DIM * DIM)) fresh stdin.

(** The characters [solution_print_separator] writes. *)
Definition solution_print_separator : list Z :=
  fold_left (λ out box,
               fold_left (λ out i, out ++ [chr "-"]) (range 0 (3 * DIMBOX))
                         (out ++ [chr "+"]))
            (range 0 (DIM ÷ DIMBOX)) []
  ++ [chr "+"; chr "010"].

(** The characters [solution_print] writes. *)
Definition solution_print (su : sudoku) : list Z :=
  fold_left (λ out r,
               let out :=
                 if r `rem` DIMBOX =? 0 then out ++ solution_print_separator
                 else out in
               let out :=
                 fold_left (λ out c,
                              let out :=
                                if c `rem` DIMBOX =? 0 then out ++ [chr "|"]
                                else out in
                              out ++ [chr " ";
                                      rd PRINT (rd (solution su) (r * DIM + c));
                                      chr " "])
                           (range 0 DIM) out in
               out ++ [chr "|"; chr "010"])
            (range 0 DIM) []
  ++ solution_print_separator
  ++ [chr "010"].

(** ** The search, counting its invocations *)

(** [sudoku_solve] with two counters, the third component of the result: the
    number of invocations of [sudoku_solve] the call made, itself included,
    and the number of those that ended a branch of the search, returning
    before the loop because the board was full or no cell had a candidate. *)
Fixpoint solve_loop_calls (solve : sudoku → result (bool * sudoku * (nat * nat)))
    (row col : Z) (choices : list Z) (idxs : list Z) (su : sudoku)
    (calls ends : nat) : result (bool * sudoku * (nat * nat)) :=
  match idxs with
  | [] =>
      '(_, su) ← cell_erase su row col;
      Ok (false, su, (calls, ends))
  | i :: idxs' =>
      let curr_sol := rd choices i in
      '(filled, su) ← cell_fill su row col curr_sol;
      if negb filled
      then solve_loop_calls solve row col choices idxs' su calls ends
      else
        '(solved, su, (n, m)) ← solve su;
        if (solved : bool)
        then Ok (true, su, ((calls + n)%nat, (ends + m)%nat))
        else solve_loop_calls solve row col choices idxs' su
                              (calls + n)%nat (ends + m)%nat
  end.

Fixpoint sudoku_solve_calls (garbage : list Z) (fuel : nat) (su : sudoku)
    : result (bool * sudoku * (nat * nat)) :=
  match fuel with
  | O => OutOfFuel
  | S fuel' =>
      if puzzle_solved su then Ok (true, su, (1%nat, 1%nat))
      else
        '(least_num, row, col, choices) ←
           least_possible_solutions su 0 0 garbage;
        if least_num =? 0 then Ok (false, su, (1%nat, 1%nat))
        else solve_loop_calls (sudoku_solve_calls garbage fuel') row col choices
                              (range 0 least_num) su 1%nat 0%nat
  end.

(** Forgetting the counters. *)
Definition forget {A C : Type} (r : result (A * C)) : result A :=
  match r with
  | Ok (a, _) => Ok a
  | AssertFail => AssertFail
  | OutOfFuel => OutOfFuel
  end.

(** [1 + 9 + ... + 9^e]: the invocations a search over [e] empty cells can
    make, at most [9^k] of them at depth [k]. *)
Fixpoint search_bound (e : nat) : nat :=
  match e with
  | O => 1
  | S e' => 1 + 9 * search_bound e'
  end.

(** ** The search, with its fills asserted *)

(** [sudoku_solve] with [assert(cell_fill(...))] in place of the test that
    skips a candidate [cell_fill] refuses: this copy fails where the loop of
    [sudoku_solve] would go on to the next candidate. *)
Fixpoint solve_loop_strict (solve : sudoku → result (bool * sudoku))
    (row col : Z) (choices : list Z) (idxs : list Z) (su : sudoku)
    : result (bool * sudoku) :=
  match idxs with
  | [] =>
      '(_, su) ← cell_erase su row col;
      Ok (false, su)
  | i :: idxs' =>
      let curr_sol := rd choices i in
      '(filled, su) ← cell_fill su row col curr_sol;
      _ ← assert filled;
      '(solved, su) ← solve su;
      if (solved : bool) then Ok (true, su)
      else solve_loop_strict solve row col choices idxs' su
  end.

Fixpoint sudoku_solve_strict (garbage : list Z) (fuel : nat) (su : sudoku)
    : result (bool * sudoku) :=
  match fuel with
  | O => OutOfFuel
  | S fuel' =>
      if puzzle_solved su then Ok (true, su)
      else
        '(least_num, row, col, choices) ←
           least_possible_solutions su 0 0 garbage;
        if least_num =? 0 then Ok (false, su)
        else solve_loop_strict (sudoku_solve_strict garbage fuel') row col choices
                               (range 0 least_num) su
  end.

(** * Vocabulary of the specification *)

(** ** Rows, columns and boxes of the working grid *)

(** The flat indices of row [row], of column [col], and of the 3x3 box that
    contains [(row, col)]. *)
Definition row_idx (row : Z) : list Z := (λ i, row * DIM + i) <$> range 0 DIM.
Definition col_idx (col : Z) : list Z := (λ i, i * DIM + col) <$> range 0 DIM.
Definition box_idx (row col : Z) : list Z :=
  i ← range (row ÷ DIMBOX * DIMBOX) (row ÷ DIMBOX * DIMBOX + DIMBOX);
  j ← range (col ÷ DIMBOX * DIMBOX) (col ÷ DIMBOX * DIMBOX + DIMBOX);
  [i * DIM + j].

(** Their contents in [su->solution]. *)
Definition vals (su : sudoku) (idx : list Z) : list Z := rd (solution su) <$> idx.
Definition row_of (su : sudoku) (row : Z) : list Z := vals su (row_idx row).
Definition col_of (su : sudoku) (col : Z) : list Z := vals su (col_idx col).
Definition box_of (su : sudoku) (row col : Z) : list Z := vals su (box_idx row col).

(** [num] occurs in the row, the column or the box of [(row, col)]. *)
Definition occurs (su : sudoku) (row col num : Z) : Prop :=
  num ∈ row_of su row ∨ num ∈ col_of su col ∨ num ∈ box_of su row col.

Global Instance occurs_dec su row col num : Decision (occurs su row col num).
Proof. unfold occurs. apply _. Defined.

(** The digits [cell_choices] keeps for a cell: none for a clue, otherwise the
    digits that occur nowhere in the row, the column and the box. *)
Definition candidates (su : sudoku) (row col : Z) : list Z :=
  if decide (rd (puzzle su) (row * DIM + col) = EMPTY)
  then filter (λ d, ¬ occurs su row col d) (range 1 10)
  else [].

(** Number of empty cells of the working grid. *)
Definition empties (su : sudoku) : nat :=
  length (filter (λ v, v = EMPTY) (solution su)).

(** A coordinate the assertions accept. *)
Definition coord (r : Z) : Prop := 0 ≤ r ≤ 8.

(** What the proofs use of an index list: in range, without repetition. *)
Definition unit_idx (idx : list Z) : Prop :=
  Forall (λ k, 0 ≤ k < 81) idx ∧ NoDup idx ∧ length idx = 9%nat.

Global Instance unit_idx_dec idx : Decision (unit_idx idx).
Proof. unfold unit_idx. apply _. Defined.

(** No digit other than [0] is repeated in a list of cell values. *)
Definition distinct (l : list Z) : Prop := NoDup (filter (λ v, v ≠ EMPTY) l).

Global Instance distinct_dec l : Decision (distinct l).
Proof. unfold distinct. apply _. Defined.

(** No digit is repeated within a row, a column or a box. *)
Definition consistent (su : sudoku) : Prop :=
  ∀ row col, coord row → coord col →
    distinct (row_of su row) ∧ distinct (col_of su col)
    ∧ distinct (box_of su row col).

(** Every cell of the working grid holds [0] or a digit. *)
Definition digits (su : sudoku) : Prop :=
  Forall (λ v, 0 ≤ v ≤ 9) (solution su).

(** The clue cells show their clue. *)
Definition clues_kept (su : sudoku) : Prop :=
  ∀ k, 0 ≤ k < 81 → rd (puzzle su) k ≠ EMPTY → rd (solution su) k = rd (puzzle su) k.

(** Size of the candidate set of a cell, and emptiness of a cell. *)
Definition ncand (su : sudoku) (i j : Z) : Z :=
  Z.of_nat (length (candidates su i j)).
Definition blank (su : sudoku) (i j : Z) : Prop :=
  rd (solution su) (i * DIM + j) = EMPTY.

Definition coords (cs : list (Z * Z)) : Prop :=
  Forall (λ '(i, j), coord i ∧ coord j) cs.

Global Instance coord_dec r : Decision (coord r).
Proof. unfold coord. apply _. Defined.

(** [fills su su']: [su'] is reached from [su] by successful [cell_fill]s, each
    on a cell that is empty when it is filled. *)
Inductive fills : sudoku → sudoku → Prop :=
  | fills_refl su : fills su su
  | fills_step su row col num su1 su' :
      coord row → coord col → 1 ≤ num ≤ 9 → blank su row col →
      cell_fill su row col num = Ok (true, su1) →
      fills su1 su' → fills su su'.

(** A dead end: an empty cell without candidate. *)
Definition dead_end (su : sudoku) (row col : Z) : Prop :=
  coord row ∧ coord col ∧ blank su row col ∧ ncand su row col = 0.

(** The cell [cell_hint] reports: the first empty cell with one candidate. *)
Definition hint_cell (su : sudoku) (cs : list (Z * Z)) : option (Z * Z) :=
  for_first cs (λ '(i, j),
    if (rd (solution su) (i * DIM + j) =? EMPTY) && (ncand su i j =? 1)
    then Some (i, j) else None).

Global Instance wf_dec su : Decision (wf su).
Proof. unfold wf. apply _. Defined.

Global Instance digits_dec su : Decision (digits su).
Proof. unfold digits. apply _. Defined.

(** ** Completions *)

(** [completion su s]: the grid of [s] completes the grid of [su].  It keeps
    the clues and every digit [su] shows, has no empty cell, holds digits
    only, and repeats none within a row, a column or a box. *)
Definition completion (su s : sudoku) : Prop :=
  wf s ∧ puzzle s = puzzle su
  ∧ (∀ k, 0 ≤ k < 81 → rd (solution su) k ≠ EMPTY →
       rd (solution s) k = rd (solution su) k)
  ∧ puzzle_solved s = true ∧ digits s ∧ consistent s.

(** ** Text *)

(** The characters of the input that [scanf(" %c")] does not skip. *)
Definition nonspace (stdin : list Z) : list Z :=
  filter (λ c, isspace c = false) stdin.

(** The cell value [sudoku_read] stores for a character. *)
Definition decode (c : Z) : Z := if c =? chr "_" then 0 else c - chr "0".

(** The characters of the frame [solution_print] draws, and a text without
    them. *)
Definition frame : list Z := [chr "+"; chr "-"; chr "|"].
Definition unframed (text : list Z) : list Z := filter (λ c, c ∉ frame) text.

(** What [sudoku_read] keeps of a print-out without its frame: the cell
    characters. *)
Definition cell_char (c : Z) : Prop := isspace c = false ∧ c ∉ frame.

Global Instance cell_char_dec c : Decision (cell_char c).
Proof. unfold cell_char. apply _. Defined.

(** The print-out line by line: the separator line, and the line of row
    [r], three groups of three cells between bars, a cell being its
    character between two spaces. *)
Definition separator_line : list Z :=
  chr <$> list_ascii_of_string "+---------+---------+---------+".
Definition cell_text (su : sudoku) (r c : Z) : list Z :=
  [chr " "; rd PRINT (rd (solution su) (r * DIM + c)); chr " "].
Definition row_line (su : sudoku) (r : Z) : list Z :=
  [chr "|"] ++ cell_text su r 0 ++ cell_text su r 1 ++ cell_text su r 2
  ++ [chr "|"] ++ cell_text su r 3 ++ cell_text su r 4 ++ cell_text su r 5
  ++ [chr "|"] ++ cell_text su r 6 ++ cell_text su r 7 ++ cell_text su r 8
  ++ [chr "|"].
Definition print_lines (su : sudoku) : list (list Z) :=
  [separator_line; row_line su 0; row_line su 1; row_line su 2;
   separator_line; row_line su 3; row_line su 4; row_line su 5;
   separator_line; row_line su 6; row_line su 7; row_line su 8;
   separator_line; []].

(** ** Calls of the interface *)

(** The operations of soduku.h that work on a board, with their arguments,
    and what they return. *)
Inductive op : Type :=
  | Reset
  | Erase (row col : Z)
  | Fill (row col num : Z)
  | Solved
  | Choices (row col : Z)
  | Hint (row col : Z)
  | Solve.

Inductive retval : Type :=
  | RVoid
  | RBool (b : bool)
  | RChoices (n : Z) (written : list Z)
  | RHint (b : bool) (row col : Z).

(** The requirements soduku.h puts on the arguments. *)
Definition op_ok (o : op) : Prop :=
  match o with
  | Erase row col | Choices row col => coord row ∧ coord col
  | Fill row col num => coord row ∧ coord col ∧ 1 ≤ num ≤ 9
  | Reset | Solved | Hint _ _ | Solve => True
  end.

(** One call.  [Choices] reports the return value and the entries of [choices]
    the call wrote; [Hint row col] is called with [*row = row], [*col = col]. *)
Definition run_op (garbage : list Z) (fuel : nat) (o : op) (su : sudoku)
    : result (retval * sudoku) :=
  match o with
  | Reset => Ok (RVoid, solution_reset su)
  | Erase row col => '(b, su') ← cell_erase su row col; Ok (RBool b, su')
  | Fill row col num => '(b, su') ← cell_fill su row col num; Ok (RBool b, su')
  | Solved => Ok (RBool (puzzle_solved su), su)
  | Choices row col =>
      '(n, choices) ← cell_choices su row col garbage;
      Ok (RChoices n (take (Z.to_nat n) choices), su)
  | Hint row col =>
      '(b, row', col') ← cell_hint garbage su row col; Ok (RHint b row' col', su)
  | Solve => '(b, su') ← sudoku_solve garbage fuel su; Ok (RBool b, su')
  end.

(** A sequence of calls, each on the board the previous one left. *)
Fixpoint run_ops (garbage : list Z) (fuel : nat) (os : list op) (su : sudoku)
    : result sudoku :=
  match os with
  | [] => Ok su
  | o :: os' => '(_, su') ← run_op garbage fuel o su; run_ops garbage fuel os' su'
  end.

(** ** Boards used as examples *)

Definition empty_board : sudoku :=
  {| puzzle := replicate 81 0; solution := replicate 81 0 |}.

(** Every cell holds 1: what [sudoku_read] builds from eighty-one ['1']. *)
Definition ones_board : sudoku :=
  {| puzzle := replicate 81 1; solution := replicate 81 1 |}.

Definition solved_grid : list Z :=
  [1; 2; 3; 4; 5; 6; 7; 8; 9;
   4; 5; 6; 7; 8; 9; 1; 2; 3;
   7; 8; 9; 1; 2; 3; 4; 5; 6;
   2; 3; 1; 6; 7; 4; 8; 9; 5;
   8; 7; 5; 9; 1; 2; 3; 6; 4;
   6; 9; 4; 5; 3; 8; 2; 1; 7;
   3; 1; 7; 2; 6; 5; 9; 4; 8;
   5; 4; 2; 8; 9; 7; 6; 3; 1;
   9; 6; 8; 3; 4; 1; 5; 7; 2].

(** [solved_grid] without its first row. *)
Definition row_missing_board : sudoku :=
  let p := replicate 9 0 ++ drop 9 solved_grid in
  {| puzzle := p; solution := p |}.

(** [solved_grid] without rows 0 and 3, and with the clue 8 at (0, 6): no
    digit is repeated, and there is no completion. *)
Definition stuck_board : sudoku :=
  let p := [0; 0; 0; 0; 0; 0; 8; 0; 0] ++ take 18 (drop 9 solved_grid)
           ++ replicate 9 0 ++ drop 36 solved_grid in
  {| puzzle := p; solution := p |}.

(** [stuck_board] after the search has filled (0, 4), (0, 7), (3, 4) and
    (3, 7), each with its only candidate: cell (0, 0) is the next one chosen,
    with the candidates 1 and 2. *)
Definition fork_board : sudoku :=
  set_solution (set_solution (set_solution (set_solution stuck_board 4 5) 7 9) 31 7)
               34 8.

(** Cell (0, 8) is empty and has no candidate: 1 to 6 are in its row, 7 to 9 in
    its column.  Every other cell that is not a clue is empty. *)
Definition dead_board : sudoku :=
  let p := [1; 2; 3; 4; 5; 6; 0; 0; 0] ++ replicate 18 0
           ++ [0; 0; 0; 0; 0; 0; 0; 0; 7;
               0; 0; 0; 0; 0; 0; 0; 0; 8;
               0; 0; 0; 0; 0; 0; 0; 0; 9] ++ replicate 27 0 in
  {| puzzle := p; solution := p |}.

(** * Lemmas *)

(** ** Arrays *)

Lemma rd_wr_eq a k v : 0 ≤ k → (Z.to_nat k < length a)%nat → rd (wr a k v) k = v.
Proof. intros _ Hk. unfold rd, wr. by rewrite list_lookup_total_insert_eq. Qed.

Lemma rd_wr_ne a k j v : 0 ≤ k → 0 ≤ j → k ≠ j → rd (wr a k v) j = rd a j.
Proof.
  intros Hk Hj Hne. unfold rd, wr.
  rewrite list_lookup_total_insert_ne; [done | lia].
Qed.

Lemma length_wr a k v : length (wr a k v) = length a.
Proof. apply length_insert. Qed.

Lemma wr_wr a k v w : wr (wr a k v) k w = wr a k w.
Proof. apply list_insert_insert_eq. Qed.

Lemma wr_rd a k : (Z.to_nat k < length a)%nat → wr a k (rd a k) = a.
Proof.
  intros Hk. unfold wr, rd. apply list_insert_id.
  by apply list_lookup_lookup_total_lt.
Qed.

Lemma set_solution_set su k v w :
  set_solution (set_solution su k v) k w = set_solution su k w.
Proof. unfold set_solution; simpl. by rewrite wr_wr. Qed.

Lemma set_solution_id su k :
  (Z.to_nat k < length (solution su))%nat →
  set_solution su k (rd (solution su) k) = su.
Proof. intros Hk. destruct su; unfold set_solution; simpl in *. by rewrite wr_rd. Qed.

Lemma set_solution_blank su k :
  (Z.to_nat k < length (solution su))%nat →
  rd (solution su) k = EMPTY → set_solution su k EMPTY = su.
Proof. intros Hk He. rewrite <- He at 1. by apply set_solution_id. Qed.

Lemma wf_set_solution su k v : wf su → wf (set_solution su k v).
Proof. intros [Hp Hs]. split; simpl; [done | by rewrite length_wr]. Qed.

Lemma rd_seqZ a : rd a <$> seqZ 0 (Z.of_nat (length a)) = a.
Proof.
  apply list_eq. intros i. rewrite list_lookup_fmap.
  destruct (decide (i < length a)%nat) as [Hlt | Hge].
  - rewrite lookup_seqZ_lt by lia. simpl. unfold rd.
    rewrite Z.add_0_l, Nat2Z.id. symmetry. by apply list_lookup_lookup_total_lt.
  - rewrite lookup_seqZ_ge by lia. simpl. symmetry. apply lookup_ge_None. lia.
Qed.

(** ** Loops *)

Lemma for_first_member {I : Type} (l : list I) (f : I → Z) (num : Z) :
  default SUCCESS
    (for_first l (λ i, if f i =? num then Some CONSTRAINT_VIOLATED else None))
  = if decide (num ∈ f <$> l) then CONSTRAINT_VIOLATED else SUCCESS.
Proof.
  induction l as [|i l IH]; [done |].
  rewrite fmap_cons. cbn [for_first].
  destruct (Z.eqb_spec (f i) num) as [Heq | Hne]; cbn [default].
  - rewrite decide_True; [done | subst; apply elem_of_cons; by left].
  - rewrite IH. destruct (decide (num ∈ f <$> l)) as [Hin | Hin].
    + rewrite decide_True; [done | apply elem_of_cons; by right].
    + rewrite decide_False; [done |].
      rewrite elem_of_cons. intros [? | ?]; [congruence | done].
Qed.

Lemma for_first_ext {I A : Type} (l : list I) (f g : I → option A) :
  (∀ i, f i = g i) → for_first l f = for_first l g.
Proof.
  intros Hfg. induction l as [|i l IH]; [done |].
  cbn [for_first]. by rewrite Hfg, IH.
Qed.

Lemma for_first_app {I A : Type} (l1 l2 : list I) (body : I → option A) :
  for_first (l1 ++ l2) body =
  match for_first l1 body with Some a => Some a | None => for_first l2 body end.
Proof.
  induction l1 as [|i l1 IH]; simpl; [done |].
  destruct (body i); [done | apply IH].
Qed.

Lemma for_first_nested {I J A : Type} (l1 : list I) (l2 : list J)
    (body : I → J → option A) :
  for_first l1 (λ i, for_first l2 (body i)) =
  for_first (i ← l1; j ← l2; [(i, j)]) (λ '(i, j), body i j).
Proof.
  induction l1 as [|i l1 IH]; [done |].
  rewrite bind_cons, for_first_app, <- IH. cbn [for_first].
  assert (for_first (l2 ≫= λ j, [(i, j)]) (λ '(i0, j), body i0 j)
          = for_first l2 (body i)) as ->; [| done].
  clear. induction l2 as [|j l2 IH]; [done |].
  rewrite bind_cons. cbn [for_first app].
  destruct (body i j); [done | apply IH].
Qed.

Lemma bind_pair_fmap {I J B : Type} (l1 : list I) (l2 : list J) (h : I → J → B) :
  (λ '(i, j), h i j) <$> (i ← l1; j ← l2; [(i, j)]) = (i ← l1; j ← l2; [h i j]).
Proof.
  induction l1 as [|i l1 IH]; [done |].
  rewrite !bind_cons, fmap_app, IH. f_equal.
  clear. induction l2 as [|j l2 IH]; [done |].
  rewrite !bind_cons, fmap_app, IH. done.
Qed.

(** ** The constraint checks *)

Ltac res_simpl := cbn [mbind result_bind mret result_ret].

Lemma assert_coord r : coord r → assert ((0 <=? r) && (r <=? 8)) = Ok tt.
Proof.
  intros [H0 H8]. unfold assert.
  destruct (Z.leb_spec 0 r), (Z.leb_spec r 8); simpl; [done | lia ..].
Qed.

Lemma assert_coord' r : coord r → assert ((0 <=? r) && (r <=? DIM - 1)) = Ok tt.
Proof. apply assert_coord. Qed.

Lemma violate_row_spec su row num :
  coord row →
  violate_row su row num =
  Ok (if decide (num ∈ row_of su row) then CONSTRAINT_VIOLATED else SUCCESS).
Proof.
  intros Hr. unfold violate_row. rewrite assert_coord by done. res_simpl.
  rewrite (for_first_member _ (λ i, rd (solution su) (row * DIM + i))).
  unfold row_of, vals, row_idx. by rewrite <- list_fmap_compose.
Qed.

Lemma violate_col_spec su col num :
  coord col →
  violate_col su col num =
  Ok (if decide (num ∈ col_of su col) then CONSTRAINT_VIOLATED else SUCCESS).
Proof.
  intros Hc. unfold violate_col. rewrite assert_coord by done. res_simpl.
  rewrite (for_first_member _ (λ i, rd (solution su) (i * DIM + col))).
  unfold col_of, vals, col_idx. by rewrite <- list_fmap_compose.
Qed.

Lemma violate_box_spec su row col num :
  coord row → coord col →
  violate_box su row col num =
  Ok (if decide (num ∈ box_of su row col) then CONSTRAINT_VIOLATED else SUCCESS).
Proof.
  intros Hr Hc. unfold violate_box. rewrite !assert_coord by done. res_simpl.
  rewrite for_first_nested.
  erewrite for_first_ext;
    [rewrite (for_first_member _ (λ '(i, j), rd (solution su) (i * DIM + j)))
    | by intros [i j]].
  unfold box_of, vals, box_idx.
  rewrite <- (bind_pair_fmap _ _ (λ i j, i * DIM + j)), <- list_fmap_compose.
  replace ((row ÷ DIMBOX + 1) * DIMBOX) with (row ÷ DIMBOX * DIMBOX + DIMBOX) by lia.
  replace ((col ÷ DIMBOX + 1) * DIMBOX) with (col ÷ DIMBOX * DIMBOX + DIMBOX) by lia.
  set (l := _ ≫= _).
  assert ((λ '(i, j), rd (solution su) (i * DIM + j)) <$> l =
          (rd (solution su) ∘ (λ '(i, j), i * DIM + j)) <$> l) as ->; [| done].
  apply list_fmap_ext. by intros _ [i j] _.
Qed.

Lemma violates_spec su row col num :
  coord row → coord col →
  violates su row col num = Ok (bool_decide (occurs su row col num)).
Proof.
  intros Hr Hc. unfold violates, occurs.
  rewrite violate_row_spec by done. res_simpl.
  destruct (decide (num ∈ row_of su row)); cbn [negb Z.eqb CONSTRAINT_VIOLATED SUCCESS].
  { by rewrite bool_decide_eq_true_2 by tauto. }
  rewrite violate_col_spec by done. res_simpl.
  destruct (decide (num ∈ col_of su col)); cbn [negb Z.eqb CONSTRAINT_VIOLATED SUCCESS].
  { by rewrite bool_decide_eq_true_2 by tauto. }
  rewrite violate_box_spec by done. res_simpl.
  destruct (decide (num ∈ box_of su row col)); cbn [negb Z.eqb CONSTRAINT_VIOLATED SUCCESS].
  { by rewrite bool_decide_eq_true_2 by tauto. }
  by rewrite bool_decide_eq_false_2 by tauto.
Qed.

(** ** [cell_fill] and [cell_erase] as equations *)

Lemma assert_digit num : 1 ≤ num ≤ 9 → assert ((1 <=? num) && (num <=? 9)) = Ok tt.
Proof.
  intros [H1 H9]. unfold assert.
  destruct (Z.leb_spec 1 num), (Z.leb_spec num 9); simpl; [done | lia ..].
Qed.

Lemma cell_fill_eq su row col num :
  coord row → coord col → 1 ≤ num ≤ 9 →
  cell_fill su row col num =
  Ok (if decide (rd (puzzle su) (row * DIM + col) = EMPTY
                 ∧ ¬ occurs su row col num)
      then (true, set_solution su (row * DIM + col) num)
      else (false, su)).
Proof.
  intros Hr Hc Hn. unfold cell_fill.
  rewrite !assert_coord', assert_digit by done. res_simpl.
  destruct (Z.eqb_spec (rd (puzzle su) (row * DIM + col)) EMPTY) as [He | He];
    cbn [negb].
  - rewrite violates_spec by done. res_simpl.
    destruct (bool_decide_reflect (occurs su row col num)).
    + by rewrite decide_False by tauto.
    + by rewrite decide_True by tauto.
  - by rewrite decide_False by tauto.
Qed.

Lemma cell_erase_eq su row col :
  coord row → coord col →
  cell_erase su row col =
  Ok (if decide (rd (puzzle su) (row * DIM + col) = EMPTY)
      then (true, set_solution su (row * DIM + col) EMPTY)
      else (false, su)).
Proof.
  intros Hr Hc. unfold cell_erase. rewrite !assert_coord' by done. res_simpl.
  destruct (Z.eqb_spec (rd (puzzle su) (row * DIM + col)) EMPTY) as [He | He];
    cbn [negb].
  - by rewrite decide_True.
  - by rewrite decide_False.
Qed.

(** ** Geometry of the grid *)

(** Case analysis on a coordinate: the nine values it can take. *)
Lemma coord_cases r :
  coord r → r = 0 ∨ r = 1 ∨ r = 2 ∨ r = 3 ∨ r = 4 ∨ r = 5 ∨ r = 6 ∨ r = 7 ∨ r = 8.
Proof. unfold coord. lia. Qed.

Ltac coord_cases H :=
  apply coord_cases in H;
  destruct H as [-> | [-> | [-> | [-> | [-> | [-> | [-> | [-> | ->]]]]]]]].

Lemma index_bounds row col : coord row → coord col → 0 ≤ row * DIM + col < 81.
Proof. unfold coord, DIM. lia. Qed.

Lemma index_lt su row col :
  wf su → coord row → coord col →
  (Z.to_nat (row * DIM + col) < length (solution su))%nat.
Proof. intros [_ ->] Hr Hc. pose proof (index_bounds row col Hr Hc). lia. Qed.

Lemma index_inj row col row' col' :
  coord row → coord col → coord row' → coord col' →
  row * DIM + col = row' * DIM + col' → row = row' ∧ col = col'.
Proof. unfold coord, DIM. lia. Qed.

Lemma cell_in_row row col : coord row → coord col → row * DIM + col ∈ row_idx row.
Proof.
  intros Hr Hc. unfold row_idx.
  apply (list_elem_of_fmap_2' _ _ col); [| done].
  unfold range, DIM, coord in *. apply elem_of_seqZ. lia.
Qed.

Lemma cell_in_col row col : coord row → coord col → row * DIM + col ∈ col_idx col.
Proof.
  intros Hr Hc. unfold col_idx.
  apply (list_elem_of_fmap_2' _ _ row); [| done].
  unfold range, DIM, coord in *. apply elem_of_seqZ. lia.
Qed.

Lemma cell_in_box row col :
  coord row → coord col → row * DIM + col ∈ box_idx row col.
Proof. intros Hr Hc. coord_cases Hr; coord_cases Hc; compute_done. Qed.

Lemma elem_of_vals su idx k : k ∈ idx → rd (solution su) k ∈ vals su idx.
Proof. intros Hk. unfold vals. by apply list_elem_of_fmap_2. Qed.

(** A cell's own content occurs in its row, its column and its box. *)
Lemma occurs_self su row col :
  coord row → coord col →
  let v := rd (solution su) (row * DIM + col) in
  v ∈ row_of su row ∧ v ∈ col_of su col ∧ v ∈ box_of su row col.
Proof.
  intros Hr Hc. repeat split; apply elem_of_vals.
  - by apply cell_in_row.
  - by apply cell_in_col.
  - by apply cell_in_box.
Qed.

(** ** Units: the index lists of rows, columns and boxes *)

Lemma unit_row row : coord row → unit_idx (row_idx row).
Proof. intros Hr. coord_cases Hr; compute_done. Qed.

Lemma unit_col col : coord col → unit_idx (col_idx col).
Proof. intros Hc. coord_cases Hc; compute_done. Qed.

Lemma unit_box row col : coord row → coord col → unit_idx (box_idx row col).
Proof. intros Hr Hc. coord_cases Hr; coord_cases Hc; compute_done. Qed.

Lemma row_idx_inv row col r :
  coord row → coord col → coord r → row * DIM + col ∈ row_idx r → r = row.
Proof.
  intros Hr Hc Hr'. unfold row_idx. rewrite list_elem_of_fmap.
  intros (i & Heq & Hi). unfold range in Hi. apply elem_of_seqZ in Hi.
  unfold coord, DIM in *. lia.
Qed.

Lemma col_idx_inv row col c :
  coord row → coord col → coord c → row * DIM + col ∈ col_idx c → c = col.
Proof.
  intros Hr Hc Hc'. unfold col_idx. rewrite list_elem_of_fmap.
  intros (i & Heq & Hi). unfold range in Hi. apply elem_of_seqZ in Hi.
  unfold coord, DIM in *. lia.
Qed.

Lemma box_idx_quot row col r c :
  r ÷ DIMBOX = row ÷ DIMBOX → c ÷ DIMBOX = col ÷ DIMBOX →
  box_idx r c = box_idx row col.
Proof. intros Hr Hc. unfold box_idx. by rewrite Hr, Hc. Qed.

Lemma box_idx_inv row col r c :
  coord row → coord col → coord r → coord c →
  row * DIM + col ∈ box_idx r c → box_idx r c = box_idx row col.
Proof.
  intros Hr Hc Hr' Hc' Hin. unfold box_idx in Hin.
  apply list_elem_of_bind in Hin as (i & Hin & Hi).
  apply list_elem_of_bind in Hin as (j & Hin & Hj).
  apply list_elem_of_singleton in Hin.
  unfold range in Hi, Hj. apply elem_of_seqZ in Hi, Hj.
  unfold coord, DIM, DIMBOX in *.
  rewrite Z.quot_div_nonneg in Hi, Hj by lia.
  assert (row = i ∧ col = j) as [-> ->] by (Z.div_mod_to_equations; lia).
  apply box_idx_quot; unfold DIMBOX; rewrite !Z.quot_div_nonneg by lia;
    Z.div_mod_to_equations; lia.
Qed.

(** ** Writing one cell, seen from a unit *)

Lemma vals_set_notin su k v idx :
  0 ≤ k → Forall (λ j, 0 ≤ j < 81) idx → k ∉ idx →
  vals (set_solution su k v) idx = vals su idx.
Proof.
  intros Hk Hidx Hnotin. unfold vals. apply list_fmap_ext.
  intros i j Hj. simpl. apply rd_wr_ne; [done | |].
  - apply list_elem_of_lookup_2 in Hj.
    rewrite Forall_forall in Hidx. apply Hidx in Hj. lia.
  - intros ->. apply Hnotin. by apply list_elem_of_lookup_2 in Hj.
Qed.

Lemma vals_set_in su k v idx :
  0 ≤ k → (Z.to_nat k < length (solution su))%nat →
  Forall (λ j, 0 ≤ j < 81) idx → NoDup idx → k ∈ idx →
  ∃ p, vals (set_solution su k v) idx = <[p := v]> (vals su idx).
Proof.
  intros Hk Hlt. induction idx as [|j idx IH]; intros Hidx Hnd Hin.
  - by apply elem_of_nil in Hin.
  - apply Forall_cons in Hidx as [Hj Hidx]. apply NoDup_cons in Hnd as [Hj' Hnd].
    destruct (decide (k = j)) as [-> | Hne].
    + exists 0%nat. unfold vals at 1. rewrite fmap_cons. simpl.
      rewrite rd_wr_eq by done. f_equal.
      by apply (vals_set_notin su j v idx).
    + apply elem_of_cons in Hin as [? | Hin]; [done |].
      destruct (IH Hidx Hnd Hin) as [p Hp]. exists (S p).
      unfold vals at 1. rewrite fmap_cons. simpl.
      rewrite rd_wr_ne by lia. f_equal. apply Hp.
Qed.

Lemma distinct_cons x l :
  distinct (x :: l) ↔ (x ≠ EMPTY → x ∉ l) ∧ distinct l.
Proof.
  unfold distinct. rewrite filter_cons. case_decide as Hx.
  - rewrite NoDup_cons, list_elem_of_filter. tauto.
  - tauto.
Qed.

Lemma elem_of_insert_inv (l : list Z) p v x :
  x ∈ <[p := v]> l → x = v ∨ x ∈ l.
Proof.
  revert p. induction l as [|y l IH]; intros [|p]; simpl; auto.
  - rewrite !elem_of_cons. tauto.
  - rewrite !elem_of_cons. intros [? | Hx]; [tauto |].
    destruct (IH _ Hx); tauto.
Qed.

Lemma distinct_insert l p v :
  distinct l → (v = EMPTY ∨ v ∉ l) → distinct (<[p := v]> l).
Proof.
  revert p. induction l as [|x l IH]; intros [|p] Hd Hv; simpl; try done.
  - apply distinct_cons in Hd as [Hx Hd]. apply distinct_cons. split; [| done].
    intros Hv'. destruct Hv as [? | Hv]; [done |].
    intros Hin. apply Hv. apply elem_of_cons. by right.
  - apply distinct_cons in Hd as [Hx Hd]. apply distinct_cons. split.
    + intros Hx' Hin. apply elem_of_insert_inv in Hin as [-> | Hin].
      * destruct Hv as [? | Hv]; [done |]. apply Hv, elem_of_cons. by left.
      * by apply Hx.
    + apply IH; [done |]. destruct Hv as [? | Hv]; [by left | right].
      intros Hin. apply Hv, elem_of_cons. by right.
Qed.

(** ** Board invariants *)

Lemma distinct_set su k v idx :
  wf su → 0 ≤ k < 81 → unit_idx idx →
  (k ∈ idx → v = EMPTY ∨ v ∉ vals su idx) →
  distinct (vals su idx) → distinct (vals (set_solution su k v) idx).
Proof.
  intros [_ Hlen] Hk (Hidx & Hnd & _) Hv Hd.
  destruct (decide (k ∈ idx)) as [Hin | Hnotin].
  - destruct (vals_set_in su k v idx) as [p ->]; [lia | lia | done ..|].
    apply distinct_insert; auto.
  - rewrite vals_set_notin; [done | lia | done ..].
Qed.

Lemma consistent_set su row col v :
  wf su → coord row → coord col →
  (v = EMPTY ∨ ¬ occurs su row col v) →
  consistent su → consistent (set_solution su (row * DIM + col) v).
Proof.
  intros Hwf Hr Hc Hv Hcons r c Hr' Hc'.
  destruct (Hcons r c Hr' Hc') as (Hrow & Hcol & Hbox).
  pose proof (index_bounds row col Hr Hc) as Hk.
  unfold row_of, col_of, box_of in *. split; [| split].
  - apply distinct_set; [done | done | by apply unit_row | | done].
    intros Hin. apply row_idx_inv in Hin as ->; [| done ..].
    destruct Hv as [? | Hv]; [by left | right].
    intros ?. apply Hv. by left.
  - apply distinct_set; [done | done | by apply unit_col | | done].
    intros Hin. apply col_idx_inv in Hin as ->; [| done ..].
    destruct Hv as [? | Hv]; [by left | right].
    intros ?. apply Hv. right. by left.
  - apply distinct_set; [done | done | by apply unit_box | | done].
    intros Hin. apply box_idx_inv in Hin as ->; [| done ..].
    destruct Hv as [? | Hv]; [by left | right].
    intros ?. apply Hv. right. by right.
Qed.

Lemma digits_set su k v : 0 ≤ v ≤ 9 → digits su → digits (set_solution su k v).
Proof.
  intros Hv Hd. unfold digits, set_solution, wr; simpl.
  destruct (decide (Z.to_nat k < length (solution su))%nat) as [Hlt | Hge].
  - by apply Forall_insert.
  - rewrite list_insert_ge by lia. done.
Qed.

Lemma clues_kept_set su k v :
  0 ≤ k → rd (puzzle su) k = EMPTY → clues_kept su →
  clues_kept (set_solution su k v).
Proof.
  intros Hk Hp Hinv j Hj Hclue. simpl in *.
  destruct (decide (j = k)) as [-> | Hne]; [done |].
  rewrite rd_wr_ne by lia. by apply Hinv.
Qed.

(** ** [cell_choices] *)

Lemma cell_choices_loop_spec su row col idxs (n : nat) choices :
  coord row → coord col → (n + length idxs ≤ length choices)%nat →
  cell_choices_loop su row col idxs (Z.of_nat n) choices =
  let keep := filter (λ d, ¬ occurs su row col d) idxs in
  Ok (Z.of_nat (n + length keep),
      take n choices ++ keep ++ drop (n + length keep) choices).
Proof.
  intros Hr Hc. revert n choices.
  induction idxs as [|i idxs IH]; intros n choices Hlen; cbn [cell_choices_loop].
  - cbn. rewrite Nat.add_0_r, take_drop. done.
  - rewrite violates_spec by done. res_simpl. simpl in Hlen.
    destruct (bool_decide_reflect (occurs su row col i)) as [Hocc | Hocc].
    + rewrite IH by lia. rewrite filter_cons_False by tauto. done.
    + replace (Z.of_nat n + 1) with (Z.of_nat (S n)) by lia.
      rewrite IH by (rewrite length_wr; lia).
      rewrite filter_cons_True by done. cbn zeta. cbn [length].
      unfold wr. rewrite Nat2Z.id.
      rewrite (take_S_r _ n i) by (apply list_lookup_insert_eq; lia).
      rewrite take_insert_ge by lia.
      rewrite drop_insert_lt by lia.
      rewrite <- app_assoc. cbn [app].
      by replace (S n + length (filter (λ d, ¬ occurs su row col d) idxs))%nat
        with (n + S (length (filter (λ d, ¬ occurs su row col d) idxs)))%nat by lia.
Qed.

Lemma length_candidates su row col : (length (candidates su row col) ≤ 9)%nat.
Proof.
  unfold candidates. case_decide; [| simpl; lia].
  etrans; [apply length_filter | done].
Qed.

Lemma cell_choices_eq su row col choices :
  coord row → coord col → (9 ≤ length choices)%nat →
  cell_choices su row col choices =
  Ok (Z.of_nat (length (candidates su row col)),
      candidates su row col ++ drop (length (candidates su row col)) choices).
Proof.
  intros Hr Hc Hlen. unfold cell_choices, candidates.
  rewrite !assert_coord' by done. res_simpl.
  destruct (Z.eqb_spec (rd (puzzle su) (row * DIM + col)) EMPTY) as [He | He];
    cbn [negb].
  - rewrite decide_True by done.
    rewrite (cell_choices_loop_spec su row col _ 0) by (try done; simpl; lia).
    done.
  - by rewrite decide_False.
Qed.

Lemma elem_of_candidates su row col d :
  d ∈ candidates su row col ↔
  rd (puzzle su) (row * DIM + col) = EMPTY ∧ 1 ≤ d ≤ 9 ∧ ¬ occurs su row col d.
Proof.
  unfold candidates. case_decide as He.
  - rewrite list_elem_of_filter. unfold range. rewrite elem_of_seqZ.
    split; [intros (? & ?); repeat split; [done | lia ..| done]
           | intros (_ & ? & ?); split; [done | lia]].
  - split; [by intros ?%elem_of_nil | tauto].
Qed.

Lemma StronglySorted_filter {A} (R : relation A) (P : A → Prop)
    `{∀ x, Decision (P x)} (l : list A) :
  StronglySorted R l → StronglySorted R (filter P l).
Proof.
  induction 1 as [|x l Hs IH Hx]; [constructor |].
  rewrite filter_cons. case_decide; [| done].
  constructor; [done |].
  rewrite Forall_forall in Hx |- *. intros y [_ Hy]%list_elem_of_filter. auto.
Qed.

Lemma candidates_sorted su row col : StronglySorted Z.lt (candidates su row col).
Proof.
  unfold candidates. case_decide; [| constructor].
  apply StronglySorted_filter. compute_done.
Qed.

(** ** [least_possible_solutions] *)

Lemma coords_cells : coords cells.
Proof.
  unfold coords. apply Forall_forall. intros [i j] Hin. revert i j Hin.
  assert (Forall (λ p, coord p.1 ∧ coord p.2) cells) as H by compute_done.
  rewrite Forall_forall in H. intros i j Hin. apply (H _ Hin).
Qed.

Lemma elem_of_cells i j : (i, j) ∈ cells ↔ coord i ∧ coord j.
Proof.
  split.
  - intros Hin. pose proof coords_cells as H. unfold coords in H.
    rewrite Forall_forall in H. apply (H _ Hin).
  - intros [Hi Hj]. coord_cases Hi; coord_cases Hj; compute_done.
Qed.

Lemma ncand_bounds su i j : 0 ≤ ncand su i j ≤ 9.
Proof. unfold ncand. pose proof (length_candidates su i j). lia. Qed.

Lemma cell_choices_length su row col choices n choices' :
  coord row → coord col → (9 ≤ length choices)%nat →
  cell_choices su row col choices = Ok (n, choices') →
  n = ncand su row col ∧ length choices' = length choices
  ∧ take (Z.to_nat n) choices' = candidates su row col.
Proof.
  intros Hr Hc Hlen. rewrite cell_choices_eq by done. intros [= <- <-].
  pose proof (length_candidates su row col).
  split; [done | split].
  - rewrite length_app, length_drop. lia.
  - rewrite Nat2Z.id. by rewrite take_app_length.
Qed.

Lemma least_pass_spec su cs least choices :
  coords cs → (9 ≤ length choices)%nat →
  ∃ m choices',
    least_pass su cs least choices = Ok (m, choices')
    ∧ length choices' = length choices
    ∧ m ≤ least
    ∧ (∀ i j, (i, j) ∈ cs → blank su i j → 0 < ncand su i j → m ≤ ncand su i j)
    ∧ (m = least ∨ (0 < m ∧ ∃ i j, (i, j) ∈ cs ∧ blank su i j ∧ ncand su i j = m)).
Proof.
  intros Hcs. revert least choices.
  induction Hcs as [|[i j] cs [Hi Hj] Hcs IH]; intros least choices Hlen.
  - exists least, choices. cbn [least_pass].
    repeat split; [lia | | by left]. by intros i j ?%elem_of_nil.
  - cbn [least_pass]. unfold blank in *.
    destruct (Z.eqb_spec (rd (solution su) (i * DIM + j)) EMPTY) as [He | He].
    + destruct (cell_choices su i j choices) as [[n choices1] | |] eqn:Hcc;
        [| by rewrite cell_choices_eq in Hcc ..].
      apply cell_choices_length in Hcc as (-> & Hlen1 & _); [| done ..].
      res_simpl.
      destruct (Z.ltb_spec 0 (ncand su i j)) as [Hpos | Hpos];
        [destruct (Z.ltb_spec (ncand su i j) least) as [Hlt | Hlt] |]; cbn [andb].
      * destruct (IH (ncand su i j) choices1) as (m & ch & -> & Hl & Hle & Hall & Hex);
          [lia |].
        exists m, ch. repeat split; [lia | lia | |].
        -- intros i' j' [[= -> ->] | Hin]%elem_of_cons; auto.
        -- right. destruct Hex as [-> | (Hm & i' & j' & Hin & Hb & Hn)].
           ++ split; [done |]. exists i, j. split; [apply elem_of_cons; by left | done].
           ++ split; [done |]. exists i', j'. split; [apply elem_of_cons; by right | done].
      * destruct (IH least choices1) as (m & ch & -> & Hl & Hle & Hall & Hex); [lia |].
        exists m, ch. repeat split; [lia | done | |].
        -- intros i' j' [[= -> ->] | Hin]%elem_of_cons; [intros; lia | auto].
        -- destruct Hex as [-> | (Hm & i' & j' & Hin & Hb & Hn)]; [by left | right].
           split; [done |]. exists i', j'. split; [apply elem_of_cons; by right | done].
      * destruct (IH least choices1) as (m & ch & -> & Hl & Hle & Hall & Hex); [lia |].
        exists m, ch. repeat split; [lia | done | |].
        -- intros i' j' [[= -> ->] | Hin]%elem_of_cons; [intros; lia | auto].
        -- destruct Hex as [-> | (Hm & i' & j' & Hin & Hb & Hn)]; [by left | right].
           split; [done |]. exists i', j'. split; [apply elem_of_cons; by right | done].
    + destruct (IH least choices) as (m & ch & -> & Hl & Hle & Hall & Hex); [lia |].
      exists m, ch. repeat split; [done | done | |].
      * intros i' j' [[= -> ->] | Hin]%elem_of_cons; [done | auto].
      * destruct Hex as [-> | (Hm & i' & j' & Hin & Hb & Hn)]; [by left | right].
        split; [done |]. exists i', j'. split; [apply elem_of_cons; by right | done].
Qed.

Lemma find_pass_spec su cs m row col choices :
  coords cs → (9 ≤ length choices)%nat →
  (∃ choices',
      find_pass su cs m row col choices = Ok (0, row, col, choices')
      ∧ ∀ i j, (i, j) ∈ cs → blank su i j → ncand su i j ≠ m)
  ∨ (∃ pre i j post choices',
      find_pass su cs m row col choices = Ok (m, i, j, choices')
      ∧ cs = pre ++ (i, j) :: post
      ∧ blank su i j ∧ ncand su i j = m
      ∧ (∀ i' j', (i', j') ∈ pre → blank su i' j' → ncand su i' j' ≠ m)
      ∧ take (Z.to_nat m) choices' = candidates su i j).
Proof.
  intros Hcs. revert choices.
  induction Hcs as [|[i j] cs [Hi Hj] Hcs IH]; intros choices Hlen.
  - left. exists choices. split; [done |]. by intros i j ?%elem_of_nil.
  - cbn [find_pass]. unfold blank in *.
    destruct (Z.eqb_spec (rd (solution su) (i * DIM + j)) EMPTY) as [He | He].
    + destruct (cell_choices su i j choices) as [[n choices1] | |] eqn:Hcc;
        [| by rewrite cell_choices_eq in Hcc ..].
      apply cell_choices_length in Hcc as (-> & Hlen1 & Htake); [| done ..].
      res_simpl.
      destruct (Z.eqb_spec (ncand su i j) m) as [Hm | Hm].
      * right. exists [], i, j, cs, choices1. subst m.
        repeat split; try done. by intros i' j' ?%elem_of_nil.
      * destruct (IH choices1) as
          [(ch & -> & Hnone) | (pre & i' & j' & post & ch & -> & -> & Hb & Hn & Hpre & Ht)];
          [lia | |].
        -- left. exists ch. split; [done |].
           intros i' j' [[= -> ->] | Hin]%elem_of_cons; auto.
        -- right. exists ((i, j) :: pre), i', j', post, ch.
           repeat split; try done.
           intros i'' j'' [[= -> ->] | Hin]%elem_of_cons; auto.
    + destruct (IH choices) as
        [(ch & -> & Hnone) | (pre & i' & j' & post & ch & -> & -> & Hb & Hn & Hpre & Ht)];
        [lia | |].
      * left. exists ch. split; [done |].
        intros i' j' [[= -> ->] | Hin]%elem_of_cons; [done | auto].
      * right. exists ((i, j) :: pre), i', j', post, ch.
        repeat split; try done.
        intros i'' j'' [[= -> ->] | Hin]%elem_of_cons; [done | auto].
Qed.

(** [cells] lists the cells by increasing flat index. *)
Lemma cells_index : (λ '(i, j), i * DIM + j) <$> cells = seqZ 0 81.
Proof. reflexivity. Qed.

Lemma cells_before pre i j post i' j' :
  cells = pre ++ (i, j) :: post →
  coord i' → coord j' → i' * DIM + j' < i * DIM + j → (i', j') ∈ pre.
Proof.
  intros Hsplit Hi' Hj' Hlt.
  assert ((i', j') ∈ cells) as Hin by by apply elem_of_cells.
  pose proof cells_index as Hidx. rewrite Hsplit in Hidx, Hin.
  rewrite fmap_app, fmap_cons in Hidx.
  assert (∀ q p, (pre ++ (i, j) :: post) !! q = Some p →
                 (let '(a, b) := p in a * DIM + b) = Z.of_nat q) as Hpos.
  { intros q p Hq.
    apply (f_equal (fmap (M := option) (λ '(a, b), a * DIM + b))) in Hq.
    rewrite <- list_lookup_fmap, fmap_app, fmap_cons, Hidx in Hq.
    simpl in Hq. apply lookup_seqZ in Hq. lia. }
  apply elem_of_app in Hin as [Hin | Hin]; [done |]. exfalso.
  pose proof (Hpos (length pre) (i, j)) as Hij. simpl in Hij.
  rewrite Hij in Hlt by (by rewrite list_lookup_middle).
  apply elem_of_cons in Hin as [[= -> ->] | Hin].
  - rewrite Hij in Hlt by (by rewrite list_lookup_middle). lia.
  - apply list_elem_of_lookup in Hin as [q Hq].
    pose proof (Hpos (length pre + S q)%nat (i', j')) as Hq'. simpl in Hq'.
    rewrite Hq' in Hlt; [lia |].
    rewrite lookup_app_r by lia.
    replace (length pre + S q - length pre)%nat with (S q) by lia. done.
Qed.

Lemma least_possible_solutions_spec su row col choices :
  (9 ≤ length choices)%nat →
  ∃ n r c choices',
    least_possible_solutions su row col choices = Ok (n, r, c, choices')
    ∧ ((n = 0 ∧ r = row ∧ c = col
        ∧ ∀ i j, coord i → coord j → blank su i j → ncand su i j = 0)
       ∨ (0 < n ∧ coord r ∧ coord c ∧ blank su r c ∧ ncand su r c = n
          ∧ take (Z.to_nat n) choices' = candidates su r c
          ∧ (∀ i j, coord i → coord j → blank su i j → 0 < ncand su i j →
               n ≤ ncand su i j)
          ∧ (∀ i j, coord i → coord j → i * DIM + j < r * DIM + c →
               blank su i j → ncand su i j ≠ n))).
Proof.
  intros Hlen. unfold least_possible_solutions.
  destruct (least_pass_spec su cells (DIM + 1) choices coords_cells Hlen)
    as (m & ch1 & -> & Hlen1 & Hle & Hmin & Hex).
  res_simpl.
  destruct (find_pass_spec su cells m row col ch1 coords_cells ltac:(lia))
    as [(ch2 & -> & Hnone)
       | (pre & i & j & post & ch2 & -> & Hsplit & Hb & Hn & Hpre & Htake)].
  - exists 0, row, col, ch2. split; [done | left].
    repeat split. intros i j Hi Hj Hb.
    assert ((i, j) ∈ cells) as Hin by by apply elem_of_cells.
    pose proof (ncand_bounds su i j).
    destruct Hex as [-> | (Hm & i' & j' & Hin' & Hb' & Hn')].
    + destruct (decide (0 < ncand su i j)) as [Hpos | Hpos]; [| lia].
      specialize (Hmin i j Hin Hb Hpos). unfold DIM in Hmin. lia.
    + by destruct (Hnone i' j' Hin' Hb').
  - exists m, i, j, ch2. split; [done | right].
    assert ((i, j) ∈ cells) as Hin.
    { rewrite Hsplit. apply elem_of_app. right. apply elem_of_cons. by left. }
    apply elem_of_cells in Hin as [Hi Hj].
    assert (0 < m) as Hpos.
    { destruct Hex as [-> | [? _]]; [| done].
      pose proof (ncand_bounds su i j). unfold DIM in Hn. lia. }
    repeat split; try done; try apply Hi; try apply Hj.
    + intros i' j' Hi' Hj' Hb' Hpos'. apply Hmin; [by apply elem_of_cells | done ..].
    + intros i' j' Hi' Hj' Hlt Hb'. apply Hpre; [| done].
      by apply (cells_before pre i j post).
Qed.

(** ** The search *)

Lemma empties_set su k v :
  0 ≤ k → (Z.to_nat k < length (solution su))%nat →
  rd (solution su) k = EMPTY → v ≠ EMPTY →
  S (empties (set_solution su k v)) = empties su.
Proof.
  intros _ Hlt. unfold empties, set_solution, rd, wr; simpl.
  generalize (Z.to_nat k) Hlt. generalize (solution su). clear.
  induction l as [|x l IH]; intros [|n] Hlt Hx Hv; simpl in *; try lia.
  - subst x. rewrite (filter_cons_False _ v) by done.
    rewrite (filter_cons_True _ EMPTY) by done. done.
  - rewrite !filter_cons. case_decide; simpl; rewrite <- (IH n); auto; lia.
Qed.

(** A digit seen from a cell is still seen after another, empty, cell has
    been written. *)
Lemma elem_of_vals_set su k v idx num :
  0 ≤ k → Forall (λ j, 0 ≤ j < 81) idx →
  rd (solution su) k = EMPTY → num ≠ EMPTY →
  num ∈ vals su idx → num ∈ vals (set_solution su k v) idx.
Proof.
  intros Hk Hidx Hblank Hnum. unfold vals. rewrite !list_elem_of_fmap.
  intros (j & -> & Hj). exists j. split; [| done]. simpl.
  rewrite Forall_forall in Hidx. apply Hidx in Hj.
  rewrite rd_wr_ne; [done | lia | lia |]. intros ->. by rewrite Hblank in Hnum.
Qed.

Lemma occurs_set su k v row col num :
  0 ≤ k → coord row → coord col →
  rd (solution su) k = EMPTY → num ≠ EMPTY →
  occurs su row col num → occurs (set_solution su k v) row col num.
Proof.
  intros Hk Hr Hc Hblank Hnum. unfold occurs, row_of, col_of, box_of.
  intros [H | [H | H]]; [left | right; left | right; right];
    (apply elem_of_vals_set; [done | | done ..]).
  - by apply unit_row.
  - by apply unit_col.
  - by apply unit_box.
Qed.

Section solve_loop.
Context (solve : sudoku → result (bool * sudoku)).
Context (su0 : sudoku) (row col : Z) (choices : list Z).
Context (Hwf : wf su0) (Hrow : coord row) (Hcol : coord col).
Context (Hblank : blank su0 row col).
Context (Hclue : rd (puzzle su0) (row * DIM + col) = EMPTY).
Context (Hsolve : ∀ s, wf s → (empties s < empties su0)%nat →
           ∃ b s', solve s = Ok (b, s')
                   ∧ (b = false → s' = s)
                   ∧ (b = true → fills s s' ∧ puzzle_solved s' = true)).

Lemma solve_loop_spec idxs v :
  Forall (λ i, 1 ≤ rd choices i ≤ 9) idxs →
  ∃ b s',
    solve_loop solve row col choices idxs
               (set_solution su0 (row * DIM + col) v) = Ok (b, s')
    ∧ (b = false → s' = su0)
    ∧ (b = true → fills su0 s' ∧ puzzle_solved s' = true).
Proof.
  pose proof (index_bounds row col Hrow Hcol) as Hk.
  pose proof (index_lt su0 row col Hwf Hrow Hcol) as Hlt.
  intros Hidxs. revert v.
  induction Hidxs as [|i idxs Hi Hidxs IH]; intros v; cbn [solve_loop].
  - rewrite cell_erase_eq by done. simpl puzzle.
    rewrite decide_True by done. res_simpl.
    exists false, su0. split; [| done].
    rewrite set_solution_set. by rewrite set_solution_blank.
  - cbn zeta. rewrite cell_fill_eq by done. simpl puzzle. res_simpl.
    case_decide as Hfill; cbn [negb].
    + destruct Hfill as [_ Hocc]. rewrite set_solution_set.
      assert (cell_fill su0 row col (rd choices i)
              = Ok (true, set_solution su0 (row * DIM + col) (rd choices i)))
        as Hfill0.
      { rewrite cell_fill_eq by done. rewrite decide_True; [done |].
        split; [done |]. intros Hocc0. apply Hocc.
        apply occurs_set; [lia | done | done | done | unfold EMPTY; lia | done]. }
      destruct (Hsolve (set_solution su0 (row * DIM + col) (rd choices i)))
        as (b & s' & -> & Hfalse & Htrue).
      { by apply wf_set_solution. }
      { rewrite <- (empties_set su0 (row * DIM + col) (rd choices i));
          [lia | lia | done | done | unfold EMPTY; lia]. }
      res_simpl. destruct b.
      * exists true, s'. split; [done |]. split; [done |]. intros _.
        destruct (Htrue eq_refl) as [Hf Hs]. split; [| done].
        exact (fills_step _ _ _ _ _ _ Hrow Hcol Hi Hblank Hfill0 Hf).
      * rewrite (Hfalse eq_refl). apply IH.
    + apply IH.
Qed.
End solve_loop.

Lemma candidates_clue su row col :
  0 < ncand su row col → rd (puzzle su) (row * DIM + col) = EMPTY.
Proof.
  unfold ncand, candidates. case_decide; [done | simpl; lia].
Qed.

Lemma rd_take_elem choices n i :
  0 ≤ i < n → (Z.to_nat n ≤ length choices)%nat →
  rd choices i ∈ take (Z.to_nat n) choices.
Proof.
  intros Hi Hn. unfold rd. apply list_elem_of_lookup. exists (Z.to_nat i).
  rewrite lookup_take_lt by lia. apply list_lookup_lookup_total_lt. lia.
Qed.

(** The digits read by the loop of [sudoku_solve] were written by the last
    [cell_choices] call of [least_possible_solutions]. *)
Lemma choices_read su row col choices n :
  take (Z.to_nat n) choices = candidates su row col →
  ncand su row col = n →
  Forall (λ i, rd choices i ∈ candidates su row col) (range 0 n).
Proof.
  intros Htake Hn. apply Forall_forall. intros i Hi.
  unfold range in Hi. apply elem_of_seqZ in Hi.
  rewrite <- Htake. apply rd_take_elem; [lia |].
  apply (f_equal length) in Htake. rewrite length_take in Htake.
  unfold ncand in Hn. lia.
Qed.

(** With fuel above the number of empty cells, [sudoku_solve] returns; on
    [false] the board is the one it was called on, on [true] the board is full
    and was reached by successful fills. *)
Lemma sudoku_solve_total garbage fuel su :
  (9 ≤ length garbage)%nat → wf su → (empties su < fuel)%nat →
  ∃ b su',
    sudoku_solve garbage fuel su = Ok (b, su')
    ∧ (b = false → su' = su)
    ∧ (b = true → fills su su' ∧ puzzle_solved su' = true).
Proof.
  intros Hg. revert su. induction fuel as [|fuel IH]; intros su Hwf Hfuel; [lia |].
  cbn [sudoku_solve].
  destruct (puzzle_solved su) eqn:Hsolved.
  { exists true, su. split; [done |]. split; [done |]. intros _.
    split; [constructor | done]. }
  cbn zeta.
  destruct (least_possible_solutions_spec su 0 0 garbage Hg)
    as (n & r & c & ch & -> & [(-> & _) | (Hn & Hr & Hc & Hb & Hnc & Htake & _)]).
  { res_simpl. by exists false, su. }
  res_simpl. destruct (Z.eqb_spec n 0) as [-> | _]; [lia |].
  destruct (solve_loop_spec (sudoku_solve garbage fuel) su r c ch Hwf Hr Hc Hb)
    with (idxs := range 0 n) (v := EMPTY) as (b & s' & Hrun & H).
  - apply candidates_clue. lia.
  - intros s Hs Hlt. apply IH; [done | lia].
  - eapply Forall_impl; [by apply (choices_read su r c) |].
    intros i Hi. simpl in Hi. apply elem_of_candidates in Hi. tauto.
  - rewrite set_solution_blank in Hrun by (by apply index_lt || done).
    by exists b, s'.
Qed.

(** More fuel does not change a result. *)
Lemma solve_loop_mono solve1 solve2 row col choices idxs su r :
  (∀ s r, solve1 s = Ok r → solve2 s = Ok r) →
  solve_loop solve1 row col choices idxs su = Ok r →
  solve_loop solve2 row col choices idxs su = Ok r.
Proof.
  intros Hmono. revert su. induction idxs as [|i idxs IH]; intros su;
    cbn [solve_loop]; [done |].
  cbn zeta. destruct (cell_fill su row col (rd choices i)) as [[filled su1] | |];
    res_simpl; [| done ..].
  destruct filled; cbn [negb]; [| apply IH].
  destruct (solve1 su1) as [[solved su2] | |] eqn:H1; res_simpl; [| done ..].
  rewrite (Hmono _ _ H1). res_simpl. destruct solved; [done | apply IH].
Qed.

Lemma sudoku_solve_mono garbage fuel fuel' su r :
  (fuel ≤ fuel')%nat →
  sudoku_solve garbage fuel su = Ok r → sudoku_solve garbage fuel' su = Ok r.
Proof.
  revert fuel' su r. induction fuel as [|fuel IH]; intros fuel' su r Hle; [done |].
  destruct fuel' as [|fuel']; [lia |]. cbn [sudoku_solve].
  destruct (puzzle_solved su); [done |]. cbn zeta.
  destruct (least_possible_solutions su 0 0 garbage) as [[[[n row] col] ch] | |];
    res_simpl; [| done ..].
  destruct (n =? 0); [done |].
  apply solve_loop_mono. intros s r'. apply IH. lia.
Qed.

(** Whatever the fuel, a result satisfies the same. *)
Lemma sudoku_solve_result garbage fuel su b su' :
  (9 ≤ length garbage)%nat → wf su →
  sudoku_solve garbage fuel su = Ok (b, su') →
  (b = false → su' = su)
  ∧ (b = true → fills su su' ∧ puzzle_solved su' = true).
Proof.
  intros Hg Hwf Hrun.
  destruct (sudoku_solve_total garbage (fuel `max` S (empties su)) su)
    as (b' & s' & Hrun' & H); [done | done | lia |].
  apply (sudoku_solve_mono _ _ (fuel `max` S (empties su))) in Hrun; [| lia].
  rewrite Hrun in Hrun'. by injection Hrun' as <- <-.
Qed.

(** ** What a successful fill preserves *)

Lemma cell_fill_true su row col num su1 :
  coord row → coord col → 1 ≤ num ≤ 9 →
  cell_fill su row col num = Ok (true, su1) →
  su1 = set_solution su (row * DIM + col) num
  ∧ rd (puzzle su) (row * DIM + col) = EMPTY
  ∧ ¬ occurs su row col num.
Proof.
  intros Hr Hc Hn. rewrite cell_fill_eq by done.
  case_decide as H; [| done]. intros [= <-]. tauto.
Qed.

Lemma fills_ind_set (P : sudoku → Prop) :
  (∀ su row col num,
      coord row → coord col → 1 ≤ num ≤ 9 → blank su row col →
      rd (puzzle su) (row * DIM + col) = EMPTY → ¬ occurs su row col num →
      P su → P (set_solution su (row * DIM + col) num)) →
  ∀ su su', fills su su' → P su → P su'.
Proof.
  intros Hstep su su' Hfills.
  induction Hfills as [su | su row col num su1 su' Hr Hc Hn Hb Hfill _ IH]; [done |].
  intros HP. apply IH.
  apply cell_fill_true in Hfill as (-> & Hclue & Hocc); [| done ..].
  by apply Hstep.
Qed.

Lemma fills_wf su su' : fills su su' → wf su → wf su'.
Proof. apply fills_ind_set. intros. by apply wf_set_solution. Qed.

Lemma fills_puzzle su su' : fills su su' → puzzle su' = puzzle su.
Proof.
  intros H. by apply (fills_ind_set (λ s, puzzle s = puzzle su)) in H.
Qed.

Lemma fills_consistent su su' :
  fills su su' → wf su → consistent su → wf su' ∧ consistent su'.
Proof.
  intros H Hwf Hc.
  apply (fills_ind_set (λ s, wf s ∧ consistent s)) in H; [done | | done].
  intros s row col num Hr Hc' Hn Hb Hclue Hocc [Hwf' Hcons]. split.
  - by apply wf_set_solution.
  - apply consistent_set; auto.
Qed.

Lemma fills_digits su su' : fills su su' → digits su → digits su'.
Proof. apply fills_ind_set. intros. apply digits_set; [lia | done]. Qed.

Lemma fills_clues_kept su su' : fills su su' → clues_kept su → clues_kept su'.
Proof.
  apply fills_ind_set. intros s row col num Hr Hc **.
  apply clues_kept_set; [| done ..]. pose proof (index_bounds row col Hr Hc). lia.
Qed.

(** ** Full boards *)

Lemma for_first_None {I A : Type} (l : list I) (body : I → option A) :
  for_first l body = None ↔ Forall (λ i, body i = None) l.
Proof.
  induction l as [|i l IH]; cbn [for_first].
  - split; [constructor | done].
  - rewrite Forall_cons. destruct (body i); [| tauto].
    split; [done | by intros [? _]].
Qed.

Lemma for_first_Some {I A : Type} (l : list I) (body : I → option A) a :
  for_first l body = Some a → ∃ i, i ∈ l ∧ body i = Some a.
Proof.
  induction l as [|i l IH]; cbn [for_first]; [done |].
  destruct (body i) as [a' |] eqn:Hi.
  - intros [= ->]. exists i. split; [apply elem_of_cons; by left | done].
  - intros (i' & Hin & Hi')%IH. exists i'. split; [apply elem_of_cons; by right | done].
Qed.

Lemma filter_all {A} (P : A → Prop) `{∀ x, Decision (P x)} (l : list A) :
  Forall P l → filter P l = l.
Proof.
  induction 1 as [|x l Hx _ IH]; [done |].
  by rewrite filter_cons_True, IH.
Qed.

Lemma puzzle_solved_true su :
  puzzle_solved su = true ↔ ∀ i j, coord i → coord j → ¬ blank su i j.
Proof.
  unfold puzzle_solved, blank.
  set (body := λ '(i, j), _).
  assert (default true (for_first cells body) = true
          ↔ for_first cells body = None) as ->.
  { destruct (for_first cells body) as [b |] eqn:Hf; [| done].
    apply for_first_Some in Hf as ([i j] & _ & Hf). unfold body in Hf.
    cbn zeta in Hf. by destruct (_ =? _); simplify_eq. }
  rewrite for_first_None, Forall_forall. split.
  - intros H i j Hi Hj. assert ((i, j) ∈ cells) as Hin by by apply elem_of_cells.
    apply H in Hin. unfold body in Hin. cbn zeta in Hin.
    by destruct (Z.eqb_spec (rd (solution su) (i * DIM + j)) EMPTY).
  - intros H [i j] [Hi Hj]%elem_of_cells. unfold body. cbn zeta.
    destruct (Z.eqb_spec (rd (solution su) (i * DIM + j)) EMPTY) as [He | He];
      [| done]. by destruct (H i j Hi Hj).
Qed.

Lemma index_coords k :
  0 ≤ k < 81 → ∃ i j, coord i ∧ coord j ∧ k = i * DIM + j.
Proof.
  intros Hk. exists (k / 9), (k `mod` 9). unfold coord, DIM.
  Z.div_mod_to_equations. lia.
Qed.

Lemma digits_rd su k : digits su → wf su → 0 ≤ k < 81 → 0 ≤ rd (solution su) k ≤ 9.
Proof.
  intros Hd [_ Hlen] Hk. unfold digits in Hd. rewrite Forall_forall in Hd.
  apply Hd. unfold rd. apply list_elem_of_lookup_total_2. lia.
Qed.

(** On a full, consistent board of digits each unit holds each digit once. *)
Lemma unit_perm su idx :
  wf su → digits su → puzzle_solved su = true → unit_idx idx →
  distinct (vals su idx) → vals su idx ≡ₚ seqZ 1 9.
Proof.
  intros Hwf Hd Hfull (Hidx & Hnd & Hlen) Hdist.
  rewrite puzzle_solved_true in Hfull. rewrite Forall_forall in Hidx.
  assert (∀ v, v ∈ vals su idx → 1 ≤ v ≤ 9) as Hv.
  { intros v (k & -> & Hk)%list_elem_of_fmap. apply Hidx in Hk.
    pose proof (digits_rd su k Hd Hwf Hk).
    destruct (index_coords k Hk) as (i & j & Hi & Hj & ->).
    specialize (Hfull i j Hi Hj). unfold blank, EMPTY in Hfull. lia. }
  unfold distinct in Hdist.
  rewrite filter_all in Hdist
    by (apply Forall_forall; intros v Hin%Hv; unfold EMPTY; lia).
  apply submseteq_length_Permutation.
  - apply NoDup_submseteq; [done |].
    intros v Hin%Hv. apply elem_of_seqZ. lia.
  - unfold vals. rewrite length_fmap, Hlen. done.
Qed.

(** ** [solution_reset] *)

Lemma solution_reset_eq su :
  wf su → solution_reset su = {| puzzle := puzzle su; solution := puzzle su |}.
Proof.
  destruct su as [p s]. intros [Hp Hs]. simpl in *.
  do 81 (destruct p as [|? p]; [discriminate Hp | injection Hp as Hp]).
  destruct p; [| discriminate Hp].
  do 81 (destruct s as [|? s]; [discriminate Hs | injection Hs as Hs]).
  destruct s; [| discriminate Hs].
  reflexivity.
Qed.

(** ** Dead ends *)

Lemma ncand_zero su row col : ncand su row col = 0 ↔ candidates su row col = [].
Proof.
  unfold ncand. destruct (candidates su row col); simpl; split; (done || lia).
Qed.

Lemma dead_end_set su r c row col num :
  wf su → dead_end su r c →
  coord row → coord col → 1 ≤ num ≤ 9 → blank su row col →
  rd (puzzle su) (row * DIM + col) = EMPTY → ¬ occurs su row col num →
  dead_end (set_solution su (row * DIM + col) num) r c.
Proof.
  intros Hwf (Hr & Hc & Hb & Hn) Hrow Hcol Hnum Hblank Hclue Hocc.
  apply ncand_zero in Hn.
  pose proof (index_bounds row col Hrow Hcol) as Hk.
  pose proof (index_bounds r c Hr Hc) as Hk'.
  assert (row * DIM + col ≠ r * DIM + c) as Hne.
  { intros Heq. apply index_inj in Heq as [-> ->]; [| done ..].
    assert (num ∈ candidates su r c) as Hin by by apply elem_of_candidates.
    rewrite Hn in Hin. by apply elem_of_nil in Hin. }
  repeat split; try apply Hr; try apply Hc.
  - unfold blank in *. simpl. rewrite rd_wr_ne by lia. done.
  - apply ncand_zero.
    destruct (candidates (set_solution su (row * DIM + col) num) r c)
      as [|d l] eqn:Hcand; [done |]. exfalso.
    assert (d ∈ candidates (set_solution su (row * DIM + col) num) r c) as Hd.
    { rewrite Hcand. apply elem_of_cons. by left. }
    apply elem_of_candidates in Hd as (Hclue' & Hd & Hocc').
    assert (d ∈ candidates su r c) as Hin.
    { apply elem_of_candidates. split; [done |]. split; [done |].
      intros Hocc0. apply Hocc'.
      apply occurs_set; [lia | done | done | done | unfold EMPTY; lia | done]. }
    rewrite Hn in Hin. by apply elem_of_nil in Hin.
Qed.

Lemma fills_dead_end su su' r c :
  fills su su' → wf su → dead_end su r c → dead_end su' r c.
Proof.
  intros H Hwf Hd.
  apply (fills_ind_set (λ s, wf s ∧ dead_end s r c)) in H; [tauto | | done].
  intros s row col num Hrow Hcol Hnum Hb Hclue Hocc [Hwf' Hd']. split.
  - by apply wf_set_solution.
  - by apply dead_end_set.
Qed.

Lemma dead_end_unsolved su r c : dead_end su r c → puzzle_solved su = false.
Proof.
  intros (Hr & Hc & Hb & _). destruct (puzzle_solved su) eqn:Hs; [| done].
  rewrite puzzle_solved_true in Hs. by destruct (Hs r c Hr Hc).
Qed.

Lemma sudoku_solve_dead_end garbage fuel su r c :
  (9 ≤ length garbage)%nat → wf su → dead_end su r c → (empties su < fuel)%nat →
  sudoku_solve garbage fuel su = Ok (false, su).
Proof.
  intros Hg Hwf Hd Hfuel.
  destruct (sudoku_solve_total garbage fuel su Hg Hwf Hfuel)
    as (b & su' & -> & Hfalse & Htrue).
  destruct b; [| by rewrite Hfalse].
  destruct (Htrue eq_refl) as [Hf Hs].
  apply (fills_dead_end _ _ r c) in Hf; [| done ..].
  apply dead_end_unsolved in Hf. congruence.
Qed.

Lemma empties_le su : wf su → (empties su ≤ 81)%nat.
Proof. intros [_ <-]. apply length_filter. Qed.

(** ** The content of the local arrays does not matter *)

Lemma rd_take choices n i : 0 ≤ i < n → rd (take (Z.to_nat n) choices) i = rd choices i.
Proof.
  intros Hi. unfold rd. rewrite !list_lookup_total_alt.
  by rewrite lookup_take_lt by lia.
Qed.

Lemma least_possible_solutions_garbage su row col g1 g2 :
  (9 ≤ length g1)%nat → (9 ≤ length g2)%nat →
  ∃ n r c ch1 ch2,
    least_possible_solutions su row col g1 = Ok (n, r, c, ch1)
    ∧ least_possible_solutions su row col g2 = Ok (n, r, c, ch2)
    ∧ take (Z.to_nat n) ch1 = take (Z.to_nat n) ch2.
Proof.
  intros H1 H2.
  destruct (least_possible_solutions_spec su row col g1 H1)
    as (n1 & r1 & c1 & ch1 & -> & Hs1).
  destruct (least_possible_solutions_spec su row col g2 H2)
    as (n2 & r2 & c2 & ch2 & -> & Hs2).
  destruct Hs1 as [(-> & -> & -> & Hz1) | (Hn1 & Hr1 & Hc1 & Hb1 & Hnc1 & Ht1 & Hmin1 & Hfst1)];
  destruct Hs2 as [(-> & -> & -> & Hz2) | (Hn2 & Hr2 & Hc2 & Hb2 & Hnc2 & Ht2 & Hmin2 & Hfst2)].
  - by exists 0, row, col, ch1, ch2.
  - specialize (Hz1 r2 c2 Hr2 Hc2 Hb2). lia.
  - specialize (Hz2 r1 c1 Hr1 Hc1 Hb1). lia.
  - assert (n1 = n2) as ->.
    { specialize (Hmin1 r2 c2 Hr2 Hc2 Hb2). specialize (Hmin2 r1 c1 Hr1 Hc1 Hb1). lia. }
    assert (r1 * DIM + c1 = r2 * DIM + c2) as Heq.
    { destruct (Z.lt_trichotomy (r1 * DIM + c1) (r2 * DIM + c2)) as [Hlt | [? | Hlt]];
        [| done |].
      - by destruct (Hfst2 r1 c1 Hr1 Hc1 Hlt Hb1).
      - by destruct (Hfst1 r2 c2 Hr2 Hc2 Hlt Hb2). }
    apply index_inj in Heq as [-> ->]; [| done ..].
    exists n2, r2, c2, ch1, ch2. by rewrite Ht1, Ht2.
Qed.

Lemma solve_loop_ext solve1 solve2 row col ch1 ch2 idxs su :
  (∀ s, solve1 s = solve2 s) →
  Forall (λ i, rd ch1 i = rd ch2 i) idxs →
  solve_loop solve1 row col ch1 idxs su = solve_loop solve2 row col ch2 idxs su.
Proof.
  intros Hext Hidxs. revert su.
  induction Hidxs as [|i idxs Hi _ IH]; intros su; cbn [solve_loop]; [done |].
  cbn zeta. rewrite Hi.
  destruct (cell_fill su row col (rd ch2 i)) as [[filled su1] | |]; res_simpl;
    [| done ..].
  destruct filled; cbn [negb]; [| apply IH].
  rewrite Hext. destruct (solve2 su1) as [[solved su2] | |]; res_simpl; [| done ..].
  destruct solved; [done | apply IH].
Qed.

Lemma sudoku_solve_garbage g1 g2 fuel su :
  (9 ≤ length g1)%nat → (9 ≤ length g2)%nat →
  sudoku_solve g1 fuel su = sudoku_solve g2 fuel su.
Proof.
  intros H1 H2. revert su. induction fuel as [|fuel IH]; intros su; [done |].
  cbn [sudoku_solve]. destruct (puzzle_solved su); [done |]. cbn zeta.
  destruct (least_possible_solutions_garbage su 0 0 g1 g2 H1 H2)
    as (n & r & c & ch1 & ch2 & -> & -> & Htake).
  res_simpl. destruct (n =? 0); [done |].
  apply solve_loop_ext; [done |].
  apply Forall_forall. intros i Hi. unfold range in Hi. apply elem_of_seqZ in Hi.
  rewrite <- (rd_take ch1 n), <- (rd_take ch2 n) by lia. by rewrite Htake.
Qed.

Lemma cell_hint_loop_eq su cs row col garbage :
  coords cs → (9 ≤ length garbage)%nat →
  cell_hint_loop su cs row col garbage =
  Ok (match hint_cell su cs with
      | Some (i, j) => (true, i, j)
      | None => (false, row, col)
      end).
Proof.
  intros Hcs Hg. unfold hint_cell.
  induction Hcs as [|[i j] cs [Hi Hj] Hcs IH]; [done |].
  cbn [cell_hint_loop for_first].
  destruct (rd (solution su) (i * DIM + j) =? EMPTY); cbn [andb]; [| apply IH].
  rewrite cell_choices_eq by done. res_simpl. fold (ncand su i j).
  destruct (ncand su i j =? 1); [done | apply IH].
Qed.

(** ** Calls and sequences of calls *)

Lemma sudoku_solve_keeps garbage fuel su b su' :
  (9 ≤ length garbage)%nat → wf su →
  sudoku_solve garbage fuel su = Ok (b, su') →
  wf su' ∧ puzzle su' = puzzle su ∧ (clues_kept su → clues_kept su').
Proof.
  intros Hg Hwf Hrun.
  destruct (sudoku_solve_result garbage fuel su b su' Hg Hwf Hrun) as [Hfalse Htrue].
  destruct b; [| by rewrite Hfalse].
  destruct (Htrue eq_refl) as [Hf _].
  split; [by apply (fills_wf su) |]. split; [by apply fills_puzzle |].
  by apply fills_clues_kept.
Qed.

Lemma run_op_keeps garbage fuel o su v su' :
  (9 ≤ length garbage)%nat → wf su → op_ok o →
  run_op garbage fuel o su = Ok (v, su') →
  wf su' ∧ puzzle su' = puzzle su ∧ (clues_kept su → clues_kept su').
Proof.
  intros Hg Hwf Hok. pose proof Hwf as [Hp Hs].
  destruct o as [| row col | row col num | | row col | row col |]; cbn [run_op op_ok] in *.
  - intros [= <- <-]. rewrite solution_reset_eq by done.
    split; [done |]. split; [done |]. by intros _ k _ _.
  - destruct Hok as [Hr Hc]. rewrite cell_erase_eq by done. res_simpl.
    case_decide as Hclue; intros [= <- <-]; [| done].
    split; [by apply wf_set_solution |]. split; [done |].
    apply clues_kept_set; [| done]. pose proof (index_bounds row col Hr Hc). lia.
  - destruct Hok as (Hr & Hc & Hn). rewrite cell_fill_eq by done. res_simpl.
    case_decide as Hfill; intros [= <- <-]; [| done]. destruct Hfill as [Hclue _].
    split; [by apply wf_set_solution |]. split; [done |].
    apply clues_kept_set; [| done]. pose proof (index_bounds row col Hr Hc). lia.
  - by intros [= <- <-].
  - destruct (cell_choices su row col garbage) as [[n ch] | |]; res_simpl; [| done ..].
    by intros [= <- <-].
  - destruct (cell_hint garbage su row col) as [[[b r] c] | |]; res_simpl; [| done ..].
    by intros [= <- <-].
  - destruct (sudoku_solve garbage fuel su) as [[b s] | |] eqn:Hrun; res_simpl;
      [| done ..].
    intros [= <- <-]. by apply (sudoku_solve_keeps garbage fuel su b).
Qed.

Lemma run_op_total garbage fuel o su :
  (9 ≤ length garbage)%nat → wf su → op_ok o → (81 < fuel)%nat →
  ∃ v su', run_op garbage fuel o su = Ok (v, su').
Proof.
  intros Hg Hwf Hok Hfuel.
  destruct o as [| row col | row col num | | row col | row col |]; cbn [run_op op_ok] in *.
  - by eexists _, _.
  - destruct Hok as [Hr Hc]. rewrite cell_erase_eq by done. res_simpl.
    case_decide; by eexists _, _.
  - destruct Hok as (Hr & Hc & Hn). rewrite cell_fill_eq by done. res_simpl.
    case_decide; by eexists _, _.
  - by eexists _, _.
  - destruct Hok as [Hr Hc]. rewrite cell_choices_eq by done. res_simpl.
    by eexists _, _.
  - unfold cell_hint. rewrite cell_hint_loop_eq by (done || apply coords_cells).
    res_simpl. destruct (hint_cell su cells) as [[i j] |]; by eexists _, _.
  - destruct (sudoku_solve_total garbage fuel su) as (b & s & -> & _);
      [done | done | pose proof (empties_le su Hwf); lia |].
    res_simpl. by eexists _, _.
Qed.

Lemma run_ops_total garbage fuel os su :
  (9 ≤ length garbage)%nat → wf su → Forall op_ok os → (81 < fuel)%nat →
  ∃ su', run_ops garbage fuel os su = Ok su'
         ∧ wf su' ∧ puzzle su' = puzzle su ∧ (clues_kept su → clues_kept su').
Proof.
  intros Hg Hwf Hos Hfuel. revert su Hwf.
  induction Hos as [|o os Ho _ IH]; intros su Hwf; cbn [run_ops].
  - by exists su.
  - destruct (run_op_total garbage fuel o su Hg Hwf Ho Hfuel) as (v & su1 & Hrun).
    rewrite Hrun. res_simpl.
    destruct (run_op_keeps garbage fuel o su v su1 Hg Hwf Ho Hrun) as (Hwf1 & Hp1 & Hk1).
    destruct (IH su1 Hwf1) as (su' & -> & Hwf' & Hp' & Hk').
    exists su'. split; [done |]. split; [done |]. split; [congruence | auto].
Qed.

Lemma run_op_twice garbage fuel o su v1 su1 :
  (9 ≤ length garbage)%nat → wf su → op_ok o →
  run_op garbage fuel o su = Ok (v1, su1) →
  ∃ v2, run_op garbage fuel o su1 = Ok (v2, su1)
        ∧ (∀ row col num, o = Fill row col num → v1 = RBool true →
             v2 = RBool false)
        ∧ ((∀ row col num, o ≠ Fill row col num) ∨ v1 ≠ RBool true → v2 = v1).
Proof.
  intros Hg Hwf Hok.
  destruct o as [| row col | row col num | | row col | row col |]; cbn [run_op op_ok] in *.
  - intros [= <- <-]. exists RVoid. split; [| done].
    rewrite (solution_reset_eq su) by done.
    rewrite solution_reset_eq; [done | by destruct Hwf].
  - destruct Hok as [Hr Hc]. rewrite !cell_erase_eq by done. res_simpl.
    case_decide as Hclue; intros [= <- <-].
    + exists (RBool true). simpl puzzle. rewrite decide_True by done.
      rewrite set_solution_set. split; [done | done].
    + exists (RBool false). rewrite decide_False by done. split; [done | done].
  - destruct Hok as (Hr & Hc & Hn). rewrite !cell_fill_eq by done. res_simpl.
    case_decide as Hfill; intros [= <- <-].
    + exists (RBool false). rewrite decide_False.
      * split; [done |]. split; [done |].
        intros [Hne | Hne]; [by destruct (Hne row col num) | done].
      * intros [_ Hocc]. apply Hocc.
        pose proof (occurs_self (set_solution su (row * DIM + col) num) row col Hr Hc)
          as [Hself _].
        simpl in Hself. rewrite rd_wr_eq in Hself; [by left | |].
        -- pose proof (index_bounds row col Hr Hc). lia.
        -- by apply index_lt.
    + exists (RBool false). rewrite decide_False by done. split; [done | done].
  - intros [= <- <-]. exists (RBool (puzzle_solved su)). split; [done | done].
  - destruct (cell_choices su row col garbage) as [[n ch] | |] eqn:Hcc; res_simpl;
      [| done ..].
    intros [= <- <-]. rewrite Hcc. res_simpl. eexists. split; [done | done].
  - destruct (cell_hint garbage su row col) as [[[b r] c] | |] eqn:Hh; res_simpl;
      [| done ..].
    intros [= <- <-]. rewrite Hh. res_simpl. eexists. split; [done | done].
  - destruct (sudoku_solve garbage fuel su) as [[b s] | |] eqn:Hrun; res_simpl;
      [| done ..].
    intros [= <- <-].
    destruct (sudoku_solve_result garbage fuel su b s Hg Hwf Hrun) as [Hfalse Htrue].
    destruct b.
    + destruct (Htrue eq_refl) as [_ Hs].
      destruct fuel as [|fuel]; [done |]. cbn [sudoku_solve]. rewrite Hs.
      res_simpl. eexists. split; [done | done].
    + pose proof (Hfalse eq_refl) as ->. rewrite Hrun. res_simpl.
      eexists. split; [done | done].
Qed.

Lemma run_op_garbage g1 g2 fuel o su :
  (9 ≤ length g1)%nat → (9 ≤ length g2)%nat → op_ok o →
  run_op g1 fuel o su = run_op g2 fuel o su.
Proof.
  intros H1 H2 Hok.
  destruct o as [| row col | row col num | | row col | row col |];
    cbn [run_op op_ok] in *; [reflexivity .. | | |].
  - destruct Hok as [Hr Hc]. rewrite !cell_choices_eq by done. res_simpl.
    by rewrite Nat2Z.id, !take_app_length.
  - unfold cell_hint. by rewrite !cell_hint_loop_eq by (done || apply coords_cells).
  - by rewrite (sudoku_solve_garbage g1 g2).
Qed.

(** ** Size of the search *)

Lemma solve_loop_calls_forget solve row col choices idxs su calls ends :
  forget (solve_loop_calls solve row col choices idxs su calls ends)
  = solve_loop (λ s, forget (solve s)) row col choices idxs su.
Proof.
  revert su calls ends. induction idxs as [|i idxs IH]; intros su calls ends;
    cbn [solve_loop_calls solve_loop].
  - by destruct (cell_erase su row col) as [[b s] | |].
  - cbn zeta. destruct (cell_fill su row col (rd choices i)) as [[filled su1] | |];
      res_simpl; [| done ..].
    destruct filled; cbn [negb]; [| apply IH].
    destruct (solve su1) as [[[solved su2] [n m]] | |]; res_simpl; [| done ..].
    cbn [forget]. res_simpl. destruct solved; [done | apply IH].
Qed.

Lemma sudoku_solve_calls_forget garbage fuel su :
  forget (sudoku_solve_calls garbage fuel su) = sudoku_solve garbage fuel su.
Proof.
  revert su. induction fuel as [|fuel IH]; intros su; [done |].
  cbn [sudoku_solve_calls sudoku_solve].
  destruct (puzzle_solved su); [done |]. cbn zeta.
  destruct (least_possible_solutions su 0 0 garbage) as [[[[n row] col] ch] | |];
    res_simpl; [| done ..].
  destruct (n =? 0); [done |].
  rewrite solve_loop_calls_forget. apply solve_loop_ext; [done |].
  by apply Forall_forall.
Qed.

Lemma sudoku_solve_calls_returns garbage fuel su b su' :
  sudoku_solve garbage fuel su = Ok (b, su') →
  ∃ calls ends, sudoku_solve_calls garbage fuel su = Ok (b, su', (calls, ends)).
Proof.
  rewrite <- sudoku_solve_calls_forget.
  destruct (sudoku_solve_calls garbage fuel su) as [[[b0 s0] [n m]] | |];
    cbn [forget]; [| done ..].
  intros [= -> ->]. by exists n, m.
Qed.

Lemma search_bound_pow e : (8 * search_bound e + 1 = 9 ^ (e + 1))%nat.
Proof.
  induction e as [|e IH]; [done |].
  cbn [search_bound]. replace (S e + 1)%nat with (S (e + 1)) by lia.
  rewrite Nat.pow_succ_r'. lia.
Qed.

Lemma solve_loop_calls_bound solve su0 row col choices e idxs v calls ends b s' n m :
  wf su0 → coord row → coord col → blank su0 row col →
  empties su0 = S e →
  (∀ s b s' n m, wf s → empties s = e → solve s = Ok (b, s', (n, m)) →
                 (b = false → s' = s)
                 ∧ (n ≤ search_bound e)%nat ∧ (m ≤ 9 ^ e)%nat) →
  Forall (λ i, 1 ≤ rd choices i ≤ 9) idxs →
  solve_loop_calls solve row col choices idxs
                   (set_solution su0 (row * DIM + col) v) calls ends
  = Ok (b, s', (n, m)) →
  (n ≤ calls + length idxs * search_bound e)%nat
  ∧ (m ≤ ends + length idxs * 9 ^ e)%nat.
Proof.
  intros Hwf Hr Hc Hb He Hsolve Hidxs. revert v calls ends.
  pose proof (index_bounds row col Hr Hc) as Hk.
  induction Hidxs as [|i idxs Hi _ IH]; intros v calls ends; cbn [solve_loop_calls].
  - destruct (cell_erase _ row col) as [[b0 s0] | |]; res_simpl; [| done ..].
    intros [= _ _ <- <-]. simpl. lia.
  - cbn zeta. rewrite cell_fill_eq by done. res_simpl.
    case_decide as Hfill; cbn [negb].
    + rewrite set_solution_set.
      destruct (solve (set_solution su0 (row * DIM + col) (rd choices i)))
        as [[[solved s1] [n1 m1]] | |] eqn:Hrun; res_simpl; [| done ..].
      apply Hsolve in Hrun as (Hfalse & Hn1 & Hm1).
      * destruct solved.
        -- intros [= _ _ <- <-]. simpl. lia.
        -- rewrite (Hfalse eq_refl). intros Hloop%IH. simpl. lia.
      * by apply wf_set_solution.
      * pose proof (empties_set su0 (row * DIM + col) (rd choices i)) as Hdec.
        rewrite He in Hdec. apply Nat.succ_inj, Hdec;
          [lia | by apply index_lt | done | unfold EMPTY; lia].
    + intros Hloop%IH. simpl. lia.
Qed.

Lemma sudoku_solve_calls_bound garbage fuel su b su' n m :
  (9 ≤ length garbage)%nat → wf su →
  sudoku_solve_calls garbage fuel su = Ok (b, su', (n, m)) →
  (n ≤ search_bound (empties su))%nat ∧ (m ≤ 9 ^ empties su)%nat.
Proof.
  intros Hg. revert su b su' n m.
  induction fuel as [|fuel IH]; intros su b su' n m Hwf; [done |].
  cbn [sudoku_solve_calls].
  assert (1 ≤ search_bound (empties su))%nat as H1
    by (destruct (empties su); simpl; lia).
  assert (1 ≤ 9 ^ empties su)%nat as H2
    by (pose proof (Nat.pow_nonzero 9 (empties su)); lia).
  destruct (puzzle_solved su); [by intros [= _ _ <- <-] |]. cbn zeta.
  destruct (least_possible_solutions_spec su 0 0 garbage Hg)
    as (k & r & c & ch & -> & [(-> & _) | (Hm & Hr & Hc & Hb & Hnc & Htake & _)]).
  { res_simpl. by intros [= _ _ <- <-]. }
  res_simpl. destruct (Z.eqb_spec k 0) as [-> | _]; [lia |].
  destruct (empties su) as [|e] eqn:He.
  { exfalso. pose proof (index_lt su r c Hwf Hr Hc) as Hlt.
    unfold blank, rd in Hb.
    assert (EMPTY ∈ filter (λ v, v = EMPTY) (solution su)) as Hin.
    { apply list_elem_of_filter. split; [done |]. rewrite <- Hb.
      by apply list_elem_of_lookup_total_2. }
    unfold empties in He. apply length_zero_iff_nil in He. rewrite He in Hin.
    by apply elem_of_nil in Hin. }
  rewrite <- (set_solution_blank su (r * DIM + c)) at 1
    by (by apply index_lt || done).
  intros Hloop.
  apply (solve_loop_calls_bound _ su r c ch e) in Hloop; try done.
  - assert (length (range 0 k) ≤ 9)%nat as Hlen.
    { unfold range. rewrite length_seqZ. pose proof (ncand_bounds su r c). lia. }
    cbn [search_bound]. rewrite Nat.pow_succ_r'. nia.
  - intros s b0 s0 n0 m0 Hs Hes Hrun. split.
    + intros ->.
      pose proof (sudoku_solve_calls_forget garbage fuel s) as Hf.
      rewrite Hrun in Hf. cbn [forget] in Hf. symmetry in Hf.
      by apply sudoku_solve_result in Hf as [Hfalse _]; [apply Hfalse | ..].
    + rewrite <- Hes. by apply (IH s b0 s0).
  - eapply Forall_impl; [by apply (choices_read su r c) |].
    intros i Hi. simpl in Hi. apply elem_of_candidates in Hi. tauto.
Qed.

(** The loop of an invocation on [su0] calls [solve] only on boards with one
    empty cell less than [su0]. *)
Lemma solve_loop_measure solve1 solve2 su0 row col choices idxs v :
  wf su0 → coord row → coord col → blank su0 row col →
  (∀ s s', wf s → solve1 s = Ok (false, s') → s' = s) →
  (∀ s, wf s → S (empties s) = empties su0 → solve2 s = solve1 s) →
  Forall (λ i, 1 ≤ rd choices i ≤ 9) idxs →
  solve_loop solve2 row col choices idxs (set_solution su0 (row * DIM + col) v)
  = solve_loop solve1 row col choices idxs (set_solution su0 (row * DIM + col) v).
Proof.
  intros Hwf Hr Hc Hb Hrestores Hagree Hidxs. revert v.
  pose proof (index_bounds row col Hr Hc) as Hk.
  induction Hidxs as [|i idxs Hi _ IH]; intros v; cbn [solve_loop]; [done |].
  cbn zeta. rewrite cell_fill_eq by done. res_simpl.
  case_decide as Hfill; cbn [negb]; [| apply IH].
  rewrite set_solution_set.
  assert (wf (set_solution su0 (row * DIM + col) (rd choices i))) as Hwf1
    by by apply wf_set_solution.
  rewrite Hagree; [| done |].
  - destruct (solve1 (set_solution su0 (row * DIM + col) (rd choices i)))
      as [[solved s1] | |] eqn:Hrun; res_simpl; [| done ..].
    destruct solved; [done |].
    rewrite (Hrestores _ _ Hwf1 Hrun). apply IH.
  - apply empties_set; [lia | by apply index_lt | done | unfold EMPTY; lia].
Qed.

(** ** Deciding consistency of a given board *)

Lemma consistent_cells su :
  consistent su ↔
  Forall (λ p, distinct (row_of su p.1) ∧ distinct (col_of su p.2)
               ∧ distinct (box_of su p.1 p.2)) cells.
Proof.
  rewrite Forall_forall. split.
  - intros H [i j] [Hi Hj]%elem_of_cells. by apply H.
  - intros H row col Hr Hc. apply (H (row, col)). by apply elem_of_cells.
Qed.

Global Instance consistent_dec su : Decision (consistent su).
Proof.
  destruct (decide (Forall (λ p, distinct (row_of su p.1) ∧ distinct (col_of su p.2)
                                 ∧ distinct (box_of su p.1 p.2)) cells)) as [H | H];
    [left | right]; by rewrite consistent_cells.
Defined.

(** * The properties of the specification *)

(** C1, as the code has it.  On a board whose cells hold 0..9 and on which no
    digit is repeated in a row, a column or a box: if [sudoku_solve] returns
    true, then [puzzle_solved] is true (no cell is empty) and every row, every
    column and every box holds each of 1..9 exactly once. *)
Theorem sudoku_solve_sound garbage fuel su su' :
  length garbage = 9%nat → wf su → digits su → consistent su →
  sudoku_solve garbage fuel su = Ok (true, su') →
  puzzle_solved su' = true
  ∧ (∀ i j, coord i → coord j → rd (solution su') (i * DIM + j) ≠ EMPTY)
  ∧ ∀ row col, coord row → coord col →
      row_of su' row ≡ₚ seqZ 1 9
      ∧ col_of su' col ≡ₚ seqZ 1 9
      ∧ box_of su' row col ≡ₚ seqZ 1 9.
Proof.
  intros Hg Hwf Hd Hc Hrun.
  apply sudoku_solve_result in Hrun as [_ Htrue]; [| lia | done].
  destruct (Htrue eq_refl) as [Hf Hs].
  destruct (fills_consistent su su' Hf Hwf Hc) as [Hwf' Hc'].
  pose proof (fills_digits su su' Hf Hd) as Hd'.
  split; [done |]. split.
  - rewrite puzzle_solved_true in Hs. apply Hs.
  - intros row col Hr Hcol. destruct (Hc' row col Hr Hcol) as (H1 & H2 & H3).
    unfold row_of, col_of, box_of in *. repeat split.
    + apply unit_perm; [done .. | by apply unit_row | done].
    + apply unit_perm; [done .. | by apply unit_col | done].
    + apply unit_perm; [done .. | by apply unit_box | done].
Qed.

Lemma sudoku_solve_sound_witness :
  ∃ su', sudoku_solve (replicate 9 0) 82 row_missing_board = Ok (true, su')
         ∧ puzzle_solved su' = true
         ∧ row_of su' 0 ≡ₚ seqZ 1 9.
Proof.
  exists {| puzzle := puzzle row_missing_board; solution := solved_grid |}.
  assert (sudoku_solve (replicate 9 0) 82 row_missing_board
          = Ok (true, {| puzzle := puzzle row_missing_board;
                         solution := solved_grid |})) as Hrun
    by (vm_compute; reflexivity).
  split; [exact Hrun |].
  destruct (sudoku_solve_sound (replicate 9 0) 82 row_missing_board _
              eq_refl ltac:(compute_done) ltac:(compute_done) ltac:(compute_done) Hrun)
    as (Hs & _ & Hunits).
  split; [exact Hs |].
  destruct (Hunits 0 0) as (Hrow & _); [compute_done | compute_done | exact Hrow].
Defined.

(** C1 as stated fails: on the board of eighty-one 1s [sudoku_solve] returns
    true, and no row holds each digit once. *)
Lemma sudoku_solve_sound_counterexample :
  wf ones_board
  ∧ sudoku_solve (replicate 9 0) 82 ones_board = Ok (true, ones_board)
  ∧ ¬ (row_of ones_board 0 ≡ₚ seqZ 1 9).
Proof.
  split; [compute_done |]. split; [reflexivity |].
  intros Hperm.
  assert (2 ∈ row_of ones_board 0) as Hin by (rewrite Hperm; compute_done).
  revert Hin. compute_done.
Qed.

(** C2.  If [sudoku_solve] returns false, the board, [puzzle] and [solution],
    is the one it was called on. *)
Theorem sudoku_solve_false_unchanged garbage fuel su su' :
  length garbage = 9%nat → wf su →
  sudoku_solve garbage fuel su = Ok (false, su') →
  su' = su ∧ puzzle su' = puzzle su ∧ solution su' = solution su.
Proof.
  intros Hg Hwf Hrun.
  apply sudoku_solve_result in Hrun as [Hfalse _]; [| lia | done].
  by rewrite (Hfalse eq_refl).
Qed.

Lemma sudoku_solve_false_unchanged_witness :
  sudoku_solve (replicate 9 0) 82 stuck_board = Ok (false, stuck_board)
  ∧ consistent stuck_board.
Proof.
  assert (∃ su', sudoku_solve (replicate 9 0) 82 stuck_board = Ok (false, su'))
    as [su' Hrun] by (eexists; vm_compute; reflexivity).
  destruct (sudoku_solve_false_unchanged (replicate 9 0) 82 stuck_board su'
              eq_refl ltac:(compute_done) Hrun) as (Heq & _).
  split; [by rewrite <- Heq at 2 | compute_done].
Defined.

(** C3.  For coordinates in [0,8] and a digit in [1,9]: [cell_fill] returns
    false and leaves the board as it is on a clue cell, and also when the digit
    occurs in the row, the column or the box of the cell; otherwise it returns
    true and the board differs in [solution[row*9+col]], which is the digit. *)
Theorem cell_fill_spec su row col num :
  wf su → coord row → coord col → 1 ≤ num ≤ 9 →
  (rd (puzzle su) (row * DIM + col) ≠ EMPTY →
   cell_fill su row col num = Ok (false, su))
  ∧ (num ∈ row_of su row ∨ num ∈ col_of su col ∨ num ∈ box_of su row col →
     cell_fill su row col num = Ok (false, su))
  ∧ (rd (puzzle su) (row * DIM + col) = EMPTY →
     num ∉ row_of su row → num ∉ col_of su col → num ∉ box_of su row col →
     ∃ su', cell_fill su row col num = Ok (true, su')
            ∧ puzzle su' = puzzle su
            ∧ solution su' = <[Z.to_nat (row * DIM + col) := num]> (solution su)
            ∧ rd (solution su') (row * DIM + col) = num).
Proof.
  intros Hwf Hr Hc Hn. rewrite cell_fill_eq by done. repeat split.
  - intros Hclue. by rewrite decide_False by tauto.
  - intros Hocc. rewrite decide_False; [done |]. intros [_ H]. by apply H.
  - intros Hclue Hrow Hcol Hbox. rewrite decide_True.
    + eexists. split; [done |]. split; [done |]. split; [done |]. simpl.
      apply rd_wr_eq; [| by apply index_lt].
      pose proof (index_bounds row col Hr Hc). lia.
    + split; [done |]. unfold occurs. tauto.
Qed.

Lemma cell_fill_spec_witness :
  ∃ su', cell_fill row_missing_board 0 0 1 = Ok (true, su')
         ∧ rd (solution su') 0 = 1.
Proof.
  destruct (cell_fill_spec row_missing_board 0 0 1) as (_ & _ & H);
    [compute_done | compute_done | compute_done | lia |].
  destruct H as (su' & Hfill & _ & _ & Hrd); [reflexivity | compute_done ..|].
  exists su'. split; [exact Hfill | exact Hrd].
Defined.

(** C4.  Start from a board whose solution is its puzzle and make any sequence
    of calls with arguments as soduku.h requires.  Every call returns, the
    clues are never changed, and on the board reached every clue cell shows its
    clue; there [cell_fill] and [cell_erase] on a clue cell return false and
    leave the board as it is. *)
Theorem clues_invariant garbage fuel os su :
  length garbage = 9%nat → (81 < fuel)%nat →
  wf su → solution su = puzzle su → Forall op_ok os →
  ∃ su',
    run_ops garbage fuel os su = Ok su'
    ∧ puzzle su' = puzzle su
    ∧ (∀ k, 0 ≤ k < 81 → rd (puzzle su') k ≠ EMPTY →
         rd (solution su') k = rd (puzzle su') k)
    ∧ (∀ row col num, coord row → coord col → 1 ≤ num ≤ 9 →
         rd (puzzle su') (row * DIM + col) ≠ EMPTY →
         cell_fill su' row col num = Ok (false, su')
         ∧ cell_erase su' row col = Ok (false, su')).
Proof.
  intros Hg Hfuel Hwf Hstart Hos.
  destruct (run_ops_total garbage fuel os su) as (su' & Hrun & Hwf' & Hp & Hk);
    [lia | done ..|].
  exists su'. split; [done |]. split; [done |]. split.
  - apply Hk. intros k _ _. by rewrite Hstart.
  - intros row col num Hr Hc Hn Hclue.
    rewrite cell_fill_eq, cell_erase_eq by done.
    by rewrite !decide_False by tauto.
Qed.

Lemma clues_invariant_witness :
  ∃ su',
    run_ops (replicate 9 0) 82
            [Fill 0 0 2; Solve; Fill 0 0 1; Erase 0 1; Solve; Erase 1 1; Reset; Solve]
            row_missing_board = Ok su'
    ∧ puzzle su' = puzzle row_missing_board
    ∧ cell_fill su' 1 0 1 = Ok (false, su').
Proof.
  destruct (clues_invariant (replicate 9 0) 82
              [Fill 0 0 2; Solve; Fill 0 0 1; Erase 0 1; Solve; Erase 1 1; Reset; Solve]
              row_missing_board)
    as (su' & Hrun & Hp & _ & Hclue);
    [reflexivity | lia | compute_done | reflexivity | |].
  { repeat (constructor; [compute_done |]). constructor. }
  exists su'. split; [exact Hrun |]. split; [exact Hp |].
  apply Hclue; [compute_done | compute_done | lia |].
  rewrite Hp. compute_done.
Defined.

(** C5.  The candidate-set size of a cell is [ncand], the number
    [cell_choices] returns for it.  [least_possible_solutions] returns 0, and
    leaves [*row], [*col], exactly when no empty cell has a candidate (in
    particular when no cell is empty).  Otherwise it returns the least
    candidate-set size [n] among the empty cells that have a candidate, sets
    [*row], [*col] to the first empty cell in row-major order whose
    candidate set has size [n], and the first [n] entries of [choices] are
    that cell's candidates. *)
Theorem least_possible_solutions_min su row col choices :
  length choices = 9%nat →
  (∀ i j ch, coord i → coord j → length ch = 9%nat →
     ∃ ch', cell_choices su i j ch = Ok (ncand su i j, ch')
            ∧ take (Z.to_nat (ncand su i j)) ch' = candidates su i j)
  ∧ ∃ n r c choices',
      least_possible_solutions su row col choices = Ok (n, r, c, choices')
      ∧ 0 ≤ n ≤ 9
      ∧ (n = 0 ↔ ∀ i j, coord i → coord j → blank su i j → ncand su i j = 0)
      ∧ (n = 0 → r = row ∧ c = col)
      ∧ (0 < n →
         coord r ∧ coord c ∧ blank su r c ∧ ncand su r c = n
         ∧ take (Z.to_nat n) choices' = candidates su r c
         ∧ (∀ i j, coord i → coord j → blank su i j → 0 < ncand su i j →
              n ≤ ncand su i j)
         ∧ (∀ i j, coord i → coord j → i * DIM + j < r * DIM + c →
              blank su i j → ncand su i j ≠ n)).
Proof.
  intros Hlen. split.
  - intros i j ch Hi Hj Hch.
    destruct (cell_choices su i j ch) as [[n ch'] | |] eqn:Hcc;
      [| by rewrite cell_choices_eq in Hcc by (done || lia) ..].
    apply cell_choices_length in Hcc as (-> & _ & Htake); [| done | done | lia].
    by exists ch'.
  - destruct (least_possible_solutions_spec su row col choices)
      as (n & r & c & ch & Hrun & Hspec); [lia |].
    exists n, r, c, ch. split; [done |].
    destruct Hspec as [(-> & -> & -> & Hz) | (Hn & Hr & Hc & Hb & Hnc & Hrest)].
    + split; [lia |]. split; [done |]. split; [done | lia].
    + pose proof (ncand_bounds su r c). split; [lia |]. split; [| split].
      * split; [lia |]. intros Hz. specialize (Hz r c Hr Hc Hb). lia.
      * lia.
      * intros _. tauto.
Qed.

Lemma least_possible_solutions_min_witness :
  ∃ n r c choices',
    least_possible_solutions dead_board 0 0 (replicate 9 0) = Ok (n, r, c, choices')
    ∧ 0 ≤ n ≤ 9
    ∧ (0 < n → blank dead_board r c ∧ ncand dead_board r c = n).
Proof.
  destruct (least_possible_solutions_min dead_board 0 0 (replicate 9 0))
    as (_ & n & r & c & ch & Hrun & Hn & _ & _ & Hpos); [reflexivity |].
  exists n, r, c, ch. split; [exact Hrun |]. split; [exact Hn |].
  intros Hlt. destruct (Hpos Hlt) as (_ & _ & Hb & Hnc & _).
  split; [exact Hb | exact Hnc].
Defined.

(** C6, as the code has it.  On a board with a dead end, an empty cell without
    candidate, [least_possible_solutions] does not report that cell: it
    returns 0 only if no empty cell at all has a candidate, and otherwise the
    positive candidate count of another cell.  [sudoku_solve] returns false
    on such a board, within a call depth of the number of empty cells plus
    one, and leaves the board as it was. *)
Theorem dead_end_solve garbage fuel su row col :
  length garbage = 9%nat → wf su → dead_end su row col →
  (empties su < fuel)%nat →
  (∃ n r c choices,
      least_possible_solutions su 0 0 garbage = Ok (n, r, c, choices)
      ∧ 0 ≤ n
      ∧ (n = 0 ↔ ∀ i j, coord i → coord j → blank su i j → ncand su i j = 0)
      ∧ (0 < n → (r, c) ≠ (row, col) ∧ blank su r c ∧ ncand su r c = n))
  ∧ sudoku_solve garbage fuel su = Ok (false, su).
Proof.
  intros Hg Hwf Hd Hfuel. split.
  - destruct (least_possible_solutions_spec su 0 0 garbage)
      as (n & r & c & ch & Hrun & Hspec); [lia |].
    exists n, r, c, ch. split; [done |].
    destruct Hspec as [(-> & _ & _ & Hz) | (Hn & Hr & Hc & Hb & Hnc & _)].
    + split; [done |]. split; [done | lia].
    + split; [lia |]. split; [| intros _; split; [| done]].
      * split; [lia |]. intros Hz. specialize (Hz r c Hr Hc Hb). lia.
      * intros [= -> ->]. destruct Hd as (_ & _ & _ & Hzero). lia.
  - apply (sudoku_solve_dead_end garbage fuel su row col); [lia | done ..].
Qed.

Lemma dead_end_solve_witness :
  sudoku_solve (replicate 9 0) 82 dead_board = Ok (false, dead_board).
Proof.
  destruct (dead_end_solve (replicate 9 0) 82 dead_board 0 8) as [_ Hrun];
    [reflexivity | compute_done | | vm_compute; lia | exact Hrun].
  repeat split; compute_done.
Defined.

(** C6 as stated fails: on [dead_board], where (0, 8) is a dead end and nothing
    but the clues is filled in, [least_possible_solutions] returns 3 and the
    cell (0, 6). *)
Lemma dead_end_counterexample :
  dead_end dead_board 0 8
  ∧ solution dead_board = puzzle dead_board
  ∧ cell_choices dead_board 0 8 (replicate 9 0) = Ok (0, replicate 9 0)
  ∧ least_possible_solutions dead_board 0 0 (replicate 9 0)
    = Ok (3, 0, 6, [7; 8; 9; 4; 5; 6; 7; 8; 9]).
Proof.
  split; [repeat split; compute_done |].
  split; [reflexivity |]. split; vm_compute; reflexivity.
Qed.

(** C7.  For coordinates in [0,8]: [cell_choices] returns 0 on a clue cell;
    otherwise it returns the number of digits of 1..9 that occur nowhere in
    the row, the column and the box of the cell, and writes exactly these
    digits, in strictly ascending order, at the start of [choices]. *)
Theorem cell_choices_spec su row col choices :
  coord row → coord col → length choices = 9%nat →
  (rd (puzzle su) (row * DIM + col) ≠ EMPTY →
   cell_choices su row col choices = Ok (0, choices))
  ∧ (rd (puzzle su) (row * DIM + col) = EMPTY →
     ∃ ds,
       cell_choices su row col choices
       = Ok (Z.of_nat (length ds), ds ++ drop (length ds) choices)
       ∧ StronglySorted Z.lt ds
       ∧ ∀ d, d ∈ ds ↔
              1 ≤ d ≤ 9 ∧ (d ∉ row_of su row) ∧ (d ∉ col_of su col)
              ∧ (d ∉ box_of su row col)).
Proof.
  intros Hr Hc Hlen. rewrite cell_choices_eq by (done || lia). split.
  - intros Hclue. unfold candidates. by rewrite decide_False.
  - intros Hclue. exists (candidates su row col). split; [done |].
    split; [apply candidates_sorted |].
    intros d. rewrite elem_of_candidates. unfold occurs. tauto.
Qed.

Lemma cell_choices_spec_witness :
  ∃ ds, cell_choices dead_board 0 6 (replicate 9 0)
        = Ok (Z.of_nat (length ds), ds ++ drop (length ds) (replicate 9 0))
        ∧ StronglySorted Z.lt ds ∧ 7 ∈ ds ∧ 6 ∉ ds.
Proof.
  destruct (cell_choices_spec dead_board 0 6 (replicate 9 0)) as [_ H];
    [compute_done | compute_done | reflexivity |].
  destruct H as (ds & Hcc & Hsorted & Hds); [reflexivity |].
  exists ds. split; [exact Hcc |]. split; [exact Hsorted |]. split.
  - apply Hds. compute_done.
  - intros H6. apply Hds in H6. revert H6. compute_done.
Defined.

(** C8, as the code has it.  Calling an operation a second time with the same
    arguments leaves the board the first call produced.  The second call of a
    [cell_fill] that returned true returns false; in every other case the
    second call returns what the first returned.  The outcome of a call does not depend
    on what the uninitialised local arrays hold.  [cell_erase] returns false
    exactly on a clue cell, and on an empty cell that is not a clue it returns
    true and changes nothing. *)
Theorem calls_idempotent garbage fuel o su v1 su1 :
  length garbage = 9%nat → wf su → op_ok o →
  run_op garbage fuel o su = Ok (v1, su1) →
  (∃ v2, run_op garbage fuel o su1 = Ok (v2, su1)
         ∧ (∀ row col num, o = Fill row col num → v1 = RBool true →
              v2 = RBool false)
         ∧ ((∀ row col num, o ≠ Fill row col num) ∨ v1 ≠ RBool true →
              v2 = v1))
  ∧ (∀ garbage', length garbage' = 9%nat →
       run_op garbage' fuel o su = Ok (v1, su1))
  ∧ (∀ row col, o = Erase row col →
       (v1 = RBool false ↔ rd (puzzle su) (row * DIM + col) ≠ EMPTY)
       ∧ (rd (puzzle su) (row * DIM + col) = EMPTY →
          rd (solution su) (row * DIM + col) = EMPTY →
          v1 = RBool true ∧ su1 = su)).
Proof.
  intros Hg Hwf Hok Hrun. split; [| split].
  - apply (run_op_twice garbage fuel o su); [lia | done ..].
  - intros g' Hg'. rewrite <- Hrun. apply run_op_garbage; [lia | lia | done].
  - intros row col ->. cbn [run_op op_ok] in *. destruct Hok as [Hr Hc].
    rewrite cell_erase_eq in Hrun by done. res_simpl.
    case_decide as Hclue; injection Hrun as <- <-.
    + split; [split; [done | by intros ?] |]. intros _ Hb. split; [done |].
      apply set_solution_blank; [by apply index_lt | done].
    + split; [done |]. by intros ?.
Qed.

Lemma calls_idempotent_witness :
  run_op (replicate 9 0) 82 (Erase 0 0) row_missing_board
  = Ok (RBool true, row_missing_board).
Proof.
  destruct (calls_idempotent (replicate 9 0) 82 (Erase 0 0) row_missing_board
              (RBool true) row_missing_board) as (Htwice & _);
    [reflexivity | compute_done | compute_done | reflexivity |].
  destruct Htwice as (v2 & Hrun & _ & Hsame).
  rewrite Hsame in Hrun; [exact Hrun |]. left. intros row col num. discriminate.
Defined.

(** C8 as stated fails: the second of two identical [cell_fill] calls does not
    return what the first returned. *)
Lemma calls_idempotent_counterexample :
  run_op (replicate 9 0) 82 (Fill 0 0 1) row_missing_board
  = Ok (RBool true, set_solution row_missing_board 0 1)
  ∧ run_op (replicate 9 0) 82 (Fill 0 0 1) (set_solution row_missing_board 0 1)
    = Ok (RBool false, set_solution row_missing_board 0 1).
Proof. split; reflexivity. Qed.

(** C9, as the code has it.  [sudoku_solve] returns on every board: a call
    depth of one more than the number of empty cells (at most 82) is enough.
    The measure is the number of empty cells.  The cell an invocation chooses
    is empty, so that its first successful [cell_fill] leaves one empty cell
    less; a later successful [cell_fill] of the loop overwrites the candidate
    [v] tried before and leaves the number of empty cells as it is.  Either
    way the board has exactly one empty cell less than at the start of the
    invocation, and these are the only boards on which the loop calls
    [sudoku_solve].  A call that returns false leaves the number as it found
    it.  The search is finite: with [e] empty cells a call ends at most [9^e]
    branches and makes at most [1 + 9 + ... + 9^e] invocations. *)
Theorem sudoku_solve_terminates garbage su :
  length garbage = 9%nat → wf su →
  (empties su ≤ 81)%nat
  ∧ (∀ fuel, (empties su < fuel)%nat →
       ∃ b su' calls ends,
         sudoku_solve garbage fuel su = Ok (b, su')
         ∧ (b = false → empties su' = empties su)
         ∧ sudoku_solve_calls garbage fuel su = Ok (b, su', (calls, ends))
         ∧ (ends ≤ 9 ^ empties su)%nat
         ∧ (calls ≤ search_bound (empties su))%nat
         ∧ (8 * calls < 9 ^ (empties su + 1))%nat)
  ∧ (∀ row col num su1,
       coord row → coord col → 1 ≤ num ≤ 9 → blank su row col →
       cell_fill su row col num = Ok (true, su1) →
       S (empties su1) = empties su)
  ∧ (∀ row col v num su1,
       coord row → coord col → 1 ≤ num ≤ 9 → blank su row col →
       cell_fill (set_solution su (row * DIM + col) v) row col num = Ok (true, su1) →
       S (empties su1) = empties su
       ∧ (v ≠ EMPTY →
          empties su1 = empties (set_solution su (row * DIM + col) v)))
  ∧ (∀ n row col choices fuel solve,
       least_possible_solutions su 0 0 garbage = Ok (n, row, col, choices) →
       (∀ s, wf s → S (empties s) = empties su →
             solve s = sudoku_solve garbage fuel s) →
       solve_loop solve row col choices (range 0 n) su
       = solve_loop (sudoku_solve garbage fuel) row col choices (range 0 n) su).
Proof.
  intros Hg Hwf. split; [by apply empties_le |]. split; [| split; [| split]].
  - intros fuel Hfuel.
    destruct (sudoku_solve_total garbage fuel su) as (b & su' & Hrun & Hfalse & _);
      [lia | done | done |].
    destruct (sudoku_solve_calls_returns garbage fuel su b su' Hrun)
      as (calls & ends & Hcalls).
    exists b, su', calls, ends. split; [done |]. split; [by intros ->%Hfalse |].
    split; [done |].
    apply sudoku_solve_calls_bound in Hcalls as [Hn Hm]; [| lia | done].
    pose proof (search_bound_pow (empties su)). lia.
  - intros row col num su1 Hr Hc Hn Hb Hfill.
    apply cell_fill_true in Hfill as (-> & _ & _); [| done ..].
    pose proof (index_bounds row col Hr Hc).
    apply empties_set; [lia | by apply index_lt | done | unfold EMPTY; lia].
  - intros row col v num su1 Hr Hc Hn Hb Hfill.
    apply cell_fill_true in Hfill as (-> & _ & _); [| done ..].
    rewrite set_solution_set.
    pose proof (index_bounds row col Hr Hc).
    pose proof (index_lt su row col Hwf Hr Hc).
    assert (S (empties (set_solution su (row * DIM + col) num)) = empties su)
      as Hnum by (apply empties_set; [lia | done | done | unfold EMPTY; lia]).
    split; [done |]. intros Hv.
    assert (S (empties (set_solution su (row * DIM + col) v)) = empties su)
      as Hold by (apply empties_set; [lia | done | done | done]).
    lia.
  - intros n row col choices fuel solve Hlps Hagree.
    destruct (least_possible_solutions_spec su 0 0 garbage)
      as (k & r & c & ch & Hlps' & [(-> & _) | (Hk & Hr & Hc & Hb & Hnc & Htake & _)]);
      [lia | ..]; rewrite Hlps in Hlps'; injection Hlps' as -> -> -> ->; [done |].
    rewrite <- (set_solution_blank su (r * DIM + c))
      by (by apply index_lt || done).
    apply solve_loop_measure; try done.
    + intros s s' Hs Hrun.
      by apply sudoku_solve_result in Hrun as [Hfalse _]; [apply Hfalse | lia | done].
    + eapply Forall_impl; [by apply (choices_read su r c) |].
      intros i Hi. simpl in Hi. apply elem_of_candidates in Hi. tauto.
Qed.

(** On the board without clues. *)
Lemma sudoku_solve_terminates_witness :
  ∃ b su' calls ends,
    sudoku_solve (replicate 9 0) 82 empty_board = Ok (b, su')
    ∧ sudoku_solve_calls (replicate 9 0) 82 empty_board = Ok (b, su', (calls, ends))
    ∧ (ends ≤ 9 ^ 81)%nat.
Proof.
  destruct (sudoku_solve_terminates (replicate 9 0) empty_board)
    as (_ & Hrun & _); [reflexivity | compute_done |].
  destruct (Hrun 82%nat) as (b & su' & calls & ends & Hsolve & _ & Hcalls & Hends & _);
    [vm_compute; lia |].
  exists b, su', calls, ends. split; [exact Hsolve |]. split; [exact Hcalls |].
  exact Hends.
Defined.

(** C9 as stated fails: not every successful [cell_fill] of the search
    decreases the number of empty cells.  On [fork_board] the search chooses
    cell (0, 0) with the candidates 1 and 2.  The fill of 1 returns true and
    leaves 12 empty cells; the recursive call on that board returns false; the
    fill of 2, the next step of the loop, returns true on a board with 12
    empty cells and leaves 12 empty cells. *)
Lemma sudoku_solve_terminates_counterexample :
  puzzle_solved fork_board = false
  ∧ least_possible_solutions fork_board 0 0 (replicate 9 0)
    = Ok (2, 0, 0, [1; 2; 0; 0; 0; 0; 0; 0; 0])
  ∧ cell_fill fork_board 0 0 1 = Ok (true, set_solution fork_board 0 1)
  ∧ sudoku_solve (replicate 9 0) 13 (set_solution fork_board 0 1)
    = Ok (false, set_solution fork_board 0 1)
  ∧ cell_fill (set_solution fork_board 0 1) 0 0 2
    = Ok (true, set_solution fork_board 0 2)
  ∧ empties (set_solution fork_board 0 1) = 12%nat
  ∧ empties (set_solution fork_board 0 2) = 12%nat.
Proof. repeat split; vm_compute; reflexivity. Qed.

(** On the board without clues the search returns true, with this grid. *)
Example sudoku_solve_empty_board :
  sudoku_solve (replicate 9 0) 82 empty_board
  = Ok (true, {| puzzle := replicate 81 0; solution := solved_grid |}).
Proof. vm_compute. reflexivity. Qed.

(** C10.  [cell_fill] does not ask for an empty cell, only for a cell that is
    not a clue.  On a cell that holds the digit [d], filling [d] again returns
    false and changes nothing, because the row check finds [d] in the cell
    itself; filling a digit that occurs nowhere in the row, the column and the
    box (such a digit differs from [d]) overwrites [d] and returns true. *)
Theorem cell_fill_overwrite su row col d :
  wf su → coord row → coord col → 1 ≤ d ≤ 9 →
  rd (puzzle su) (row * DIM + col) = EMPTY →
  rd (solution su) (row * DIM + col) = d →
  d ∈ row_of su row
  ∧ violate_row su row d = Ok CONSTRAINT_VIOLATED
  ∧ cell_fill su row col d = Ok (false, su)
  ∧ ∀ num, 1 ≤ num ≤ 9 →
      num ∉ row_of su row → num ∉ col_of su col → num ∉ box_of su row col →
      num ≠ d
      ∧ cell_fill su row col num
        = Ok (true, set_solution su (row * DIM + col) num)
      ∧ rd (solution (set_solution su (row * DIM + col) num)) (row * DIM + col)
        = num.
Proof.
  intros Hwf Hr Hc Hd Hclue Hsol.
  pose proof (occurs_self su row col Hr Hc) as [Hself _]. cbn zeta in Hself.
  rewrite Hsol in Hself. split; [done |]. split; [| split].
  - rewrite violate_row_spec by done. by rewrite decide_True.
  - rewrite cell_fill_eq by done. rewrite decide_False; [done |].
    intros [_ Hocc]. apply Hocc. by left.
  - intros num Hnum Hrow Hcol Hbox. split; [by intros -> |].
    rewrite cell_fill_eq by done. rewrite decide_True.
    + split; [done |]. simpl. apply rd_wr_eq; [| by apply index_lt].
      pose proof (index_bounds row col Hr Hc). lia.
    + split; [done |]. unfold occurs. tauto.
Qed.

(** On [row_missing_board] after 2 has been put at (0, 0). *)
Lemma cell_fill_overwrite_witness :
  cell_fill (set_solution row_missing_board 0 2) 0 0 2
  = Ok (false, set_solution row_missing_board 0 2)
  ∧ cell_fill (set_solution row_missing_board 0 2) 0 0 1
    = Ok (true, set_solution (set_solution row_missing_board 0 2) 0 1).
Proof.
  destruct (cell_fill_overwrite (set_solution row_missing_board 0 2) 0 0 2)
    as (_ & _ & Hsame & Hother);
    [compute_done | compute_done | compute_done | lia | reflexivity | reflexivity |].
  split; [exact Hsame |].
  destruct (Hother 1) as (_ & Hfill & _); [lia | compute_done .. | exact Hfill].
Defined.

(** * Further properties of the code *)

(** ** Hints *)

Lemma for_first_Some_split {I A : Type} (l : list I) (body : I → option A) a :
  for_first l body = Some a →
  ∃ pre i post, l = pre ++ i :: post ∧ body i = Some a
                ∧ Forall (λ x, body x = None) pre.
Proof.
  induction l as [|x l IH]; cbn [for_first]; [done |].
  destruct (body x) as [a' |] eqn:Hx.
  - intros [= ->]. by exists [], x, l.
  - intros (pre & i & post & -> & Hi & Hpre)%IH.
    exists (x :: pre), i, post. split; [done |]. split; [done |]. by constructor.
Qed.

Lemma hint_cell_Some su i j :
  hint_cell su cells = Some (i, j) →
  coord i ∧ coord j ∧ blank su i j ∧ ncand su i j = 1
  ∧ ∀ i' j', coord i' → coord j' → i' * DIM + j' < i * DIM + j →
             blank su i' j' → ncand su i' j' ≠ 1.
Proof.
  unfold hint_cell, blank.
  intros (pre & [i0 j0] & post & Hsplit & Hbody & Hpre)%for_first_Some_split.
  destruct (Z.eqb_spec (rd (solution su) (i0 * DIM + j0)) EMPTY) as [Hb | Hb];
    [| done].
  destruct (Z.eqb_spec (ncand su i0 j0) 1) as [Hn | Hn]; [| done].
  injection Hbody as -> ->.
  assert ((i, j) ∈ cells) as [Hi Hj]%elem_of_cells.
  { rewrite Hsplit. apply elem_of_app. right. apply elem_of_cons. by left. }
  repeat split; try done; try apply Hi; try apply Hj.
  intros i' j' Hi' Hj' Hlt Hb' Hn'.
  pose proof (cells_before pre i j post i' j' Hsplit Hi' Hj' Hlt) as Hin.
  rewrite Forall_forall in Hpre. apply Hpre in Hin.
  rewrite Hb', Hn' in Hin. by rewrite !Z.eqb_refl in Hin.
Qed.

Lemma hint_cell_None su :
  hint_cell su cells = None →
  ∀ i j, coord i → coord j → blank su i j → ncand su i j ≠ 1.
Proof.
  unfold hint_cell, blank. rewrite for_first_None, Forall_forall.
  intros H i j Hi Hj Hb Hn.
  assert ((i, j) ∈ cells) as Hin by by apply elem_of_cells.
  apply H in Hin. rewrite Hb, Hn in Hin. by rewrite !Z.eqb_refl in Hin.
Qed.

(** X1.  [cell_hint] returns true with the coordinates of the first cell in
    row-major order that is empty and for which [cell_choices] returns 1; it
    returns false, leaving [*row] and [*col] alone, exactly when no empty cell
    has exactly one candidate. *)
Theorem cell_hint_spec garbage su row col :
  length garbage = 9%nat →
  ∃ b r c,
    cell_hint garbage su row col = Ok (b, r, c)
    ∧ (b = true →
       coord r ∧ coord c ∧ blank su r c
       ∧ (∀ ch, length ch = 9%nat →
            ∃ ch', cell_choices su r c ch = Ok (1, ch')
                   ∧ take 1 ch' = candidates su r c)
       ∧ (∀ i j ch, coord i → coord j → i * DIM + j < r * DIM + c →
            blank su i j → length ch = 9%nat →
            ∃ n ch', cell_choices su i j ch = Ok (n, ch') ∧ n ≠ 1))
    ∧ (b = false →
       r = row ∧ c = col
       ∧ ∀ i j ch, coord i → coord j → blank su i j → length ch = 9%nat →
           ∃ n ch', cell_choices su i j ch = Ok (n, ch') ∧ n ≠ 1).
Proof.
  intros Hg. unfold cell_hint.
  rewrite cell_hint_loop_eq by (apply coords_cells || lia).
  destruct (hint_cell su cells) as [[i j] |] eqn:Hh.
  - apply hint_cell_Some in Hh as (Hi & Hj & Hb & Hn & Hfirst).
    exists true, i, j. split; [done |]. split; [| done]. intros _.
    split; [done |]. split; [done |]. split; [done |]. split.
    + intros ch Hch. rewrite cell_choices_eq by (done || lia).
      fold (ncand su i j). rewrite Hn. eexists. split; [done |].
      unfold ncand in Hn. replace 1%nat with (length (candidates su i j)) by lia.
      by rewrite take_app_length.
    + intros i' j' ch Hi' Hj' Hlt Hb' Hch. rewrite cell_choices_eq by (done || lia).
      eexists _, _. split; [done |]. by apply Hfirst.
  - exists false, row, col. split; [done |]. split; [done |]. intros _.
    split; [done |]. split; [done |].
    intros i j ch Hi Hj Hb Hch. rewrite cell_choices_eq by (done || lia).
    eexists _, _. split; [done |]. by apply (hint_cell_None su Hh).
Qed.

Lemma cell_hint_spec_witness :
  ∃ b r c, cell_hint (replicate 9 0) dead_board 0 0 = Ok (b, r, c)
           ∧ (b = false → r = 0 ∧ c = 0).
Proof.
  destruct (cell_hint_spec (replicate 9 0) dead_board 0 0) as (b & r & c & Hrun & _ & Hf);
    [reflexivity |].
  exists b, r, c. split; [exact Hrun |]. intros Hb.
  destruct (Hf Hb) as (Hr & Hc & _). split; [exact Hr | exact Hc].
Defined.

Lemma distinct_inj (f : Z → Z) idx j k :
  distinct (f <$> idx) → j ∈ idx → k ∈ idx → f j = f k → f j ≠ EMPTY → j = k.
Proof.
  induction idx as [|x idx IH]; [by intros _ ?%elem_of_nil |].
  rewrite fmap_cons. intros [Hx Hd]%distinct_cons.
  intros [-> | Hj]%elem_of_cons [-> | Hk]%elem_of_cons Heq Hne; auto.
  - destruct (Hx Hne). rewrite Heq. by apply list_elem_of_fmap_2.
  - destruct Hx; [congruence |]. rewrite <- Heq. by apply list_elem_of_fmap_2.
Qed.

(** A digit of a completion does not occur in the units of a cell that is
    still empty. *)
Lemma completion_not_in_unit su s idx k :
  completion su s → unit_idx idx → k ∈ idx →
  rd (solution su) k = EMPTY → distinct (vals s idx) →
  rd (solution s) k ≠ EMPTY → rd (solution s) k ∉ vals su idx.
Proof.
  intros (_ & _ & Hext & _) (Hidx & _ & _) Hk Hblank Hd Hne.
  intros (j & Heq & Hj)%list_elem_of_fmap.
  rewrite Forall_forall in Hidx.
  assert (rd (solution s) j = rd (solution su) j) as Hsame.
  { apply Hext; [by apply Hidx |]. by rewrite <- Heq. }
  assert (k = j) as ->; [| congruence].
  apply (distinct_inj (rd (solution s)) idx); [done | done | done | congruence | done].
Qed.

Lemma completion_candidate su s row col :
  completion su s → coord row → coord col → blank su row col →
  rd (puzzle su) (row * DIM + col) = EMPTY →
  rd (solution s) (row * DIM + col) ∈ candidates su row col.
Proof.
  intros Hcomp Hr Hc Hb Hclue.
  pose proof Hcomp as (Hwf & _ & _ & Hfull & Hdig & Hcons).
  pose proof (index_bounds row col Hr Hc) as Hk.
  pose proof (digits_rd s _ Hdig Hwf Hk) as Hrange.
  rewrite puzzle_solved_true in Hfull. specialize (Hfull row col Hr Hc).
  unfold blank in Hfull.
  destruct (Hcons row col Hr Hc) as (Hrow & Hcol & Hbox).
  apply elem_of_candidates. split; [done |]. split; [unfold EMPTY in *; lia |].
  unfold occurs, row_of, col_of, box_of in *. intros [H | [H | H]]; revert H.
  - apply (completion_not_in_unit su s); auto using unit_row, cell_in_row.
  - apply (completion_not_in_unit su s); auto using unit_col, cell_in_col.
  - apply (completion_not_in_unit su s); auto using unit_box, cell_in_box.
Qed.

(** X2.  The cell [cell_hint] reports has one digit that [cell_fill] accepts;
    every other digit is refused, and every completion of the board has that
    digit in the cell. *)
Theorem cell_hint_forced garbage su row col r c :
  length garbage = 9%nat →
  cell_hint garbage su row col = Ok (true, r, c) →
  ∃ d, 1 ≤ d ≤ 9
       ∧ cell_fill su r c d = Ok (true, set_solution su (r * DIM + c) d)
       ∧ (∀ d', 1 ≤ d' ≤ 9 → d' ≠ d → cell_fill su r c d' = Ok (false, su))
       ∧ (∀ s, completion su s → rd (solution s) (r * DIM + c) = d).
Proof.
  intros Hg. unfold cell_hint.
  rewrite cell_hint_loop_eq by (apply coords_cells || lia).
  destruct (hint_cell su cells) as [[i j] |] eqn:Hh; [| done].
  intros [= -> ->]. apply hint_cell_Some in Hh as (Hr & Hc & Hb & Hn & _).
  assert (rd (puzzle su) (r * DIM + c) = EMPTY) as Hclue
    by (apply candidates_clue; lia).
  unfold ncand in Hn.
  destruct (candidates su r c) as [|d [|d2 l]] eqn:Hcand; simpl in Hn; try lia.
  assert (∀ x, x ∈ candidates su r c ↔ x = d) as Hd.
  { intros x. rewrite Hcand. apply list_elem_of_singleton. }
  pose proof (proj2 (Hd d) eq_refl) as (_ & Hrange & Hocc)%elem_of_candidates.
  exists d. split; [done |]. split; [| split].
  - rewrite cell_fill_eq by done. by rewrite decide_True.
  - intros d' Hd' Hne. rewrite cell_fill_eq by done.
    rewrite decide_False; [done |]. intros [_ Hocc'].
    apply Hne, Hd, elem_of_candidates. done.
  - intros s Hs. by apply Hd, completion_candidate.
Qed.

Lemma cell_hint_forced_witness :
  ∃ d, cell_fill row_missing_board 0 0 d
       = Ok (true, set_solution row_missing_board 0 d).
Proof.
  destruct (cell_hint_forced (replicate 9 0) row_missing_board 0 0 0 0)
    as (d & _ & Hfill & _); [reflexivity | vm_compute; reflexivity |].
  exists d. exact Hfill.
Defined.

(** The cell [hint_cell] finds is the one [least_possible_solutions]
    returns. *)
Lemma hint_least su r c row' col' choices :
  length choices = 9%nat →
  hint_cell su cells = Some (r, c) →
  ∃ choices', least_possible_solutions su row' col' choices = Ok (1, r, c, choices')
              ∧ take 1 choices' = candidates su r c.
Proof.
  intros Hch (Hr & Hc & Hb & Hn & Hfirst)%hint_cell_Some.
  destruct (least_possible_solutions_spec su row' col' choices)
    as (n & r' & c' & ch & -> & [(-> & _ & _ & Hz) | (Hpos & Hr' & Hc' & Hb' & Hn' & Ht & Hmin & Hfst)]);
    [lia | |].
  { specialize (Hz r c Hr Hc Hb). lia. }
  assert (n = 1) as -> by (specialize (Hmin r c Hr Hc Hb); lia).
  assert (r' * DIM + c' = r * DIM + c) as Heq.
  { destruct (Z.lt_trichotomy (r' * DIM + c') (r * DIM + c)) as [Hlt | [? | Hlt]];
      [| done |].
    - by destruct (Hfirst r' c' Hr' Hc' Hlt Hb').
    - by destruct (Hfst r c Hr Hc Hlt Hb). }
  apply index_inj in Heq as [-> ->]; [| done ..].
  by exists ch.
Qed.

(** X3.  When [cell_hint] finds a cell, [least_possible_solutions] returns 1
    and the same cell, with the one candidate [d] of the cell in
    [choices[0]].  So [sudoku_solve] on such a board fills that cell with [d]
    before any other cell: it returns what the search on the board with [d]
    in the cell returns if that is true, and false with the board unchanged
    otherwise. *)
Theorem hint_chosen_first garbage su row col r c row' col' choices :
  length garbage = 9%nat → length choices = 9%nat →
  cell_hint garbage su row col = Ok (true, r, c) →
  ∃ choices' d,
    least_possible_solutions su row' col' choices = Ok (1, r, c, choices')
    ∧ take 1 choices' = candidates su r c
    ∧ candidates su r c = [d]
    ∧ (wf su → ∀ fuel,
         sudoku_solve garbage (S fuel) su
         = match sudoku_solve garbage fuel (set_solution su (r * DIM + c) d) with
           | Ok (true, su') => Ok (true, su')
           | Ok (false, _) => Ok (false, su)
           | AssertFail => AssertFail
           | OutOfFuel => OutOfFuel
           end).
Proof.
  intros Hg Hch. unfold cell_hint.
  rewrite cell_hint_loop_eq by (apply coords_cells || lia).
  destruct (hint_cell su cells) as [[i j] |] eqn:Hh; [| done].
  intros [= -> ->].
  destruct (hint_least su r c row' col' choices Hch Hh) as (ch & Hlps & Htake).
  pose proof Hh as (Hr & Hc & Hb & Hn & _)%hint_cell_Some.
  assert (rd (puzzle su) (r * DIM + c) = EMPTY) as Hclue
    by (apply candidates_clue; lia).
  unfold ncand in Hn.
  destruct (candidates su r c) as [|d [|d2 l]] eqn:Hcand; simpl in Hn; try lia.
  assert (d ∈ candidates su r c) as (_ & Hd & Hocc)%elem_of_candidates
    by (rewrite Hcand; apply list_elem_of_here).
  exists ch, d. split; [done |]. split; [done |]. split; [done |].
  intros Hwf fuel. cbn [sudoku_solve].
  destruct (puzzle_solved su) eqn:Hps.
  { rewrite puzzle_solved_true in Hps. by destruct (Hps r c Hr Hc). }
  cbn zeta.
  destruct (hint_least su r c 0 0 garbage Hg Hh) as (ch0 & -> & Htake0).
  res_simpl. change (1 =? 0) with false. change (range 0 1) with [0].
  cbn [solve_loop]. cbn zeta.
  assert (rd ch0 0 = d) as ->.
  { rewrite Hcand in Htake0. by destruct ch0 as [|x ch0]; [| injection Htake0 as ->]. }
  rewrite cell_fill_eq by done. rewrite decide_True by done. res_simpl. cbn [negb].
  pose proof (index_bounds r c Hr Hc) as Hk.
  pose proof (index_lt su r c Hwf Hr Hc) as Hlt.
  destruct (sudoku_solve garbage fuel (set_solution su (r * DIM + c) d))
    as [[solved s] | |] eqn:Hrun; res_simpl; [| done ..].
  destruct solved; [done |].
  apply sudoku_solve_result in Hrun as [-> _];
    [| done | lia | by apply wf_set_solution].
  rewrite cell_erase_eq by done. simpl puzzle. rewrite decide_True by done.
  res_simpl. rewrite set_solution_set. by rewrite set_solution_blank.
Qed.

(** On [row_missing_board], whose cell (0, 0) has the single candidate 1. *)
Lemma hint_chosen_first_witness :
  ∃ choices' d,
    least_possible_solutions row_missing_board 5 5 (replicate 9 0)
    = Ok (1, 0, 0, choices')
    ∧ candidates row_missing_board 0 0 = [d]
    ∧ sudoku_solve (replicate 9 0) 10 row_missing_board
      = match sudoku_solve (replicate 9 0) 9 (set_solution row_missing_board 0 d) with
        | Ok (true, su') => Ok (true, su')
        | Ok (false, _) => Ok (false, row_missing_board)
        | AssertFail => AssertFail
        | OutOfFuel => OutOfFuel
        end.
Proof.
  destruct (hint_chosen_first (replicate 9 0) row_missing_board 0 0 0 0 5 5
              (replicate 9 0)) as (ch & d & Hrun & _ & Hd & Hsolve);
    [reflexivity | reflexivity | vm_compute; reflexivity |].
  exists ch, d. split; [exact Hrun |]. split; [exact Hd |].
  apply (Hsolve ltac:(compute_done) 9%nat).
Defined.

(** ** The search finds a completion when there is one *)

(** A cell that holds a digit keeps it. *)
Lemma fills_kept su su' k :
  fills su su' → 0 ≤ k → rd (solution su) k ≠ EMPTY →
  rd (solution su') k = rd (solution su) k.
Proof.
  intros H Hk.
  induction H as [su | su row col num su1 su' Hr Hc Hn Hb Hfill _ IH]; [done |].
  intros Hne. apply cell_fill_true in Hfill as (-> & _ & _); [| done ..].
  assert (rd (solution (set_solution su (row * DIM + col) num)) k
          = rd (solution su) k) as Heq.
  { simpl. apply rd_wr_ne; [| done |].
    - pose proof (index_bounds row col Hr Hc). lia.
    - intros <-. by apply Hne. }
  rewrite IH; [done | by rewrite Heq].
Qed.

Lemma puzzle_solved_false su :
  puzzle_solved su = false → ∃ i j, coord i ∧ coord j ∧ blank su i j.
Proof.
  unfold puzzle_solved, blank.
  destruct (for_first cells _) as [b |] eqn:Hf; [| done]. intros _.
  apply for_first_Some in Hf as ([i j] & [Hi Hj]%elem_of_cells & Hf).
  exists i, j. split; [done |]. split; [done |].
  cbn zeta in Hf. by destruct (Z.eqb_spec (rd (solution su) (i * DIM + j)) EMPTY).
Qed.

Lemma elem_of_vals_set_inv su k v idx num :
  0 ≤ k → Forall (λ j, 0 ≤ j < 81) idx → num ≠ v →
  num ∈ vals (set_solution su k v) idx → num ∈ vals su idx.
Proof.
  intros Hk Hidx Hne. unfold vals. rewrite !list_elem_of_fmap.
  intros (j & -> & Hj). exists j. split; [| done]. simpl in *.
  rewrite Forall_forall in Hidx. apply Hidx in Hj.
  destruct (decide (j = k)) as [-> | Hjk]; [| by rewrite rd_wr_ne by lia].
  destruct (decide (Z.to_nat k < length (solution su))%nat) as [Hlt | Hge].
  - by rewrite rd_wr_eq in Hne by lia.
  - unfold wr. by rewrite list_insert_ge by lia.
Qed.

Lemma occurs_set_inv su k v row col num :
  0 ≤ k → coord row → coord col → num ≠ v →
  occurs (set_solution su k v) row col num → occurs su row col num.
Proof.
  intros Hk Hr Hc Hne. unfold occurs, row_of, col_of, box_of.
  intros [H | [H | H]]; [left | right; left | right; right];
    (eapply elem_of_vals_set_inv; [done | | done | done]).
  - by apply unit_row.
  - by apply unit_col.
  - by apply unit_box.
Qed.

Lemma completion_set su s row col :
  completion su s → coord row → coord col →
  completion (set_solution su (row * DIM + col) (rd (solution s) (row * DIM + col))) s.
Proof.
  intros (Hwf & Hp & Hext & Hrest) Hr Hc.
  split; [done |]. split; [done |]. split; [| done].
  intros j Hj. simpl. pose proof (index_bounds row col Hr Hc).
  destruct (decide (j = row * DIM + col)) as [-> | Hne].
  - destruct (decide (Z.to_nat (row * DIM + col) < length (solution su))%nat).
    + by rewrite rd_wr_eq by lia.
    + unfold wr. rewrite list_insert_ge by lia. by apply Hext.
  - rewrite rd_wr_ne by lia. by apply Hext.
Qed.

Section solve_complete.
Context (solve : sudoku → result (bool * sudoku)).
Context (su0 s : sudoku) (row col : Z) (choices : list Z).
Context (Hwf : wf su0) (Hrow : coord row) (Hcol : coord col).
Context (Hblank : blank su0 row col).
Context (Hclue : rd (puzzle su0) (row * DIM + col) = EMPTY).
Context (Hkept : clues_kept su0) (Hcomp : completion su0 s).
Context (Hsolve : ∀ su, wf su → (empties su < empties su0)%nat →
           ∃ b su', solve su = Ok (b, su')
                    ∧ (b = false → su' = su)
                    ∧ (b = true → fills su su' ∧ puzzle_solved su' = true)).
Context (Hfind : ∀ su, wf su → clues_kept su → (empties su < empties su0)%nat →
           completion su s → ∃ su', solve su = Ok (true, su')).

Lemma solve_loop_complete idxs v :
  v ≠ rd (solution s) (row * DIM + col) →
  Forall (λ i, 1 ≤ rd choices i ≤ 9) idxs →
  (∃ i, i ∈ idxs ∧ rd choices i = rd (solution s) (row * DIM + col)) →
  ∃ su', solve_loop solve row col choices idxs
                    (set_solution su0 (row * DIM + col) v) = Ok (true, su').
Proof.
  pose proof (index_bounds row col Hrow Hcol) as Hk.
  pose proof (index_lt su0 row col Hwf Hrow Hcol) as Hlt.
  pose proof (completion_candidate su0 s row col Hcomp Hrow Hcol Hblank Hclue)
    as (_ & Hrange & Hocc)%elem_of_candidates.
  intros Hv Hidxs. revert v Hv.
  induction Hidxs as [|i idxs Hi Hidxs IH]; intros v Hv (i0 & Hin & Hi0).
  { by apply elem_of_nil in Hin. }
  cbn [solve_loop]. cbn zeta. rewrite cell_fill_eq by done. simpl puzzle. res_simpl.
  assert (∀ su1, wf su1 → empties (set_solution su0 (row * DIM + col) (rd choices i))
                          < empties su0)%nat as Hless.
  { intros _ _. rewrite <- (empties_set su0 (row * DIM + col) (rd choices i));
      [lia | lia | done | done | unfold EMPTY; lia]. }
  case_decide as Hfill; cbn [negb].
  - rewrite set_solution_set.
    destruct (decide (rd choices i = rd (solution s) (row * DIM + col))) as [Heq | Hne].
    + destruct (Hfind (set_solution su0 (row * DIM + col) (rd choices i)))
        as (su' & ->).
      * by apply wf_set_solution.
      * apply clues_kept_set; [lia | done ..].
      * by apply (Hless su0).
      * rewrite Heq. by apply completion_set.
      * res_simpl. by exists su'.
    + destruct (Hsolve (set_solution su0 (row * DIM + col) (rd choices i)))
        as (b & su' & -> & Hfalse & _).
      * by apply wf_set_solution.
      * by apply (Hless su0).
      * res_simpl. destruct b; [by exists su' |].
        rewrite (Hfalse eq_refl). apply IH; [done |].
        exists i0. split; [| done].
        apply elem_of_cons in Hin as [-> | Hin]; [done | done].
  - assert (rd choices i ≠ rd (solution s) (row * DIM + col)) as Hne.
    { intros Heq. apply Hfill. split; [done |]. rewrite Heq. intros Hocc'.
      apply Hocc. by apply (occurs_set_inv su0 (row * DIM + col) v); [lia | ..]. }
    apply IH; [done |]. exists i0. split; [| done].
    apply elem_of_cons in Hin as [-> | Hin]; [done | done].
Qed.
End solve_complete.

Lemma sudoku_solve_complete garbage fuel su s :
  (9 ≤ length garbage)%nat → wf su → clues_kept su → completion su s →
  (empties su < fuel)%nat →
  ∃ su', sudoku_solve garbage fuel su = Ok (true, su').
Proof.
  intros Hg. revert su.
  induction fuel as [|fuel IH]; intros su Hwf Hkept Hcomp Hfuel; [lia |].
  cbn [sudoku_solve].
  destruct (puzzle_solved su) eqn:Hsolved; [by exists su |]. cbn zeta.
  assert (∀ i j, coord i → coord j → blank su i j →
                 rd (puzzle su) (i * DIM + j) = EMPTY) as Hnoclue.
  { intros i j Hi Hj Hb.
    destruct (decide (rd (puzzle su) (i * DIM + j) = EMPTY)) as [? | Hne]; [done |].
    apply Hkept in Hne; [| by apply index_bounds]. unfold blank in Hb. congruence. }
  destruct (least_possible_solutions_spec su 0 0 garbage Hg)
    as (n & r & c & ch & -> & [(-> & _ & _ & Hz) | (Hn & Hr & Hc & Hb & Hnc & Htake & _)]).
  { exfalso. apply puzzle_solved_false in Hsolved as (i & j & Hi & Hj & Hb).
    pose proof (completion_candidate su s i j Hcomp Hi Hj Hb (Hnoclue i j Hi Hj Hb))
      as Hin.
    specialize (Hz i j Hi Hj Hb). apply ncand_zero in Hz. rewrite Hz in Hin.
    by apply elem_of_nil in Hin. }
  res_simpl. destruct (Z.eqb_spec n 0) as [-> | _]; [lia |].
  pose proof (Hnoclue r c Hr Hc Hb) as Hclue.
  pose proof (completion_candidate su s r c Hcomp Hr Hc Hb Hclue) as Hin.
  destruct (solve_loop_complete (sudoku_solve garbage fuel) su s r c ch Hwf Hr Hc Hb)
    with (idxs := range 0 n) (v := EMPTY) as (su' & Hrun); try done.
  - intros su1 Hwf1 Hlt. apply sudoku_solve_total; [done | done | lia].
  - intros su1 Hwf1 Hk1 Hlt Hc1. apply IH; [done | done | done | lia].
  - apply elem_of_candidates in Hin. unfold EMPTY. lia.
  - eapply Forall_impl; [by apply (choices_read su r c) |].
    intros i Hi. simpl in Hi. apply elem_of_candidates in Hi. tauto.
  - rewrite <- Htake in Hin. apply list_elem_of_lookup in Hin as [i Hi].
    pose proof (lookup_lt_Some _ _ _ Hi) as Hlt. rewrite length_take in Hlt.
    rewrite lookup_take_lt in Hi by lia.
    exists (Z.of_nat i). split.
    + unfold range. apply elem_of_seqZ. lia.
    + unfold rd. rewrite Nat2Z.id. by apply list_lookup_total_correct.
  - rewrite set_solution_blank in Hrun by (by apply index_lt || done).
    by exists su'.
Qed.

(** X9.  On a board whose clue cells show their clue, [sudoku_solve] decides
    whether the grid can be completed: it returns true whenever there is a
    completion, so false only if there is none, leaving the board as it was;
    and when it returns true on a board of digits without repetition the
    board it leaves is a completion. *)
Theorem sudoku_solve_decides garbage fuel su :
  length garbage = 9%nat → wf su → clues_kept su → (empties su < fuel)%nat →
  ∃ b su',
    sudoku_solve garbage fuel su = Ok (b, su')
    ∧ (b = true → digits su → consistent su → completion su su')
    ∧ (b = false → su' = su ∧ ∀ s, ¬ completion su s)
    ∧ (∀ s, completion su s → b = true).
Proof.
  intros Hg Hwf Hkept Hfuel.
  destruct (sudoku_solve_total garbage fuel su) as (b & su' & Hrun & Hfalse & Htrue);
    [lia | done | done |].
  exists b, su'. split; [done |].
  assert (∀ s, completion su s → b = true) as Hfound.
  { intros s Hs.
    destruct (sudoku_solve_complete garbage fuel su s) as (su'' & Hrun');
      [lia | done ..|].
    congruence. }
  split; [| split; [| done]].
  - intros Hb Hd Hc. destruct (Htrue Hb) as [Hf Hs].
    destruct (fills_consistent su su' Hf Hwf Hc) as [Hwf' Hc'].
    split; [done |]. split; [by apply fills_puzzle |]. split.
    + intros k Hk Hne. apply fills_kept; [done | lia | done].
    + split; [done |]. split; [by apply (fills_digits su) | done].
  - intros ->. split; [by apply Hfalse |]. intros s Hs.
    by apply Hfound in Hs.
Qed.

Lemma sudoku_solve_decides_witness : ¬ ∃ s, completion stuck_board s.
Proof.
  destruct (sudoku_solve_decides (replicate 9 0) 82 stuck_board)
    as (b & su' & Hrun & _ & Hnone & _);
    [reflexivity | compute_done | by intros k _ _ | vm_compute; lia |].
  assert (sudoku_solve (replicate 9 0) 82 stuck_board = Ok (false, stuck_board))
    as Hval by (vm_compute; reflexivity).
  rewrite Hval in Hrun. injection Hrun as <- _.
  intros [s Hs]. destruct (Hnone eq_refl) as [_ Hno]. exact (Hno s Hs).
Defined.

Lemma fills_changed su su' k :
  fills su su' → 0 ≤ k →
  rd (solution su') k ≠ rd (solution su) k →
  rd (solution su) k = EMPTY ∧ rd (puzzle su) k = EMPTY.
Proof.
  intros H Hk.
  induction H as [su | su row col num su1 su' Hr Hc Hn Hb Hfill _ IH]; [done |].
  intros Hne. apply cell_fill_true in Hfill as (-> & Hclue & _); [| done ..].
  pose proof (index_bounds row col Hr Hc).
  destruct (decide (k = row * DIM + col)) as [-> | Hk']; [done |].
  simpl in IH. rewrite rd_wr_ne in IH by lia. by apply IH.
Qed.

(** X10.  When [sudoku_solve] returns true it has only filled in cells: the
    clues are the same, every cell that held a digit holds it still, and a
    cell whose content differs was empty and is not a clue. *)
Theorem sudoku_solve_extends garbage fuel su su' :
  length garbage = 9%nat → wf su →
  sudoku_solve garbage fuel su = Ok (true, su') →
  puzzle su' = puzzle su
  ∧ length (solution su') = 81%nat
  ∧ (∀ k, 0 ≤ k < 81 → rd (solution su) k ≠ EMPTY →
       rd (solution su') k = rd (solution su) k)
  ∧ (∀ k, 0 ≤ k < 81 → rd (solution su') k ≠ rd (solution su) k →
       rd (solution su) k = EMPTY ∧ rd (puzzle su) k = EMPTY).
Proof.
  intros Hg Hwf Hrun.
  apply sudoku_solve_result in Hrun as [_ Htrue]; [| lia | done].
  destruct (Htrue eq_refl) as [Hf _].
  split; [by apply fills_puzzle |]. split; [by apply (fills_wf su su') |]. split.
  - intros k Hk Hne. apply fills_kept; [done | lia | done].
  - intros k Hk Hne. apply (fills_changed su su'); [done | lia | done].
Qed.

Lemma sudoku_solve_extends_witness :
  ∃ su', sudoku_solve (replicate 9 0) 82 row_missing_board = Ok (true, su')
         ∧ puzzle su' = puzzle row_missing_board.
Proof.
  assert (∃ su', sudoku_solve (replicate 9 0) 82 row_missing_board = Ok (true, su'))
    as [su' Hrun] by (eexists; vm_compute; reflexivity).
  destruct (sudoku_solve_extends (replicate 9 0) 82 row_missing_board su'
              eq_refl ltac:(compute_done) Hrun) as (Hp & _).
  exists su'. split; [exact Hrun | exact Hp].
Defined.

(** ** Fill, erase and reset *)

(** X4.  [solution_reset] makes the working grid equal to the puzzle, cell for
    cell, and does not touch the puzzle. *)
Theorem solution_reset_spec su :
  wf su →
  puzzle (solution_reset su) = puzzle su
  ∧ solution (solution_reset su) = puzzle su
  ∧ (∀ k, 0 ≤ k < 81 →
       rd (solution (solution_reset su)) k = rd (puzzle su) k)
  ∧ empties (solution_reset su) = length (filter (λ v, v = EMPTY) (puzzle su)).
Proof. intros Hwf. by rewrite solution_reset_eq. Qed.

Lemma solution_reset_spec_witness :
  solution (solution_reset (set_solution row_missing_board 0 1))
  = puzzle row_missing_board.
Proof.
  destruct (solution_reset_spec (set_solution row_missing_board 0 1))
    as (_ & Hsol & _); [compute_done | exact Hsol].
Defined.

Lemma run_ops_app garbage fuel os1 os2 su :
  run_ops garbage fuel (os1 ++ os2) su
  = run_ops garbage fuel os1 su ≫= run_ops garbage fuel os2.
Proof.
  revert su. induction os1 as [|o os1 IH]; intros su; [done |].
  cbn [app run_ops]. destruct (run_op garbage fuel o su) as [[v su1] | |];
    res_simpl; [apply IH | done ..].
Qed.

(** X5.  Whatever calls were made on a board that started with its solution
    equal to its puzzle, a final [solution_reset] gives back the start board. *)
Theorem reset_restores garbage fuel os su :
  length garbage = 9%nat → (81 < fuel)%nat →
  wf su → solution su = puzzle su → Forall op_ok os →
  run_ops garbage fuel (os ++ [Reset]) su = Ok su.
Proof.
  intros Hg Hfuel Hwf Hstart Hos. rewrite run_ops_app.
  destruct (run_ops_total garbage fuel os su) as (su' & -> & Hwf' & Hp & _);
    [lia | done ..|].
  res_simpl. cbn [run_ops run_op]. res_simpl.
  rewrite solution_reset_eq by done. rewrite Hp.
  destruct su as [p s]. simpl in *. by subst s.
Qed.

Lemma reset_restores_witness :
  run_ops (replicate 9 0) 82 [Fill 0 0 2; Solve; Erase 0 3; Reset] row_missing_board
  = Ok row_missing_board.
Proof.
  apply (reset_restores (replicate 9 0) 82 [Fill 0 0 2; Solve; Erase 0 3]);
    [reflexivity | lia | compute_done | reflexivity |].
  repeat (constructor; [compute_done |]). constructor.
Defined.

(** X6.  [cell_erase] undoes a [cell_fill]: after a fill of an empty cell that
    returned true, erasing the cell returns true and gives back the board as
    it was before the fill. *)
Theorem fill_erase_roundtrip su row col num su1 :
  wf su → coord row → coord col → 1 ≤ num ≤ 9 → blank su row col →
  cell_fill su row col num = Ok (true, su1) →
  cell_erase su1 row col = Ok (true, su).
Proof.
  intros Hwf Hr Hc Hn Hb Hfill.
  apply cell_fill_true in Hfill as (-> & Hclue & _); [| done ..].
  rewrite cell_erase_eq by done. simpl puzzle. rewrite decide_True by done.
  rewrite set_solution_set. rewrite set_solution_blank; [done | | done].
  by apply index_lt.
Qed.

Lemma fill_erase_roundtrip_witness :
  cell_erase (set_solution row_missing_board 0 1) 0 0 = Ok (true, row_missing_board).
Proof.
  apply (fill_erase_roundtrip row_missing_board 0 0 1);
    [compute_done | compute_done | compute_done | lia | reflexivity | reflexivity].
Defined.

(** X7.  On a board without repeated digit, [cell_fill] undoes a [cell_erase]:
    after erasing a cell that is not a clue, the digit it held can be filled
    in again, which gives back the board as it was. *)
Theorem erase_fill_roundtrip su row col d :
  wf su → consistent su → coord row → coord col → 1 ≤ d ≤ 9 →
  rd (puzzle su) (row * DIM + col) = EMPTY →
  rd (solution su) (row * DIM + col) = d →
  ∃ su1, cell_erase su row col = Ok (true, su1)
         ∧ blank su1 row col
         ∧ cell_fill su1 row col d = Ok (true, su).
Proof.
  intros Hwf Hcons Hr Hc Hd Hclue Hsol.
  pose proof (index_bounds row col Hr Hc) as Hk.
  pose proof (index_lt su row col Hwf Hr Hc) as Hlt.
  exists (set_solution su (row * DIM + col) EMPTY).
  rewrite cell_erase_eq by done. rewrite decide_True by done.
  split; [done |]. split.
  { unfold blank. simpl. apply rd_wr_eq; [lia | done]. }
  rewrite cell_fill_eq by done. simpl puzzle. rewrite decide_True.
  { rewrite set_solution_set, <- Hsol. by rewrite set_solution_id. }
  split; [done |].
  assert (∀ idx, unit_idx idx → row * DIM + col ∈ idx → distinct (vals su idx) →
                 d ∉ vals (set_solution su (row * DIM + col) EMPTY) idx) as Hunit.
  { intros idx (Hidx & _ & _) Hin Hdist (j & Hj & Hjin)%list_elem_of_fmap.
    rewrite Forall_forall in Hidx. pose proof (Hidx _ Hjin) as Hjr. simpl in Hj.
    destruct (decide (j = row * DIM + col)) as [-> | Hne].
    - rewrite rd_wr_eq in Hj by (lia || done). unfold EMPTY in Hj. lia.
    - rewrite rd_wr_ne in Hj by lia. apply Hne.
      apply (distinct_inj (rd (solution su)) idx);
        [done | done | done | congruence | unfold EMPTY; lia]. }
  destruct (Hcons row col Hr Hc) as (Hrow & Hcol & Hbox).
  unfold occurs, row_of, col_of, box_of in *. intros [H | [H | H]]; revert H.
  - apply Hunit; auto using unit_row, cell_in_row.
  - apply Hunit; auto using unit_col, cell_in_col.
  - apply Hunit; auto using unit_box, cell_in_box.
Qed.

Lemma erase_fill_roundtrip_witness :
  ∃ su1, cell_erase (set_solution row_missing_board 0 1) 0 0 = Ok (true, su1)
         ∧ cell_fill su1 0 0 1 = Ok (true, set_solution row_missing_board 0 1).
Proof.
  destruct (erase_fill_roundtrip (set_solution row_missing_board 0 1) 0 0 1)
    as (su1 & He & _ & Hf);
    [compute_done | compute_done | compute_done | compute_done | lia
    | reflexivity | reflexivity |].
  exists su1. split; [exact He | exact Hf].
Defined.

(** ** The grid stays free of repetitions *)

Lemma run_op_keeps_consistent garbage fuel o su0 su v su' :
  (9 ≤ length garbage)%nat → op_ok o →
  wf su0 → solution su0 = puzzle su0 → digits su0 → consistent su0 →
  wf su → puzzle su = puzzle su0 → digits su → consistent su →
  run_op garbage fuel o su = Ok (v, su') →
  digits su' ∧ consistent su'.
Proof.
  intros Hg Hok Hwf0 Hstart Hd0 Hc0 Hwf Hp Hd Hc.
  destruct o as [| row col | row col num | | row col | row col |]; cbn [run_op op_ok] in *.
  - intros [= <- <-]. rewrite solution_reset_eq, Hp, <- Hstart by done.
    by destruct su0.
  - destruct Hok as [Hr Hcol]. rewrite cell_erase_eq by done. res_simpl.
    case_decide as Hclue; intros [= <- <-]; [| done]. split.
    + apply digits_set; [unfold EMPTY; lia | done].
    + apply consistent_set; auto.
  - destruct Hok as (Hr & Hcol & Hn). rewrite cell_fill_eq by done. res_simpl.
    case_decide as Hfill; intros [= <- <-]; [| done]. split.
    + apply digits_set; [lia | done].
    + apply consistent_set; [done .. | tauto | done].
  - by intros [= <- <-].
  - destruct (cell_choices su row col garbage) as [[n ch] | |]; res_simpl; [| done ..].
    by intros [= <- <-].
  - destruct (cell_hint garbage su row col) as [[[b r] c] | |]; res_simpl; [| done ..].
    by intros [= <- <-].
  - destruct (sudoku_solve garbage fuel su) as [[b s] | |] eqn:Hrun; res_simpl;
      [| done ..].
    intros [= <- <-].
    apply sudoku_solve_result in Hrun as [Hfalse Htrue]; [| done ..].
    destruct b; [| by rewrite Hfalse].
    destruct (Htrue eq_refl) as [Hf _].
    split; [by apply (fills_digits su) |]. by apply (fills_consistent su).
Qed.

(** X8.  Start from a board whose solution is its puzzle, with digits only and
    none repeated in a row, a column or a box.  After any sequence of calls
    the working grid still holds digits only and repeats none. *)
Theorem calls_keep_consistent garbage fuel os su :
  length garbage = 9%nat → (81 < fuel)%nat →
  wf su → solution su = puzzle su → digits su → consistent su →
  Forall op_ok os →
  ∃ su', run_ops garbage fuel os su = Ok su' ∧ digits su' ∧ consistent su'.
Proof.
  intros Hg Hfuel Hwf0 Hstart Hd0 Hc0 Hos.
  assert (∀ s, wf s → puzzle s = puzzle su → digits s → consistent s →
               ∃ su', run_ops garbage fuel os s = Ok su' ∧ digits su' ∧ consistent su')
    as Hgen; [| by apply Hgen].
  induction Hos as [|o os Ho _ IH]; intros s Hwf Hp Hd Hc; cbn [run_ops].
  - by exists s.
  - destruct (run_op_total garbage fuel o s) as (v & s1 & Hrun); [lia | done ..|].
    rewrite Hrun. res_simpl.
    destruct (run_op_keeps garbage fuel o s v s1) as (Hwf1 & Hp1 & _); [lia | done ..|].
    destruct (run_op_keeps_consistent garbage fuel o su s v s1) as [Hd1 Hc1];
      [lia | done ..|].
    apply IH; [done | congruence | done | done].
Qed.

Lemma calls_keep_consistent_witness :
  ∃ su', run_ops (replicate 9 0) 82 [Fill 0 0 2; Fill 0 1 1; Solve; Erase 0 0]
                 row_missing_board = Ok su'
         ∧ consistent su'.
Proof.
  destruct (calls_keep_consistent (replicate 9 0) 82
              [Fill 0 0 2; Fill 0 1 1; Solve; Erase 0 0] row_missing_board)
    as (su' & Hrun & _ & Hc);
    [reflexivity | lia | compute_done | reflexivity | compute_done | compute_done | |].
  { repeat (constructor; [compute_done |]). constructor. }
  exists su'. split; [exact Hrun | exact Hc].
Defined.

(** ** Candidates and fills *)

(** X11.  The digits [cell_choices] writes are the digits [cell_fill] accepts:
    a fill of the cell returns true for a digit among the choices and false,
    without change, for any other digit. *)
Theorem choices_fill_agree su row col choices d :
  coord row → coord col → length choices = 9%nat → 1 ≤ d ≤ 9 →
  ∃ n choices',
    cell_choices su row col choices = Ok (n, choices')
    ∧ (d ∈ take (Z.to_nat n) choices' →
       cell_fill su row col d = Ok (true, set_solution su (row * DIM + col) d))
    ∧ (d ∉ take (Z.to_nat n) choices' →
       cell_fill su row col d = Ok (false, su)).
Proof.
  intros Hr Hc Hlen Hd.
  destruct (cell_choices su row col choices) as [[n ch] | |] eqn:Hcc;
    [| by rewrite cell_choices_eq in Hcc by (done || lia) ..].
  apply cell_choices_length in Hcc as (-> & _ & Htake); [| done | done | lia].
  exists (ncand su row col), ch. split; [done |].
  rewrite Htake, cell_fill_eq by done.
  split; intros Hin.
  - apply elem_of_candidates in Hin as (Hclue & _ & Hocc). by rewrite decide_True.
  - rewrite decide_False; [done |]. intros [Hclue Hocc].
    apply Hin, elem_of_candidates. done.
Qed.

Lemma choices_fill_agree_witness :
  ∃ n choices',
    cell_choices dead_board 0 6 (replicate 9 0) = Ok (n, choices')
    ∧ (7 ∈ take (Z.to_nat n) choices' →
       cell_fill dead_board 0 6 7 = Ok (true, set_solution dead_board 6 7)).
Proof.
  destruct (choices_fill_agree dead_board 0 6 (replicate 9 0) 7)
    as (n & ch & Hcc & Hin & _); [compute_done | compute_done | reflexivity | lia |].
  exists n, ch. split; [exact Hcc | exact Hin].
Defined.

(** A digit that [cell_fill] accepts on a board is accepted as well after
    another value has been written into the cell. *)
Lemma cell_fill_over su row col v d :
  coord row → coord col → d ∈ candidates su row col → d ≠ v →
  cell_fill (set_solution su (row * DIM + col) v) row col d
  = Ok (true, set_solution su (row * DIM + col) d).
Proof.
  intros Hr Hc (Hclue & Hd & Hocc)%elem_of_candidates Hne.
  pose proof (index_bounds row col Hr Hc).
  rewrite cell_fill_eq by done. simpl puzzle. rewrite decide_True.
  - by rewrite set_solution_set.
  - split; [done |]. intros Hocc'. apply Hocc.
    by apply (occurs_set_inv su (row * DIM + col) v); [lia | ..].
Qed.

Lemma NoDup_candidates su row col : NoDup (candidates su row col).
Proof.
  unfold candidates. case_decide; [| apply NoDup_nil_2].
  apply NoDup_filter, NoDup_seqZ.
Qed.

(** What the loop of [sudoku_solve] reads from [choices]. *)
Lemma choices_range su row col choices n :
  take (Z.to_nat n) choices = candidates su row col →
  ncand su row col = n →
  rd choices <$> range 0 n = candidates su row col.
Proof.
  intros Htake Hn. unfold ncand in Hn.
  etrans; [| apply rd_seqZ]. rewrite Hn. unfold range. rewrite Z.sub_0_r.
  apply Forall_fmap_ext, Forall_forall. intros i Hi%elem_of_seqZ.
  rewrite <- Htake. symmetry. apply rd_take. lia.
Qed.

Lemma solve_loop_strict_eq solve1 solve2 su0 row col choices idxs v :
  wf su0 → coord row → coord col →
  (∀ s s', wf s → solve1 s = Ok (false, s') → s' = s) →
  (∀ s, wf s → solve2 s = solve1 s) →
  Forall (λ i, rd choices i ∈ candidates su0 row col) idxs →
  NoDup (rd choices <$> idxs) →
  v ∉ rd choices <$> idxs →
  solve_loop_strict solve2 row col choices idxs
                    (set_solution su0 (row * DIM + col) v)
  = solve_loop solve1 row col choices idxs (set_solution su0 (row * DIM + col) v).
Proof.
  intros Hwf Hr Hc Hrestores Hagree Hidxs. revert v.
  induction Hidxs as [|i idxs Hi _ IH]; intros v Hnd Hv;
    cbn [solve_loop_strict solve_loop]; [done |].
  cbn zeta. rewrite fmap_cons in Hnd, Hv.
  apply NoDup_cons in Hnd as [Hi' Hnd]. apply not_elem_of_cons in Hv as [Hne Hv].
  rewrite cell_fill_over by done. res_simpl. cbn [negb assert]. res_simpl.
  assert (wf (set_solution su0 (row * DIM + col) (rd choices i))) as Hwf1
    by by apply wf_set_solution.
  rewrite Hagree by done.
  destruct (solve1 (set_solution su0 (row * DIM + col) (rd choices i)))
    as [[solved s1] | |] eqn:Hrun; res_simpl; [| done ..].
  destruct solved; [done |].
  rewrite (Hrestores _ _ Hwf1 Hrun). by apply IH.
Qed.

Lemma sudoku_solve_strict_eq garbage fuel su :
  (9 ≤ length garbage)%nat → wf su →
  sudoku_solve_strict garbage fuel su = sudoku_solve garbage fuel su.
Proof.
  intros Hg. revert su. induction fuel as [|fuel IH]; intros su Hwf; [done |].
  cbn [sudoku_solve_strict sudoku_solve].
  destruct (puzzle_solved su); [done |]. cbn zeta.
  destruct (least_possible_solutions_spec su 0 0 garbage Hg)
    as (n & r & c & ch & -> & [(-> & _) | (Hn & Hr & Hc & Hb & Hnc & Htake & _)]);
    res_simpl; [done |].
  destruct (Z.eqb_spec n 0) as [-> | _]; [lia |].
  rewrite <- (set_solution_blank su (r * DIM + c))
    by (by apply index_lt || done).
  pose proof (choices_range su r c ch n Htake Hnc) as Hread.
  apply solve_loop_strict_eq; try done.
  - intros s s' Hs Hrun.
    by apply sudoku_solve_result in Hrun as [Hfalse _]; [apply Hfalse | ..].
  - by apply (choices_read su r c).
  - rewrite Hread. apply NoDup_candidates.
  - rewrite Hread. intros (_ & Hrange & _)%elem_of_candidates.
    unfold EMPTY in Hrange. lia.
Qed.

(** X12.  A candidate of a cell can still be filled in after another candidate
    has been written into that cell.  So the [cell_fill] calls in the loop of
    [sudoku_solve], which overwrite the candidate tried before, never return
    false: the search with these calls asserted returns what [sudoku_solve]
    returns, and it returns, true or false, when the call depth is above the
    number of empty cells. *)
Theorem candidate_stays_fillable su :
  (∀ row col v d,
     coord row → coord col →
     v ∈ candidates su row col → d ∈ candidates su row col → d ≠ v →
     cell_fill (set_solution su (row * DIM + col) v) row col d
     = Ok (true, set_solution su (row * DIM + col) d))
  ∧ (∀ garbage fuel,
       length garbage = 9%nat → wf su →
       sudoku_solve_strict garbage fuel su = sudoku_solve garbage fuel su
       ∧ ((empties su < fuel)%nat →
          ∃ b su', sudoku_solve_strict garbage fuel su = Ok (b, su'))).
Proof.
  split.
  - intros row col v d Hr Hc _ Hd Hne. by apply cell_fill_over.
  - intros garbage fuel Hg Hwf.
    assert (sudoku_solve_strict garbage fuel su = sudoku_solve garbage fuel su)
      as Heq by (apply sudoku_solve_strict_eq; [lia | done]).
    split; [done |]. intros Hfuel. rewrite Heq.
    destruct (sudoku_solve_total garbage fuel su) as (b & su' & Hrun & _);
      [lia | done | done |].
    by exists b, su'.
Qed.

(** On [dead_board], where 7 and 8 are candidates of cell (0, 6), and on
    [fork_board], where the loop fills 1 and then 2 into cell (0, 0). *)
Lemma candidate_stays_fillable_witness :
  cell_fill (set_solution dead_board 6 7) 0 6 8
  = Ok (true, set_solution dead_board 6 8)
  ∧ sudoku_solve_strict (replicate 9 0) 14 fork_board
    = sudoku_solve (replicate 9 0) 14 fork_board.
Proof.
  split.
  - apply (proj1 (candidate_stays_fillable dead_board) 0 6 7 8);
      [compute_done | compute_done | compute_done | compute_done | lia].
  - apply (proj2 (candidate_stays_fillable fork_board) (replicate 9 0) 14%nat);
      [reflexivity | compute_done].
Defined.

(** ** Full boards *)

Lemma blank_free_iff su :
  wf su → (∀ i j, coord i → coord j → ¬ blank su i j) ↔ EMPTY ∉ solution su.
Proof.
  intros [_ Hlen]. unfold blank, rd. split.
  - intros H [k Hk]%list_elem_of_lookup.
    pose proof (lookup_lt_Some _ _ _ Hk) as Hlt.
    destruct (index_coords (Z.of_nat k)) as (i & j & Hi & Hj & Heq); [lia |].
    apply (H i j Hi Hj). rewrite <- Heq, Nat2Z.id.
    by apply list_lookup_total_correct.
  - intros H i j Hi Hj Hb. apply H. rewrite <- Hb.
    apply list_elem_of_lookup_total_2.
    pose proof (index_bounds i j Hi Hj). lia.
Qed.

(** X13.  [puzzle_solved] returns true exactly when no cell of the working
    grid is empty, that is when the count of empty cells is 0.  It does not
    look at the digits. *)
Theorem puzzle_solved_iff su :
  wf su →
  (puzzle_solved su = true ↔ EMPTY ∉ solution su)
  ∧ (puzzle_solved su = true ↔ empties su = 0%nat)
  ∧ (puzzle_solved su = false ↔
     ∃ i j, coord i ∧ coord j ∧ rd (solution su) (i * DIM + j) = EMPTY).
Proof.
  intros Hwf.
  assert (puzzle_solved su = true ↔ EMPTY ∉ solution su) as H1.
  { by rewrite puzzle_solved_true, blank_free_iff. }
  split; [done |]. split.
  - rewrite H1. unfold empties. rewrite length_zero_iff_nil. split.
    + intros Hnot. destruct (filter _ _) as [|x l] eqn:Hf; [done |].
      assert (x ∈ filter (λ v, v = EMPTY) (solution su)) as Hx
        by (rewrite Hf; apply elem_of_cons; by left).
      apply list_elem_of_filter in Hx as [-> Hx]. done.
    + intros Hf Hin.
      assert (EMPTY ∈ filter (λ v, v = EMPTY) (solution su)) as Hx
        by by apply list_elem_of_filter.
      rewrite Hf in Hx. by apply elem_of_nil in Hx.
  - split; [apply puzzle_solved_false |].
    intros (i & j & Hi & Hj & Hb). destruct (puzzle_solved su) eqn:Hs; [| done].
    rewrite puzzle_solved_true in Hs. by destruct (Hs i j Hi Hj).
Qed.

Lemma puzzle_solved_iff_witness :
  puzzle_solved ones_board = true ∧ puzzle_solved row_missing_board = false.
Proof.
  split.
  - destruct (puzzle_solved_iff ones_board) as (H & _); [compute_done |].
    apply H. compute_done.
  - destruct (puzzle_solved_iff row_missing_board) as (_ & _ & H); [compute_done |].
    apply H. exists 0, 0. repeat split; compute_done.
Defined.

(** X14.  On a full board of digits without repetition nothing is left to
    do: [cell_fill] returns false for every cell and digit, [cell_choices]
    returns 0 for every cell, [cell_hint] returns false and
    [least_possible_solutions] returns 0. *)
Theorem solved_board_final garbage su :
  length garbage = 9%nat → wf su → digits su → consistent su →
  puzzle_solved su = true →
  (∀ row col num, coord row → coord col → 1 ≤ num ≤ 9 →
     cell_fill su row col num = Ok (false, su))
  ∧ (∀ row col, coord row → coord col →
       cell_choices su row col garbage = Ok (0, garbage))
  ∧ (∀ row col, cell_hint garbage su row col = Ok (false, row, col))
  ∧ (∀ row col, ∃ choices,
       least_possible_solutions su row col garbage = Ok (0, row, col, choices)).
Proof.
  intros Hg Hwf Hd Hc Hs.
  assert (∀ row col num, coord row → coord col → 1 ≤ num ≤ 9 →
                         occurs su row col num) as Hocc.
  { intros row col num Hr Hcol Hn. left. destruct (Hc row col Hr Hcol) as (Hrow & _).
    unfold row_of in *. rewrite (unit_perm su (row_idx row)); [| done .. | | done].
    - apply elem_of_seqZ. lia.
    - by apply unit_row. }
  pose proof Hs as Hfull. rewrite puzzle_solved_true in Hfull.
  split; [| split; [| split]].
  - intros row col num Hr Hcol Hn. rewrite cell_fill_eq by done.
    rewrite decide_False; [done |]. intros [_ H]. apply H. by apply Hocc.
  - intros row col Hr Hcol. rewrite cell_choices_eq by (done || lia).
    assert (candidates su row col = []) as ->; [| done].
    destruct (candidates su row col) as [|d l] eqn:Hcand; [done |]. exfalso.
    assert (d ∈ candidates su row col) as Hin
      by (rewrite Hcand; apply elem_of_cons; by left).
    apply elem_of_candidates in Hin as (_ & Hdr & Hno). apply Hno. by apply Hocc.
  - intros row col. unfold cell_hint.
    rewrite cell_hint_loop_eq by (apply coords_cells || lia).
    destruct (hint_cell su cells) as [[i j] |] eqn:Hh; [| done].
    apply hint_cell_Some in Hh as (Hi & Hj & Hb & _). by destruct (Hfull i j Hi Hj).
  - intros row col.
    destruct (least_possible_solutions_spec su row col garbage)
      as (n & r & c & ch & -> & [(-> & -> & -> & _) | (_ & Hr & Hcol & Hb & _)]);
      [lia | by exists ch |].
    by destruct (Hfull r c Hr Hcol).
Qed.

Lemma solved_board_final_witness :
  cell_fill {| puzzle := replicate 81 0; solution := solved_grid |} 4 4 5
  = Ok (false, {| puzzle := replicate 81 0; solution := solved_grid |}).
Proof.
  destruct (solved_board_final (replicate 9 0)
              {| puzzle := replicate 81 0; solution := solved_grid |})
    as (Hfill & _);
    [reflexivity | compute_done | compute_done | compute_done | reflexivity |].
  apply Hfill; [compute_done | compute_done | lia].
Defined.

(** ** Reading a board *)

Lemma scanf_char_None stdin : scanf_char stdin = None ↔ nonspace stdin = [].
Proof.
  unfold nonspace. induction stdin as [|c stdin IH]; cbn [scanf_char]; [done |].
  rewrite filter_cons. destruct (isspace c) eqn:Hc.
  - by rewrite decide_False.
  - by rewrite decide_True.
Qed.

Lemma scanf_char_Some stdin c rest :
  scanf_char stdin = Some (c, rest) →
  nonspace stdin = c :: nonspace rest ∧ rest `suffix_of` stdin.
Proof.
  unfold nonspace. induction stdin as [|c' stdin IH]; cbn [scanf_char]; [done |].
  rewrite filter_cons. destruct (isspace c') eqn:Hc.
  - rewrite decide_False by done. intros [Hn Hs]%IH. split; [done |].
    by apply suffix_cons_r.
  - rewrite decide_True by done. intros [= -> ->]. split; [done |].
    by apply suffix_cons_r.
Qed.

Lemma sudoku_read_loop_ok n s su stdin :
  (n ≤ length (nonspace stdin))%nat →
  (s + n ≤ length (puzzle su))%nat → (s + n ≤ length (solution su))%nat →
  ∃ rest,
    sudoku_read_loop (seqZ (Z.of_nat s) (Z.of_nat n)) su stdin
    = Ok ({| puzzle := take s (puzzle su) ++ (decode <$> take n (nonspace stdin))
                       ++ drop (s + n) (puzzle su);
             solution := take s (solution su) ++ (decode <$> take n (nonspace stdin))
                         ++ drop (s + n) (solution su) |}, rest)
    ∧ nonspace rest = drop n (nonspace stdin)
    ∧ rest `suffix_of` stdin.
Proof.
  revert s su stdin. induction n as [|n IH]; intros s su stdin Hn Hp Hs.
  - exists stdin. rewrite Nat.add_0_r.
    change (decode <$> take 0 (nonspace stdin)) with (@nil Z).
    change (seqZ (Z.of_nat s) (Z.of_nat 0)) with (@nil Z).
    cbn [sudoku_read_loop app]. rewrite !take_drop. by destruct su.
  - rewrite seqZ_cons by lia. cbn [sudoku_read_loop].
    destruct (scanf_char stdin) as [[c stdin'] |] eqn:Hscan.
    + apply scanf_char_Some in Hscan as [Hns Hsuf]. rewrite Hns in Hn |- *.
      simpl in Hn. cbn zeta.
      replace (Z.succ (Z.of_nat s)) with (Z.of_nat (S s)) by lia.
      replace (Z.pred (Z.of_nat (S n))) with (Z.of_nat n) by lia.
      destruct (IH (S s) {| puzzle := wr (puzzle su) (Z.of_nat s)
                                         (if c =? rd PRINT EMPTY then 0 else c - chr "0");
                            solution := wr (solution su) (Z.of_nat s)
                                           (if c =? rd PRINT EMPTY then 0 else c - chr "0") |}
                  stdin') as (rest & -> & Hrest & Hsuf');
        [lia | simpl; rewrite length_wr; lia | simpl; rewrite length_wr; lia |].
      exists rest. split; [| split; [done | by etrans]].
      simpl. unfold wr. rewrite Nat2Z.id.
      rewrite !(take_S_r _ s (decode c)) by (apply list_lookup_insert_eq; lia).
      rewrite !take_insert_ge by lia. rewrite !drop_insert_lt by lia.
      rewrite <- !app_assoc. cbn [app].
      replace (s + S n)%nat with (S (s + n)) by lia. done.
    + apply scanf_char_None in Hscan. rewrite Hscan in Hn. simpl in Hn. lia.
Qed.

Lemma sudoku_read_loop_short n s su stdin :
  (length (nonspace stdin) < n)%nat →
  sudoku_read_loop (seqZ (Z.of_nat s) (Z.of_nat n)) su stdin = AssertFail.
Proof.
  revert s su stdin. induction n as [|n IH]; intros s su stdin Hn; [lia |].
  rewrite seqZ_cons by lia. cbn [sudoku_read_loop].
  destruct (scanf_char stdin) as [[c stdin'] |] eqn:Hscan; [| done].
  apply scanf_char_Some in Hscan as [Hns _]. rewrite Hns in Hn. simpl in Hn.
  cbn zeta.
  replace (Z.succ (Z.of_nat s)) with (Z.of_nat (S s)) by lia.
  replace (Z.pred (Z.of_nat (S n))) with (Z.of_nat n) by lia.
  apply IH. lia.
Qed.

(** X15.  When the input holds at least 81 characters that are not white
    space, [sudoku_read] returns a board whose puzzle and solution are both
    the first 81 of them, in order, ['_'] read as 0 and any other character
    [c] as [c - '0']; no cell keeps what [malloc] left in it, and the input
    left starts after the 81st such character. *)
Theorem sudoku_read_spec fresh stdin :
  wf fresh → (81 ≤ length (nonspace stdin))%nat →
  ∃ cells rest,
    sudoku_read fresh stdin = Ok ({| puzzle := cells; solution := cells |}, rest)
    ∧ cells = decode <$> take 81 (nonspace stdin)
    ∧ length cells = 81%nat
    ∧ nonspace rest = drop 81 (nonspace stdin)
    ∧ rest `suffix_of` stdin
    ∧ decode (chr "_") = 0
    ∧ (∀ c, c ≠ chr "_" → decode c = c - chr "0")
    ∧ (∀ d, 0 ≤ d ≤ 9 → decode (chr "0" + d) = d)
    ∧ (Forall (λ c, c = chr "_" ∨ chr "0" ≤ c ≤ chr "9") (take 81 (nonspace stdin)) →
       digits {| puzzle := cells; solution := cells |}).
Proof.
  intros [Hp Hs] Hlen. unfold sudoku_read.
  destruct (sudoku_read_loop_ok 81 0 fresh stdin) as (rest & Hrun & Hrest & Hsuf);
    [lia | lia | lia |].
  change (range 0 (DIM * DIM)) with (seqZ (Z.of_nat 0) (Z.of_nat 81)).
  exists (decode <$> take 81 (nonspace stdin)), rest.
  rewrite Hrun. cbn [take]. rewrite !drop_ge, !app_nil_r by lia.
  split; [done |]. split; [done |]. split.
  { rewrite length_fmap, length_take. lia. }
  split; [done |]. split; [done |]. split; [done |].
  change (chr "0") with 48. change (chr "9") with 57. change (chr "_") with 95.
  unfold decode. change (chr "0") with 48. change (chr "_") with 95.
  split; [| split].
  - intros c Hc. by destruct (Z.eqb_spec c 95).
  - intros d Hd. destruct (Z.eqb_spec (48 + d) 95); lia.
  - intros Hchars. unfold digits. simpl. apply Forall_fmap.
    eapply Forall_impl; [exact Hchars |]. intros c Hc. simpl in Hc |- *.
    destruct (Z.eqb_spec c 95); lia.
Qed.

Lemma sudoku_read_spec_witness :
  ∃ rest, sudoku_read empty_board
            (chr <$> list_ascii_of_string
               " 53__7____ 6__195___ _98____6_ 8___6___3 4__8_3__1 7___2___6 _6____28_ ___419__5 ____8__79 x")
          = Ok ({| puzzle := [5;3;0;0;7;0;0;0;0; 6;0;0;1;9;5;0;0;0; 0;9;8;0;0;0;0;6;0;
                               8;0;0;0;6;0;0;0;3; 4;0;0;8;0;3;0;0;1; 7;0;0;0;2;0;0;0;6;
                               0;6;0;0;0;0;2;8;0; 0;0;0;4;1;9;0;0;5; 0;0;0;0;8;0;0;7;9];
                   solution := [5;3;0;0;7;0;0;0;0; 6;0;0;1;9;5;0;0;0; 0;9;8;0;0;0;0;6;0;
                                8;0;0;0;6;0;0;0;3; 4;0;0;8;0;3;0;0;1; 7;0;0;0;2;0;0;0;6;
                                0;6;0;0;0;0;2;8;0; 0;0;0;4;1;9;0;0;5; 0;0;0;0;8;0;0;7;9] |},
                rest).
Proof.
  destruct (sudoku_read_spec empty_board
              (chr <$> list_ascii_of_string
                 " 53__7____ 6__195___ _98____6_ 8___6___3 4__8_3__1 7___2___6 _6____28_ ___419__5 ____8__79 x"))
    as (cs & rest & Hrun & Hcs & _); [compute_done | vm_compute; lia |].
  exists rest. rewrite Hrun, Hcs. vm_compute. reflexivity.
Defined.

(** X16.  When the input holds fewer than 81 characters that are not white
    space, the assertion on [scanf] fails: [sudoku_read] aborts and returns no
    board. *)
Theorem sudoku_read_short fresh stdin :
  (length (nonspace stdin) < 81)%nat → sudoku_read fresh stdin = AssertFail.
Proof.
  intros Hlen. unfold sudoku_read.
  change (range 0 (DIM * DIM)) with (seqZ (Z.of_nat 0) (Z.of_nat 81)).
  by apply sudoku_read_loop_short.
Qed.

Lemma sudoku_read_short_witness :
  sudoku_read empty_board (chr <$> list_ascii_of_string "53__7____ 6__195___") = AssertFail.
Proof. apply sudoku_read_short. vm_compute. lia. Defined.

(** ** Printing a board *)

(** X17.  For a board of digits [solution_print] writes fourteen lines: the
    separator line, rows 0 to 2, the separator, rows 3 to 5, the separator,
    rows 6 to 8, the separator and an empty line.  A row line shows its nine
    cells in three groups between bars, each cell as its [PRINT] character
    between two spaces; the print-out has 417 characters. *)
Theorem solution_print_layout su :
  digits su →
  solution_print su = mjoin ((λ line, line ++ [chr "010"]) <$> print_lines su)
  ∧ length (solution_print su) = 417%nat
  ∧ Forall (λ line, line = [] ∨ length line = 31%nat) (print_lines su).
Proof.
  intros _. split; [reflexivity |]. split; [reflexivity |].
  repeat (constructor; [(by left) || (right; reflexivity) |]). constructor.
Qed.

Lemma solution_print_layout_witness :
  length (solution_print row_missing_board) = 417%nat.
Proof.
  destruct (solution_print_layout row_missing_board) as (_ & Hlen & _);
    [compute_done | exact Hlen].
Defined.

Lemma nonspace_unframed text : nonspace (unframed text) = filter cell_char text.
Proof. unfold nonspace, unframed. apply list_filter_filter. Qed.

Lemma fold_left_filter {I : Type} (step : list Z → I → list Z) (g : I → list Z)
    (l : list I) (out : list Z) :
  (∀ out i, i ∈ l → filter cell_char (step out i) = filter cell_char out ++ g i) →
  filter cell_char (fold_left step l out) = filter cell_char out ++ (l ≫= g).
Proof.
  revert out. induction l as [|i l IH]; intros out Hstep.
  - by rewrite app_nil_r.
  - cbn [fold_left]. rewrite bind_cons, IH.
    + rewrite Hstep by (apply elem_of_cons; by left). by rewrite app_assoc.
    + intros out' i' Hi'. apply Hstep. apply elem_of_cons. by right.
Qed.

Lemma PRINT_digit x :
  0 ≤ x ≤ 9 → cell_char (rd PRINT x) ∧ decode (rd PRINT x) = x.
Proof.
  intros Hx.
  assert (x = 0 ∨ x = 1 ∨ x = 2 ∨ x = 3 ∨ x = 4 ∨ x = 5 ∨ x = 6 ∨ x = 7 ∨ x = 8
          ∨ x = 9) as Hcases by lia.
  destruct Hcases as [-> | [-> | [-> | [-> | [-> | [-> | [-> | [-> | [-> | ->]]]]]]]]];
    (split; [compute_done | reflexivity]).
Qed.

Lemma cells_bind (f : Z → Z) :
  (r ← range 0 DIM; c ← range 0 DIM; [f (r * DIM + c)]) = f <$> seqZ 0 81.
Proof.
  rewrite <- (bind_pair_fmap _ _ (λ r c, f (r * DIM + c))).
  fold cells. rewrite <- cells_index, <- list_fmap_compose.
  apply list_fmap_ext. by intros _ [i j] _.
Qed.

Lemma bind_ext_in {A B : Type} (f g : A → list B) (l : list A) :
  (∀ x, x ∈ l → f x = g x) → l ≫= f = l ≫= g.
Proof.
  induction l as [|x l IH]; intros H; [done |].
  rewrite !bind_cons, H by (apply elem_of_cons; by left).
  rewrite IH; [done |]. intros y Hy. apply H. apply elem_of_cons. by right.
Qed.

Lemma solution_print_cells su :
  wf su → digits su →
  filter cell_char (solution_print su) = rd PRINT <$> solution su.
Proof.
  intros Hwf Hd. unfold solution_print.
  assert (filter cell_char solution_print_separator = []) as Hsep by reflexivity.
  rewrite !filter_app, Hsep.
  change (filter cell_char [chr "010"]) with (@nil Z). rewrite !app_nil_r.
  rewrite (fold_left_filter _
             (λ r, range 0 DIM ≫= λ c, [rd PRINT (rd (solution su) (r * DIM + c))])).
  - change (filter cell_char []) with (@nil Z). cbn [app].
    rewrite (cells_bind (λ k, rd PRINT (rd (solution su) k))).
    rewrite (list_fmap_compose (rd (solution su)) (rd PRINT)).
    destruct Hwf as [_ Hlen].
    rewrite <- (rd_seqZ (solution su)) at 2. by rewrite Hlen.
  - intros out r Hr. cbn zeta. rewrite filter_app.
    change (filter cell_char [chr "|"; chr "010"]) with (@nil Z). rewrite app_nil_r.
    rewrite (fold_left_filter _ (λ c, [rd PRINT (rd (solution su) (r * DIM + c))])).
    + f_equal. destruct (r `rem` DIMBOX =? 0); [| done].
      by rewrite filter_app, Hsep, app_nil_r.
    + intros out' c Hc. cbn zeta. rewrite filter_app.
      assert (filter cell_char (if c `rem` DIMBOX =? 0 then out' ++ [chr "|"] else out')
              = filter cell_char out') as ->.
      { destruct (c `rem` DIMBOX =? 0); [| done].
        rewrite filter_app. change (filter cell_char [chr "|"]) with (@nil Z).
        by rewrite app_nil_r. }
      f_equal.
      unfold range in Hr, Hc. apply elem_of_seqZ in Hr, Hc.
      assert (coord r ∧ coord c) as [Hr' Hc'] by (unfold coord, DIM in *; lia).
      pose proof (digits_rd su _ Hd Hwf (index_bounds r c Hr' Hc')) as Hx.
      apply PRINT_digit in Hx as [Hx _].
      rewrite filter_cons_False by (by intros [? _]).
      rewrite filter_cons_True by done.
      by rewrite filter_cons_False by (by intros [? _]).
Qed.

Lemma sudoku_read_eq fresh stdin :
  wf fresh → (81 ≤ length (nonspace stdin))%nat →
  ∃ rest,
    sudoku_read fresh stdin
    = Ok ({| puzzle := decode <$> take 81 (nonspace stdin);
             solution := decode <$> take 81 (nonspace stdin) |}, rest)
    ∧ nonspace rest = drop 81 (nonspace stdin)
    ∧ rest `suffix_of` stdin.
Proof.
  intros [Hp Hs] Hlen. unfold sudoku_read.
  destruct (sudoku_read_loop_ok 81 0 fresh stdin) as (rest & Hrun & Hrest & Hsuf);
    [lia | lia | lia |].
  change (range 0 (DIM * DIM)) with (seqZ (Z.of_nat 0) (Z.of_nat 81)).
  exists rest. rewrite Hrun. cbn [take]. rewrite !drop_ge, !app_nil_r by lia.
  done.
Qed.

(** X18.  What [solution_print] writes for a board of digits, without the
    frame characters [+], [-] and [|], is an input [sudoku_read] accepts: it
    reads back the printed grid, as puzzle and as solution, and leaves nothing
    but white space. *)
Theorem print_read_roundtrip fresh su :
  wf fresh → wf su → digits su →
  ∃ rest,
    sudoku_read fresh (unframed (solution_print su))
    = Ok ({| puzzle := solution su; solution := solution su |}, rest)
    ∧ nonspace rest = [].
Proof.
  intros Hfresh Hwf Hd.
  assert (nonspace (unframed (solution_print su)) = rd PRINT <$> solution su) as Hns
    by (rewrite nonspace_unframed; by apply solution_print_cells).
  destruct Hwf as [_ Hlen].
  destruct (sudoku_read_eq fresh (unframed (solution_print su)))
    as (rest & Hrun & Hrest & _); [done | rewrite Hns, length_fmap; lia |].
  exists rest. rewrite Hrun, Hrest, Hns.
  rewrite take_ge, drop_ge by (rewrite length_fmap; lia).
  split; [| done].
  assert (decode <$> (rd PRINT <$> solution su) = solution su) as ->; [| done].
  rewrite <- list_fmap_compose. rewrite <- (list_fmap_id (solution su)) at 2.
  apply list_fmap_ext. intros i x Hx. simpl.
  unfold digits in Hd. rewrite Forall_forall in Hd.
  apply list_elem_of_lookup_2 in Hx. by apply PRINT_digit, Hd.
Qed.

Lemma print_read_roundtrip_witness :
  ∃ rest,
    sudoku_read empty_board (unframed (solution_print row_missing_board))
    = Ok ({| puzzle := solution row_missing_board;
             solution := solution row_missing_board |}, rest).
Proof.
  destruct (print_read_roundtrip empty_board row_missing_board)
    as (rest & Hrun & _); [compute_done | compute_done | compute_done |].
  exists rest. exact Hrun.
Defined.

(** ** The checks and the assertions, cell by cell *)

Lemma elem_of_box_idx row col k :
  coord row → coord col →
  k ∈ box_idx row col ↔
  ∃ i j, coord i ∧ coord j ∧ i ÷ DIMBOX = row ÷ DIMBOX ∧ j ÷ DIMBOX = col ÷ DIMBOX
         ∧ k = i * DIM + j.
Proof.
  intros Hr Hc. unfold box_idx. rewrite list_elem_of_bind. split.
  - intros (i & (j & ->%list_elem_of_singleton & Hj)%list_elem_of_bind & Hi).
    unfold range in Hi, Hj. apply elem_of_seqZ in Hi, Hj.
    exists i, j. unfold coord, DIM, DIMBOX in *.
    rewrite !Z.quot_div_nonneg in * by lia.
    assert (0 ≤ i ∧ 0 ≤ j) as [? ?] by (Z.div_mod_to_equations; lia).
    rewrite !Z.quot_div_nonneg by lia.
    repeat split; Z.div_mod_to_equations; lia.
  - intros (i & j & Hi & Hj & Hri & Hcj & ->). exists i. split.
    + apply list_elem_of_bind. exists j. split; [by apply list_elem_of_singleton |].
      unfold range. apply elem_of_seqZ. rewrite <- Hcj.
      unfold coord, DIMBOX in *. rewrite !Z.quot_div_nonneg by lia.
      Z.div_mod_to_equations. lia.
    + unfold range. apply elem_of_seqZ. rewrite <- Hri.
      unfold coord, DIMBOX in *. rewrite !Z.quot_div_nonneg by lia.
      Z.div_mod_to_equations. lia.
Qed.

(** X19.  For coordinates in [0,8] the three checks return [SUCCESS] or
    [CONSTRAINT_VIOLATED], and [CONSTRAINT_VIOLATED] exactly when the number is
    the content of a cell of the row, of the column, or of the box: the nine
    cells whose row and column, divided by 3, give the same as [row] and
    [col]. *)
Theorem violate_spec su row col num :
  coord row → coord col →
  (∃ r, violate_row su row num = Ok r
        ∧ (r = SUCCESS ∨ r = CONSTRAINT_VIOLATED)
        ∧ (r = CONSTRAINT_VIOLATED ↔
           ∃ j, coord j ∧ rd (solution su) (row * DIM + j) = num))
  ∧ (∃ r, violate_col su col num = Ok r
          ∧ (r = SUCCESS ∨ r = CONSTRAINT_VIOLATED)
          ∧ (r = CONSTRAINT_VIOLATED ↔
             ∃ i, coord i ∧ rd (solution su) (i * DIM + col) = num))
  ∧ (∃ r, violate_box su row col num = Ok r
          ∧ (r = SUCCESS ∨ r = CONSTRAINT_VIOLATED)
          ∧ (r = CONSTRAINT_VIOLATED ↔
             ∃ i j, coord i ∧ coord j
                    ∧ i ÷ DIMBOX = row ÷ DIMBOX ∧ j ÷ DIMBOX = col ÷ DIMBOX
                    ∧ rd (solution su) (i * DIM + j) = num)).
Proof.
  intros Hr Hc. split; [| split].
  - rewrite violate_row_spec by done. eexists. split; [done |].
    case_decide as Hin; (split; [(by left) || (by right) |]); split; try done.
    + intros _. apply list_elem_of_fmap in Hin as (k & -> & Hk).
      apply list_elem_of_fmap in Hk as (j & -> & Hj).
      unfold range in Hj. apply elem_of_seqZ in Hj.
      exists j. split; [unfold coord, DIM in *; lia | done].
    + intros (j & Hj & <-). destruct Hin. by apply elem_of_vals, cell_in_row.
  - rewrite violate_col_spec by done. eexists. split; [done |].
    case_decide as Hin; (split; [(by left) || (by right) |]); split; try done.
    + intros _. apply list_elem_of_fmap in Hin as (k & -> & Hk).
      apply list_elem_of_fmap in Hk as (i & -> & Hi).
      unfold range in Hi. apply elem_of_seqZ in Hi.
      exists i. split; [unfold coord, DIM in *; lia | done].
    + intros (i & Hi & <-). destruct Hin. by apply elem_of_vals, cell_in_col.
  - rewrite violate_box_spec by done. eexists. split; [done |].
    case_decide as Hin; (split; [(by left) || (by right) |]); split; try done.
    + intros _. apply list_elem_of_fmap in Hin as (k & -> & Hk).
      apply elem_of_box_idx in Hk as (i & j & Hi & Hj & Hri & Hcj & ->); [| done ..].
      by exists i, j.
    + intros (i & j & Hi & Hj & Hri & Hcj & <-). destruct Hin.
      apply elem_of_vals, elem_of_box_idx; [done | done |]. by exists i, j.
Qed.

Lemma violate_spec_witness :
  violate_row dead_board 0 5 = Ok CONSTRAINT_VIOLATED.
Proof.
  destruct (violate_spec dead_board 0 0 5) as ((r & Hr & _ & Hiff) & _);
    [compute_done | compute_done |].
  rewrite Hr. f_equal. apply Hiff. exists 4. split; [compute_done | reflexivity].
Defined.

Lemma assert_coord_dec r :
  assert ((0 <=? r) && (r <=? 8)) = if decide (coord r) then Ok tt else AssertFail.
Proof.
  unfold assert, coord.
  destruct (Z.leb_spec 0 r), (Z.leb_spec r 8); simpl; case_decide; (done || lia).
Qed.

Lemma assert_digit_dec num :
  assert ((1 <=? num) && (num <=? 9))
  = if decide (1 ≤ num ≤ 9) then Ok tt else AssertFail.
Proof.
  unfold assert.
  destruct (Z.leb_spec 1 num), (Z.leb_spec num 9); simpl; case_decide; (done || lia).
Qed.

(** X20.  The calls abort on an argument out of range, and only then:
    [cell_fill] returns a result exactly when row and column are in [0,8]
    and the number is in [1,9], [cell_erase] and [cell_choices] exactly when
    row and column are in [0,8]; otherwise an assertion fails. *)
Theorem argument_assertions su row col num choices :
  length choices = 9%nat →
  (cell_fill su row col num = AssertFail ↔ ¬ (coord row ∧ coord col ∧ 1 ≤ num ≤ 9))
  ∧ (coord row ∧ coord col ∧ 1 ≤ num ≤ 9 →
     ∃ b su', cell_fill su row col num = Ok (b, su'))
  ∧ (cell_erase su row col = AssertFail ↔ ¬ (coord row ∧ coord col))
  ∧ (coord row ∧ coord col → ∃ b su', cell_erase su row col = Ok (b, su'))
  ∧ (cell_choices su row col choices = AssertFail ↔ ¬ (coord row ∧ coord col))
  ∧ (coord row ∧ coord col →
     ∃ n choices', cell_choices su row col choices = Ok (n, choices')).
Proof.
  intros Hlen.
  assert (coord row ∧ coord col ∧ 1 ≤ num ≤ 9 →
          ∃ b su', cell_fill su row col num = Ok (b, su')) as Hfill.
  { intros (Hr & Hc & Hn). rewrite cell_fill_eq by done. case_decide; by eexists _, _. }
  assert (coord row ∧ coord col → ∃ b su', cell_erase su row col = Ok (b, su')) as Herase.
  { intros (Hr & Hc). rewrite cell_erase_eq by done. case_decide; by eexists _, _. }
  assert (coord row ∧ coord col →
          ∃ n choices', cell_choices su row col choices = Ok (n, choices')) as Hchoices.
  { intros (Hr & Hc). rewrite cell_choices_eq by (done || lia). by eexists _, _. }
  split; [| split; [done |]]; [| split; [| split; [done |]]]; [| | split; [| done]].
  - split.
    + intros Hfail Hok. destruct (Hfill Hok) as (b & s & Hrun). congruence.
    + intros Hbad. unfold cell_fill.
      change (DIM - 1) with 8. rewrite !assert_coord_dec, assert_digit_dec.
      repeat (case_decide; res_simpl; try done). tauto.
  - split.
    + intros Hfail Hok. destruct (Herase Hok) as (b & s & Hrun). congruence.
    + intros Hbad. unfold cell_erase.
      change (DIM - 1) with 8. rewrite !assert_coord_dec.
      repeat (case_decide; res_simpl; try done). tauto.
  - split.
    + intros Hfail Hok. destruct (Hchoices Hok) as (b & s & Hrun). congruence.
    + intros Hbad. unfold cell_choices.
      change (DIM - 1) with 8. rewrite !assert_coord_dec.
      repeat (case_decide; res_simpl; try done). tauto.
Qed.

Lemma argument_assertions_witness :
  cell_fill empty_board 9 0 1 = AssertFail
  ∧ cell_fill empty_board 0 0 10 = AssertFail
  ∧ cell_erase empty_board 0 (-1) = AssertFail.
Proof.
  split; [| split].
  - destruct (argument_assertions empty_board 9 0 1 (replicate 9 0)) as (H & _);
      [reflexivity |]. apply H. compute_done.
  - destruct (argument_assertions empty_board 0 0 10 (replicate 9 0)) as (H & _);
      [reflexivity |]. apply H. compute_done.
  - destruct (argument_assertions empty_board 0 (-1) 1 (replicate 9 0))
      as (_ & _ & H & _); [reflexivity |]. apply H. compute_done.
Defined.
